(** * m2c [c_types.py]: struct layouts, function signatures and the type map

    A shallow embedding of [src/c_types.py] and the properties of its
    layout engine, constant evaluator, signature parser, comment stripper
    and type-map builder.

    Python integers are unbounded, so they are [Z]; [//] is [Z.div] (both
    floor), [&] is [Z.land] (both two's complement on negative numbers).
    Python [str] values are [string]s, and lists of characters where the
    code goes through a text; characters are code points below 256.  The
    dictionaries of [TypeMap] are [gmap]s; the field table of a [Struct],
    whose iteration order the code relies on, is an insertion-ordered
    association list.  Loops and recursion that the code does not bound
    (typedef chains, nested definitions) take fuel. *)

From Stdlib Require Import ZArith List String Ascii Bool Lia.
From Stdlib Require DecimalString DecimalNat DecimalFacts.
From stdpp Require Import base option gmap strings.

Import ListNotations.
Local Open Scope string_scope.
Local Open Scope list_scope.
Local Open Scope Z_scope.

(* ===================================================================== *)
(** * The pycparser AST fragment the module consumes *)
(* ===================================================================== *)

Module ca.

(** Expressions.  [Constant] carries pycparser's literal kind and the
    literal's text.  Expression forms that embed type names (casts,
    [sizeof(type)], compound literals) are outside the fragment. *)
Inductive Expression : Type :=
| Constant (type : string) (value : string)
| BinaryOp (op : string) (left right : Expression)
| UnaryOp (op : string) (expr : Expression)
| ID (name : string).

(** [Type_] is the module's [Type = Union[PtrDecl, ArrayDecl, TypeDecl,
    FuncDecl]]; [Inner] is what a [TypeDecl] wraps; [StructUnion] is
    [Union[ca.Struct, ca.Union]] ([is_union] tells which class the node
    has, [uid] is the node's identity [id(node)]); [Node] collects the
    classes found in [FileAST.ext], [Struct.decls] and
    [ParamList.params].  A [Decl]'s [type] is a [Type_], or a bare
    struct, union or enum when the declaration has no declarator. *)
Inductive Type_ : Type :=
| PtrDecl (type : Type_)
| ArrayDecl (type : Type_) (dim : option Expression)
| TypeDecl (declname : option string) (type : Inner)
| FuncDecl (args : option (list Node)) (type : Type_)
with Inner : Type :=
| IdentifierType (names : list string)
| Enum (name : option string)
| SU (su : StructUnion)
with StructUnion : Type :=
| MkSU (is_union : bool) (uid : positive) (name : option string)
       (decls : option (list Node))
with Node : Type :=
| Decl (name : option string) (type : Type_ + Inner)
       (bitsize : option Expression)
| Typedef (name : string) (type : Type_)
| FuncDef (decl : Node)
| Typename (type : Type_)
| EllipsisParam
| IDNode (name : string)
| Pragma (text : string).

Definition is_union (s : StructUnion) : bool :=
  match s with MkSU u _ _ _ => u end.
Definition uid (s : StructUnion) : positive :=
  match s with MkSU _ i _ _ => i end.
Definition name (s : StructUnion) : option string :=
  match s with MkSU _ _ n _ => n end.
Definition decls (s : StructUnion) : option (list Node) :=
  match s with MkSU _ _ _ d => d end.

End ca.

Import ca.

(* ===================================================================== *)
(** * Exceptions and results *)
(* ===================================================================== *)

(** The [DecompFailure]s the module raises, by message; the arguments are
    the values the message is formatted from. *)
Inductive failure : Type :=
| KnR_not_supported
| Failed_int_literal (e : Expression)
| Failed_to_evaluate (e : Expression)
| Used_before_defined (name : option string)
| Array_must_have_size (field_name : string)
| Bitfield_not_primitive (field_name : string)
| Bitfield_too_wide (field_name : string).

Inductive exn : Type :=
| DecompFailure (msg : failure)
| AssertionError
| AttributeError
| ValueError
| ZeroDivisionError.

(** Results of code without side effects. *)
Inductive result (A : Type) : Type :=
| Ok (a : A)
| Err (e : exn).
Arguments Ok {A} a.
Arguments Err {A} e.

(* ===================================================================== *)
(** * Python built-ins used by the module *)
(* ===================================================================== *)

Module Py.

Definition chars (s : string) : list ascii := list_ascii_of_string s.

Definition mem (c : ascii) (cs : list ascii) : bool :=
  existsb (Ascii.eqb c) cs.

Fixpoint lstrip_by (p : ascii -> bool) (s : list ascii) : list ascii :=
  match s with
  | c :: s' => if p c then lstrip_by p s' else s
  | [] => []
  end.

(** [s.rstrip(cs)] *)
Definition rstrip (cs : string) (s : list ascii) : list ascii :=
  rev (lstrip_by (fun c => mem c (chars cs)) (rev s)).

(** [Py_ISSPACE]: space, TAB, LF, VT, FF, CR. *)
Definition isspace (c : ascii) : bool :=
  let n := N_of_ascii c in
  (N.eqb n 32 || (N.leb 9 n && N.leb n 13))%bool.

(** [_PyLong_DigitValue]: ['0'..'9'], then letters of either case for
    10..35. *)
Definition digit_value (c : ascii) : option Z :=
  let n := Z.of_N (N_of_ascii c) in
  if (48 <=? n) && (n <=? 57) then Some (n - 48)
  else if (97 <=? n) && (n <=? 122) then Some (n - 87)
  else if (65 <=? n) && (n <=? 90) then Some (n - 55)
  else None.

(** The digit scan of [PyLong_FromString]: digits of the base, single
    underscores between them.  Returns the value, the number of digits
    and the unread rest; [None] is a syntax error. *)
Fixpoint scan_digits (base : Z) (prev_underscore : bool) (acc : Z)
         (ndigits : nat) (s : list ascii) : option (Z * nat * list ascii) :=
  let stop := if prev_underscore then None else Some (acc, ndigits, s) in
  match s with
  | c :: s' =>
      if Ascii.eqb c "_" then
        if prev_underscore then None
        else scan_digits base true acc ndigits s'
      else
        match digit_value c with
        | Some d =>
            if d <? base
            then scan_digits base false (acc * base + d) (S ndigits) s'
            else stop
        | None => stop
        end
  | [] => stop
  end.

Definition skip_one_underscore (s : list ascii) : list ascii :=
  match s with
  | c :: s' => if Ascii.eqb c "_" then s' else s
  | [] => []
  end.

(** [PyLong_FromString] with base 0: surrounding white space, a sign, then
    a Python integer literal.  The base comes from the prefix ([0x], [0o],
    [0b], either case); without a prefix the literal is decimal, and one
    that starts with [0] must be zero (a C-style octal literal is
    refused).  [None] stands for [ValueError]. *)
Definition long_from_string (s : list ascii) : option Z :=
let s := lstrip_by isspace s in
let '(negative, s) :=
  match s with
  | c :: s' =>
      if Ascii.eqb c "+" then (false, s')
      else if Ascii.eqb c "-" then (true, s')
      else (false, s)
  | [] => (false, s)
  end in
let '(base, error_if_nonzero, s) :=
  match s with
  | c0 :: rest =>
      if Ascii.eqb c0 "0" then
        match rest with
        | c1 :: s' =>
            if mem c1 (chars "xX") then (16, false, skip_one_underscore s')
            else if mem c1 (chars "oO") then (8, false, skip_one_underscore s')
            else if mem c1 (chars "bB") then (2, false, skip_one_underscore s')
            else (10, true, s)
        | [] => (10, true, s)
        end
      else (10, false, s)
  | [] => (10, false, s)
  end in
match s with
| c :: _ => if Ascii.eqb c "_" then None else
    match scan_digits base false 0 0 s with
    | Some (z, n, rest) =>
        if error_if_nonzero && negb (z =? 0) then None
        else if Nat.eqb n 0 then None
        else match lstrip_by isspace rest with
             | [] => Some (if negative then - z else z)
             | _ :: _ => None
             end
    | None => None
    end
| [] => None
end.

Definition is_ascii (c : ascii) : bool := N.ltb (N_of_ascii c) 128.

(** [Py_UNICODE_ISSPACE] on the code points below 256. *)
Definition unicode_isspace (c : ascii) : bool :=
let n := N_of_ascii c in
(isspace c || (N.leb 28 n && N.leb n 31) || N.eqb n 133 || N.eqb n 160)%bool.

(** What [_PyUnicode_TransformDecimalAndSpaceToASCII] makes of a character
    of a text that is not ASCII: a code point below 127 is kept, white
    space becomes a space, and anything else becomes [?] (below 256 no
    code point outside ASCII is a decimal digit). *)
Definition to_ascii (c : ascii) : ascii :=
if N.ltb (N_of_ascii c) 127 then c
else if unicode_isspace c then " "%char
else "?"%char.

(** [int(s, 0)] on a [str] (characters are code points below 256): an
    ASCII text is parsed as it is, any other text after [to_ascii]. *)
Definition int0 (s : list ascii) : option Z :=
if forallb is_ascii s then long_from_string s
else long_from_string (map to_ascii s).

(** [str(x)] of an optional string: [None] prints as ["None"]. *)
Definition str_opt (o : option string) : string :=
  match o with Some s => s | None => "None" end.

(** Truth value of an optional string: [None] and [""] are false. *)
Definition truthy (o : option string) : bool :=
  match o with
  | Some s => negb (String.eqb s "")
  | None => false
  end.

End Py.

(* ===================================================================== *)
(** * Constant evaluator *)
(* ===================================================================== *)

Fixpoint parse_constant_int (expr : Expression) : result Z :=
  match expr with
  | Constant _ value =>
      match Py.int0 (Py.rstrip "lLuU" (Py.chars value)) with
      | Some n => Ok n
      | None => Err (DecompFailure (Failed_int_literal expr))
      end
  | BinaryOp op e1 e2 =>
      match parse_constant_int e1 with
      | Err e => Err e
      | Ok lhs =>
          match parse_constant_int e2 with
          | Err e => Err e
          | Ok rhs =>
              if String.eqb op "+" then Ok (lhs + rhs)
              else if String.eqb op "-" then Ok (lhs - rhs)
              else if String.eqb op "*" then Ok (lhs * rhs)
              else if String.eqb op "<<" then
                if rhs <? 0 then Err ValueError else Ok (Z.shiftl lhs rhs)
              else if String.eqb op ">>" then
                if rhs <? 0 then Err ValueError else Ok (Z.shiftr lhs rhs)
              else Err (DecompFailure (Failed_to_evaluate expr))
          end
      end
  | _ => Err (DecompFailure (Failed_to_evaluate expr))
  end.

(* ===================================================================== *)
(** * Data model *)
(* ===================================================================== *)

(** What a [Decl]'s [type] attribute holds. *)
Abbreviation DeclType := (Type_ + Inner)%type.

Record StructField : Type := mkStructField {
  sf_type : DeclType;
  sf_name : string
}.

(** [fields] is a [Dict[int, List[StructField]]]: keys in insertion order. *)
Record Struct : Type := mkStruct {
  fields : list (Z * list StructField);
  size : Z;
  align : Z
}.

Record Param : Type := mkParam {
  p_type : DeclType;
  p_name : option string
}.

Record Function : Type := mkFunction {
  ret_type : option Type_;
  params : option (list Param);
  is_variadic : bool
}.

Record TypeMap : Type := mkTypeMap {
  typedefs : gmap string Type_;
  var_types : gmap string DeclType;
  functions : gmap string Function;
  named_structs : gmap string Struct;
  anon_structs : gmap positive Struct
}.

Definition empty_typemap : TypeMap := mkTypeMap ∅ ∅ ∅ ∅ ∅.

Definition set_typedefs (f : gmap string Type_ -> gmap string Type_)
           (tm : TypeMap) : TypeMap :=
  mkTypeMap (f (typedefs tm)) (var_types tm) (functions tm)
            (named_structs tm) (anon_structs tm).
Definition set_var_types (f : gmap string DeclType -> gmap string DeclType)
           (tm : TypeMap) : TypeMap :=
  mkTypeMap (typedefs tm) (f (var_types tm)) (functions tm)
            (named_structs tm) (anon_structs tm).
Definition set_functions (f : gmap string Function -> gmap string Function)
           (tm : TypeMap) : TypeMap :=
  mkTypeMap (typedefs tm) (var_types tm) (f (functions tm))
            (named_structs tm) (anon_structs tm).
Definition set_named_structs (f : gmap string Struct -> gmap string Struct)
           (tm : TypeMap) : TypeMap :=
  mkTypeMap (typedefs tm) (var_types tm) (functions tm)
            (f (named_structs tm)) (anon_structs tm).
Definition set_anon_structs (f : gmap positive Struct -> gmap positive Struct)
           (tm : TypeMap) : TypeMap :=
  mkTypeMap (typedefs tm) (var_types tm) (functions tm)
            (named_structs tm) (f (anon_structs tm)).

(* ===================================================================== *)
(** * Type normalizer *)
(* ===================================================================== *)

Definition basic_type (names : list string) : Type_ :=
  TypeDecl None (IdentifierType names).

Definition pointer (type : Type_) : Type_ := PtrDecl type.

(** The [while] loop of [resolve_typedefs]; every test of its condition
    takes one unit of fuel, [None] means the loop was still running when
    the fuel ran out (a typedef cycle never leaves it). *)
Fixpoint resolve_typedefs (fuel : nat) (type : Type_) (typemap : TypeMap)
  : option Type_ :=
  match fuel with
  | O => None
  | S fuel' =>
      match type with
      | TypeDecl _ (IdentifierType [n]) =>
          match typedefs typemap !! n with
          | Some type' => resolve_typedefs fuel' type' typemap
          | None => Some type
          end
      | _ => Some type
      end
  end.

Definition pointer_decay (fuel : nat) (type : Type_) (typemap : TypeMap)
  : option (result Type_) :=
  match resolve_typedefs fuel type typemap with
  | None => None
  | Some real_type =>
      Some match real_type with
           | ArrayDecl elt _ => Ok (PtrDecl elt)
           | FuncDecl _ _ => Ok (PtrDecl type)
           | TypeDecl _ (Enum _) => Ok (basic_type ["int"])
           | _ =>
               match type with
               | ArrayDecl _ _ | FuncDecl _ _ => Err AssertionError
               | _ => Ok type
               end
           end
  end.

Definition deref_type (fuel : nat) (type : Type_) (typemap : TypeMap)
  : option (result Type_) :=
  match resolve_typedefs fuel type typemap with
  | None => None
  | Some (ArrayDecl t _) | Some (PtrDecl t) => Some (Ok t)
  | Some _ => Some (Err AssertionError)
  end.

Definition is_void (type : Type_) : bool :=
  match type with
  | TypeDecl _ (IdentifierType names) => bool_decide (names = ["void"])
  | _ => false
  end.

(** [SimpleType = Union[PtrDecl, TypeDecl]] *)
Definition is_SimpleType (type : Type_) : bool :=
  match type with
  | PtrDecl _ | TypeDecl _ _ => true
  | ArrayDecl _ _ | FuncDecl _ _ => false
  end.

(* ===================================================================== *)
(** * Primitive sizer *)
(* ===================================================================== *)

Definition str_in (s : string) (l : list string) : bool :=
  existsb (String.eqb s) l.

Definition str_count (s : string) (l : list string) : Z :=
  Z.of_nat (List.length (List.filter (String.eqb s) l)).

(** [primitive_size] is called on what a [TypeDecl] wraps; a struct or
    union has no [names] attribute. *)
Definition primitive_size (type : Inner) : result Z :=
  match type with
  | Enum _ => Ok 4
  | IdentifierType names =>
      if str_in "double" names then Ok 8
      else if str_in "float" names then Ok 4
      else if str_in "short" names then Ok 2
      else if str_in "char" names then Ok 1
      else if str_count "long" names =? 2 then Ok 8
      else Ok 4
  | SU _ => Err AttributeError
  end.

(* ===================================================================== *)
(** * Function-signature parser *)
(* ===================================================================== *)

(** One iteration of the loop over [fn.args.params]; the state is
    [(params, is_variadic, has_void)]. *)
Definition parse_function_arg (st : list Param * bool * bool) (arg : Node)
  : result (list Param * bool * bool) :=
  let '(params, is_variadic, has_void) := st in
  match arg with
  | EllipsisParam => Ok (params, true, has_void)
  | Decl name type _ => Ok (params ++ [mkParam type name], is_variadic, has_void)
  | IDNode _ => Err (DecompFailure KnR_not_supported)
  | Typename type =>
      if is_void type then Ok (params, is_variadic, true)
      else Ok (params ++ [mkParam (inl type) None], is_variadic, has_void)
  | _ => Err AssertionError
  end.

Fixpoint parse_function_args (st : list Param * bool * bool) (args : list Node)
  : result (list Param * bool * bool) :=
  match args with
  | [] => Ok st
  | arg :: rest =>
      match parse_function_arg st arg with
      | Ok st' => parse_function_args st' rest
      | Err e => Err e
      end
  end.

Definition parse_function (fn : Type_) : result Function :=
  match fn with
  | FuncDecl args type =>
      match parse_function_args ([], false, false)
              (match args with Some ps => ps | None => [] end) with
      | Err e => Err e
      | Ok (params, is_variadic, has_void) =>
          let maybe_params :=
            match params with
            | [] => if negb has_void && negb is_variadic then None else Some params
            | _ :: _ => Some params
            end in
          let ret_type := if is_void type then None else Some type in
          Ok (mkFunction ret_type maybe_params is_variadic)
      end
  | _ => Err AttributeError
  end.

(* ===================================================================== *)
(** * Code that updates the type map and may raise *)
(* ===================================================================== *)

(** The type map is one shared object that the layout engine updates in
    place, so an exception leaves it as it was when raised: a computation
    ends with a value and the map, with an exception and the map, or
    without fuel. *)
Inductive Res (A : Type) : Type :=
| OK (a : A) (typemap : TypeMap)
| Raise (e : exn) (typemap : TypeMap)
| OutOfFuel.
Arguments OK {A} a typemap.
Arguments Raise {A} e typemap.
Arguments OutOfFuel {A}.

Definition M (A : Type) : Type := TypeMap -> Res A.

Definition ret {A} (a : A) : M A := fun tm => OK a tm.
Definition raise {A} (e : exn) : M A := fun tm => Raise e tm.
Definition bind {A B} (c : M A) (k : A -> M B) : M B :=
  fun tm =>
    match c tm with
    | OK a tm' => k a tm'
    | Raise e tm' => Raise e tm'
    | OutOfFuel => OutOfFuel
    end.
Definition lift {A} (r : result A) : M A :=
  match r with
  | Ok a => ret a
  | Err e => raise e
  end.

Notation "x <- c ;; k" := (bind c (fun x => k))
  (at level 100, c at next level, right associativity).

(** [for x in l: st = body(st, x)] *)
Fixpoint for_each {A S} (body : S -> A -> M S) (l : list A) (st : S) : M S :=
  match l with
  | [] => ret st
  | x :: rest => st' <- body st x ;; for_each body rest st'
  end.

(* ===================================================================== *)
(** * Struct layout engine *)
(* ===================================================================== *)

Definition get_struct (struct : StructUnion) (typemap : TypeMap)
  : option Struct :=
  if Py.truthy (name struct)
  then named_structs typemap !! Py.str_opt (name struct)
  else anon_structs typemap !! uid struct.

(** [typemap.named_structs[struct.name] = ret], or the same on
    [anon_structs] under [id(struct)]. *)
Definition store_struct (struct : StructUnion) (ret : Struct) (tm : TypeMap)
  : TypeMap :=
  if Py.truthy (name struct)
  then set_named_structs (insert (Py.str_opt (name struct)) ret) tm
  else set_anon_structs (insert (uid struct) ret) tm.

(** [fields[offset].append(field)] on a [defaultdict(list)] *)
Fixpoint fields_append (offset : Z) (field : StructField)
         (fields : list (Z * list StructField)) : list (Z * list StructField) :=
  match fields with
  | [] => [(offset, [field])]
  | (k, l) :: rest =>
      if k =? offset then (k, l ++ [field]) :: rest
      else (k, l) :: fields_append offset field rest
  end.

(** [fields[offset]] read without creating the key. *)
Fixpoint fields_get (offset : Z) (fields : list (Z * list StructField))
  : list StructField :=
  match fields with
  | [] => []
  | (k, l) :: rest => if k =? offset then l else fields_get offset rest
  end.

(** The two nested loops that copy a member's field table into the outer
    one, [rename] giving the copied field. *)
Definition flatten_into (rename : StructField -> StructField) (offset : Z)
           (sub : list (Z * list StructField))
           (fields : list (Z * list StructField))
  : list (Z * list StructField) :=
  fold_left
    (fun fields '(off, sfields) =>
       fold_left
         (fun fields field => fields_append (offset + off) (rename field) fields)
         sfields fields)
    sub fields.

Definition prefixed (decl_name : string) (field : StructField) : StructField :=
  mkStructField (sf_type field) (decl_name +:+ "." +:+ sf_name field).

(** The local variables of [do_parse_struct] that its loop updates. *)
Record Layout : Type := mkLayout {
  l_fields : list (Z * list StructField);
  l_union_size : Z;
  l_align : Z;
  l_offset : Z;
  l_bit_offset : Z
}.

Definition initial_layout : Layout := mkLayout [] 0 1 0 0.

Section LoopBody.

(** The two functions the loop body calls back into. *)
Variable parse_struct : StructUnion -> M Struct.
Variable parse_struct_member :
  DeclType -> string -> M (Z * Z * option Struct).

Variable is_union : bool.
Variable struct_name : option string.

(** The [if decl.bitsize is not None:] branch. *)
Definition layout_bitfield (st : Layout) (type : DeclType)
           (field_name : string) (bitsize : Expression) : M Layout :=
  width <- lift (parse_constant_int bitsize) ;;
  member <- parse_struct_member type field_name ;;
  let '(ssize, salign, substr) := member in
  let align := Z.max (l_align st) salign in
  if width =? 0 then
    ret (mkLayout (l_fields st) (l_union_size st) align
                  (l_offset st) (l_bit_offset st))
  else if negb (ssize =? salign) || bool_decide (is_Some substr) then
    raise (DecompFailure (Bitfield_not_primitive field_name))
  else if width >? ssize * 8 then
    raise (DecompFailure (Bitfield_too_wide field_name))
  else if is_union then
    ret (mkLayout (l_fields st) (Z.max (l_union_size st) ssize) align
                  (l_offset st) (l_bit_offset st))
  else if ssize =? 0 then raise ZeroDivisionError
  else
    let offset := l_offset st in
    let bit_offset := l_bit_offset st in
    let '(bit_offset, offset) :=
      if negb (offset / ssize =? (offset + (bit_offset + width - 1) / 8) / ssize)
      then (0, Z.land (offset + ssize) (- ssize))
      else (bit_offset, offset) in
    let bit_offset := bit_offset + width in
    let offset := offset + bit_offset / 8 in
    let bit_offset := Z.land bit_offset 7 in
    ret (mkLayout (l_fields st) (l_union_size st) align offset bit_offset).

(** [if not is_union and bit_offset != 0: bit_offset = 0; offset += 1] *)
Definition flush_bits (st : Layout) : Layout :=
  if negb is_union && negb (l_bit_offset st =? 0)
  then mkLayout (l_fields st) (l_union_size st) (l_align st)
                (l_offset st + 1) 0
  else st.

(** The [if decl.name is not None:] branch. *)
Definition layout_named (st : Layout) (type : DeclType)
           (field_name : string) (decl_name : string) : M Layout :=
  member <- parse_struct_member type field_name ;;
  let '(ssize, salign, substr) := member in
  let align := Z.max (l_align st) salign in
  let offset := Z.land (l_offset st + salign - 1) (- salign) in
  let fields1 := fields_append offset (mkStructField type decl_name)
                               (l_fields st) in
  let fields2 :=
    match substr with
    | Some substr => flatten_into (prefixed decl_name) offset
                                  (fields substr) fields1
    | None => fields1
    end in
  if is_union
  then ret (mkLayout fields2 (Z.max (l_union_size st) ssize) align
                     offset (l_bit_offset st))
  else ret (mkLayout fields2 (l_union_size st) align
                     (offset + ssize) (l_bit_offset st)).

(** The [elif isinstance(type, (ca.Struct, ca.Union)) and type.decls is
    not None:] branch. *)
Definition layout_anonymous (st : Layout) (type : StructUnion) : M Layout :=
  substr <- parse_struct type ;;
  match name type with
  | Some _ => ret st
  | None =>
      let align' := Z.max (l_align st) (align substr) in
      let offset := Z.land (l_offset st + align substr - 1) (- align substr) in
      let fields' := flatten_into (fun field => field) offset
                                  (fields substr) (l_fields st) in
      if is_union
      then ret (mkLayout fields' (Z.max (l_union_size st) (size substr)) align'
                         offset (l_bit_offset st))
      else ret (mkLayout fields' (l_union_size st) align'
                         (offset + size substr) (l_bit_offset st))
  end.

(** The body of [for decl in struct.decls:]. *)
Definition layout_decl (st : Layout) (decl : Node) : M Layout :=
  match decl with
  | Decl decl_name type bitsize =>
      let field_name :=
        Py.str_opt struct_name +:+ "." +:+ Py.str_opt decl_name in
      match bitsize with
      | Some bitsize => layout_bitfield st type field_name bitsize
      | None =>
          let st := flush_bits st in
          match decl_name with
          | Some decl_name => layout_named st type field_name decl_name
          | None =>
              match type with
              | inr (SU su) =>
                  match decls su with
                  | Some _ => layout_anonymous st su
                  | None => ret st
                  end
              | _ => ret st
              end
          end
      end
  | _ => ret st
  end.

(** What follows the loop. *)
Definition finish_layout (st : Layout) : Struct :=
  let st := flush_bits st in
  mkStruct (l_fields st)
           (if is_union then l_union_size st
            else Z.land (l_offset st + l_align st - 1) (- l_align st))
           (l_align st).

End LoopBody.

(** [parse_struct], [parse_struct_member] and [do_parse_struct] call each
    other; every call takes one unit of fuel. *)
Fixpoint parse_struct (fuel : nat) (struct : StructUnion) : M Struct :=
  match fuel with
  | O => fun _ => OutOfFuel
  | S fuel =>
      fun typemap =>
        match get_struct struct typemap with
        | Some existing => OK existing typemap
        | None =>
            match decls struct with
            | None =>
                Raise (DecompFailure (Used_before_defined (name struct))) typemap
            | Some _ =>
                (ret <- do_parse_struct fuel struct ;;
                 fun typemap => OK ret (store_struct struct ret typemap)) typemap
            end
        end
  end

with parse_struct_member (fuel : nat) (type : DeclType) (field_name : string)
  : M (Z * Z * option Struct) :=
  match fuel with
  | O => fun _ => OutOfFuel
  | S fuel =>
      match type with
      | inr _ => raise AttributeError
      | inl type =>
          fun typemap =>
            match resolve_typedefs (S fuel) type typemap with
            | None => OutOfFuel
            | Some (PtrDecl _) => OK (4, 4, None) typemap
            | Some (ArrayDecl elt None) =>
                Raise (DecompFailure (Array_must_have_size field_name)) typemap
            | Some (ArrayDecl elt (Some dim)) =>
                (dim <- lift (parse_constant_int dim) ;;
                 elem <- parse_struct_member fuel (inl elt) field_name ;;
                 let '(esize, ealign, _) := elem in
                 ret (esize * dim, ealign, None)) typemap
            | Some (FuncDecl _ _) => Raise AssertionError typemap
            | Some (TypeDecl _ (SU inner_type)) =>
                (substr <- parse_struct fuel inner_type ;;
                 ret (size substr, align substr, Some substr)) typemap
            | Some (TypeDecl _ inner_type) =>
                (psize <- lift (primitive_size inner_type) ;;
                 ret (psize, psize, None)) typemap
            end
      end
  end

with do_parse_struct (fuel : nat) (struct : StructUnion) : M Struct :=
  match fuel with
  | O => fun _ => OutOfFuel
  | S fuel =>
      match decls struct with
      | None | Some [] => raise AssertionError
      | Some ds =>
          st <- for_each
                  (layout_decl (parse_struct fuel) (parse_struct_member fuel)
                               (is_union struct) (name struct))
                  ds initial_layout ;;
          ret (finish_layout (is_union struct) st)
      end
  end.

(* ===================================================================== *)
(** * Comment stripping *)
(* ===================================================================== *)

Module Re.

Definition LF : ascii := ascii_of_nat 10.
Definition slash : ascii := "/"%char.
Definition star : ascii := "*"%char.
Definition backslash : ascii := "\"%char.
Definition squote : ascii := "'"%char.
Definition dquote : ascii := ascii_of_nat 34.

(** [.*?$] under [DOTALL | MULTILINE]: the shortest run of any
    characters that ends at the end of the text or just before a line
    feed.  Returns the run and the unread rest. *)
Fixpoint lazy_to_eol (s : list ascii) : list ascii * list ascii :=
  match s with
  | [] => ([], [])
  | c :: s' =>
      if Ascii.eqb c LF then ([], s)
      else let '(m, rest) := lazy_to_eol s' in (c :: m, rest)
  end.

(** [.*?\*/] under [DOTALL]: the shortest run of any characters that is
    followed by [*/], with that closer; [None] when no closer follows. *)
Fixpoint lazy_to_close (s : list ascii) : option (list ascii * list ascii) :=
  match s with
  | [] => None
  | c :: s' =>
      match s' with
      | d :: s'' =>
          if Ascii.eqb c star && Ascii.eqb d slash then Some ([c; d], s'')
          else match lazy_to_close s' with
               | Some (m, rest) => Some (c :: m, rest)
               | None => None
               end
      | [] => None
      end
  end.

(** [(?:\\.|[^\\q])*q] for a quote [q]: escape pairs and characters
    other than the backslash and the quote, as many as there are (each
    item is forced by its first character, so giving some back never
    helps), then the closing quote. *)
Fixpoint quoted_body (q : ascii) (s : list ascii)
  : option (list ascii * list ascii) :=
  match s with
  | [] => None
  | c :: s' =>
      if Ascii.eqb c backslash then
        match s' with
        | d :: s'' =>
            match quoted_body q s'' with
            | Some (m, rest) => Some (c :: d :: m, rest)
            | None => None
            end
        | [] => None
        end
      else if Ascii.eqb c q then Some ([c], s')
      else match quoted_body q s' with
           | Some (m, rest) => Some (c :: m, rest)
           | None => None
           end
  end.

(** The pattern of [strip_comments] tried at the start of [s]: the
    matched text and the unread rest.  The alternatives are tried in the
    pattern's order; their first characters make them exclusive. *)
Definition match_here (s : list ascii) : option (list ascii * list ascii) :=
  match s with
  | c :: s' =>
      if Ascii.eqb c slash then
        match s' with
        | d :: s'' =>
            if Ascii.eqb d slash then
              let '(m, rest) := lazy_to_eol s'' in Some (c :: d :: m, rest)
            else if Ascii.eqb d star then
              match lazy_to_close s'' with
              | Some (m, rest) => Some (c :: d :: m, rest)
              | None => None
              end
            else None
        | [] => None
        end
      else if Ascii.eqb c squote || Ascii.eqb c dquote then
        match quoted_body c s' with
        | Some (m, rest) => Some (c :: m, rest)
        | None => None
        end
      else None
  | [] => None
  end.

Definition count_LF (s : list ascii) : nat :=
  List.length (List.filter (Ascii.eqb LF) s).

(** The nested function [replacer], on the matched text. *)
Definition replacer (s : list ascii) : list ascii :=
  match s with
  | c :: _ =>
      if Ascii.eqb c slash then " "%char :: repeat LF (count_LF s) else s
  | [] => s
  end.

(** [re.sub(pattern, replacer, text)]: matches are looked for from left
    to right, each one is replaced and the search goes on after it;
    a character where the pattern does not match is copied.  A match
    is never empty, so [fuel] = the length of the text is enough. *)
Fixpoint sub (fuel : nat) (text : list ascii) : list ascii :=
  match fuel with
  | O => text
  | S fuel =>
      match text with
      | [] => []
      | c :: text' =>
          match match_here text with
          | Some (m, rest) => replacer m ++ sub fuel rest
          | None => c :: sub fuel text'
          end
      end
  end.

End Re.

(** [strip_comments]; the text is the list of its characters. *)
Definition strip_comments (text : list ascii) : list ascii :=
  Re.sub (List.length text) text.

(** [text.count("\n")] *)
Definition count_newlines (text : list ascii) : nat := Re.count_LF text.

(* ===================================================================== *)
(** * Type-map builder *)
(* ===================================================================== *)

Definition modify (f : TypeMap -> TypeMap) : M unit :=
  fun tm => OK tt (f tm).

(** The first loop of [build_typemap], one [item] of [ast.ext]. *)
Definition collect_item (item : Node) : M unit :=
  match item with
  | Typedef name type => modify (set_typedefs (insert name type))
  | FuncDef decl =>
      match decl with
      | Decl name type _ =>
          match name, type with
          | None, _ => raise AssertionError
          | Some name, inl (FuncDecl args rtype) =>
              fn <- lift (parse_function (FuncDecl args rtype)) ;;
              modify (set_functions (insert name fn))
          | Some _, _ => raise AssertionError
          end
      | _ => raise AttributeError
      end
  | Decl name (inl (FuncDecl args rtype)) _ =>
      match name with
      | None => raise AssertionError
      | Some name =>
          fn <- lift (parse_function (FuncDecl args rtype)) ;;
          modify (set_functions (insert name fn))
      end
  | _ => ret tt
  end.

(** The class [Visitor] of [build_typemap].  Classes without a [visit_]
    method get [NodeVisitor.generic_visit], which visits the children. *)
Module Visitor.
Section Visitor.

Variable fuel : nat.

(** [visit_Struct] and [visit_Union] *)
Definition visit_Struct (struct : StructUnion) : M unit :=
  match decls struct with
  | Some _ => _ <- parse_struct fuel struct ;; ret tt
  | None => ret tt
  end.

Definition visit_Enum (name : option string) : M unit :=
  match name with
  | Some name => modify (set_typedefs (insert name (basic_type ["int"])))
  | None => ret tt
  end.

Definition visit_Inner (node : Inner) : M unit :=
  match node with
  | IdentifierType _ => ret tt
  | Enum name => visit_Enum name
  | SU struct => visit_Struct struct
  end.

Fixpoint visit_Type (node : Type_) : M unit :=
  match node with
  | PtrDecl type => visit_Type type
  | ArrayDecl type _ => visit_Type type
  | TypeDecl _ type => visit_Inner type
  | FuncDecl args type =>
      _ <- match args with
           | Some params =>
               (fix visit_all (l : list Node) : M unit :=
                  match l with
                  | [] => ret tt
                  | n :: rest => _ <- visit n ;; visit_all rest
                  end) params
           | None => ret tt
           end ;;
      visit_Type type
  end

with visit (node : Node) : M unit :=
  match node with
  | Decl name type _ =>
      (* visit_Decl *)
      _ <- match name with
           | Some name => modify (set_var_types (insert name type))
           | None => ret tt
           end ;;
      match type with
      | inl (FuncDecl _ _) => ret tt
      | inl type => visit_Type type
      | inr type => visit_Inner type
      end
  | FuncDef decl =>
      (* visit_FuncDef *)
      match decl with
      | Decl (Some name) type _ => modify (set_var_types (insert name type))
      | Decl None _ _ => ret tt
      | _ => raise AttributeError
      end
  | Typedef _ type => visit_Type type
  | Typename type => visit_Type type
  | EllipsisParam | IDNode _ | Pragma _ => ret tt
  end.

End Visitor.
End Visitor.

(** [build_typemap] from the parsed translation unit on: [ext] is
    [ast.ext], where the C parser has put the built-in typedefs first. *)
Definition build_typemap (fuel : nat) (ext : list Node) : Res TypeMap :=
  (_ <- for_each (fun _ item => collect_item item) ext tt ;;
   _ <- for_each (fun _ item => Visitor.visit fuel item) ext tt ;;
   fun typemap => OK typemap typemap) empty_typemap.

(* ===================================================================== *)
(** * Scenarios *)
(* ===================================================================== *)

Module Scenario.

Definition prim (names : list string) : DeclType :=
  inl (TypeDecl None (IdentifierType names)).
Definition lit (value : string) : option Expression :=
  Some (Constant "int" value).

(** [struct A { int a; char b; int c; };] *)
Definition struct_A : StructUnion :=
  MkSU false 1 (Some "A")
       (Some [Decl (Some "a") (prim ["int"]) None;
              Decl (Some "b") (prim ["char"]) None;
              Decl (Some "c") (prim ["int"]) None]).

(** [union U { int i; char c[7]; };] *)
Definition union_U : StructUnion :=
  MkSU true 2 (Some "U")
       (Some [Decl (Some "i") (prim ["int"]) None;
              Decl (Some "c")
                   (inl (ArrayDecl (TypeDecl None (IdentifierType ["char"]))
                                   (lit "7"))) None]).

(** [struct B { unsigned x : 3; unsigned y : 5; unsigned z : 20; };] *)
Definition struct_B : StructUnion :=
  MkSU false 3 (Some "B")
       (Some [Decl (Some "x") (prim ["unsigned"]) (lit "3");
              Decl (Some "y") (prim ["unsigned"]) (lit "5");
              Decl (Some "z") (prim ["unsigned"]) (lit "20")]).

(** [struct B2 { unsigned a : 4; unsigned : 0; unsigned b : 4; };] *)
Definition struct_B2 : StructUnion :=
  MkSU false 4 (Some "B2")
       (Some [Decl (Some "a") (prim ["unsigned"]) (lit "4");
              Decl None (prim ["unsigned"]) (lit "0");
              Decl (Some "b") (prim ["unsigned"]) (lit "4")]).

(** [struct Outer { int k; struct { int x; int y; }; };] *)
Definition struct_Outer : StructUnion :=
  MkSU false 5 (Some "Outer")
       (Some [Decl (Some "k") (prim ["int"]) None;
              Decl None
                   (inr (SU (MkSU false 6 None
                                  (Some [Decl (Some "x") (prim ["int"]) None;
                                         Decl (Some "y") (prim ["int"]) None]))))
                   None]).

(** [struct Wrap { struct A a; char t; };] *)
Definition struct_Wrap : StructUnion :=
  MkSU false 7 (Some "Wrap")
       (Some [Decl (Some "a") (inl (TypeDecl None (SU struct_A))) None;
              Decl (Some "t") (prim ["char"]) None]).

(** [struct F { int n; int data[]; };]: an array member without a size *)
Definition struct_F : StructUnion :=
  MkSU false 8 (Some "F")
       (Some [Decl (Some "n") (prim ["int"]) None;
              Decl (Some "data")
                   (inl (ArrayDecl (TypeDecl None (IdentifierType ["int"]))
                                   None)) None]).

(** [struct M { unsigned x : 3; int a; };] *)
Definition struct_M : StructUnion :=
  MkSU false 9 (Some "M")
       (Some [Decl (Some "x") (prim ["unsigned"]) (lit "3");
              Decl (Some "a") (prim ["int"]) None]).

Definition size_align {A} (r : Res A) (f : A -> Z * Z) : option (Z * Z) :=
  match r with
  | OK a _ => Some (f a)
  | _ => None
  end.

Definition layout_of (s : StructUnion) : option (Z * Z) :=
  size_align (do_parse_struct 8 s empty_typemap)
             (fun S => (size S, align S)).

End Scenario.

(* ===================================================================== *)
(** * Notions the properties are stated with *)
(* ===================================================================== *)

Definition void_type (declname : option string) : Type_ :=
  TypeDecl declname (IdentifierType ["void"]).

Definition return_type (type : Type_) : option Type_ :=
  if is_void type then None else Some type.

(** A character or string literal of C, after its opening quote [q]:
    escape pairs and characters other than the backslash and the quote, up
    to the closing quote. *)
Inductive quoted (q : ascii) : list ascii -> Prop :=
| quoted_end : quoted q [q]
| quoted_escape c b : quoted q b -> quoted q (Re.backslash :: c :: b)
| quoted_char c b :
    c <> Re.backslash -> c <> q -> quoted q b -> quoted q (c :: b).

Definition literal (l : list ascii) : Prop :=
  exists q b, (q = Re.squote \/ q = Re.dquote) /\ l = q :: b /\ quoted q b.

(** [scans_to text out s]: the search of [re.sub], started on [text],
    comes to look for a match at the suffix [s] of [text], and has put
    out [out] by then. *)
Inductive scans_to : list ascii -> list ascii -> list ascii -> Prop :=
| scans_here text : scans_to text [] text
| scans_match text m rest out s :
    Re.match_here text = Some (m, rest) -> scans_to rest out s ->
    scans_to text (Re.replacer m ++ out) s
| scans_char c text out s :
    Re.match_here (c :: text) = None -> scans_to text out s ->
    scans_to (c :: text) (c :: out) s.

(** The text contains the closer [*/] of a block comment. *)
Fixpoint has_close (s : list ascii) : bool :=
  match s with
  | c :: s' =>
      match s' with
      | d :: _ => (Ascii.eqb c Re.star && Ascii.eqb d Re.slash) || has_close s'
      | [] => false
      end
  | [] => false
  end.

(** [s = "a//b/*c*/"; // d], a line feed, [/* e], a line feed, [*/ f] *)
Definition commented_text : list ascii :=
  list_ascii_of_string "s = " ++ [Re.dquote]
  ++ list_ascii_of_string "a//b/*c*/" ++ [Re.dquote]
  ++ list_ascii_of_string "; // d" ++ [Re.LF]
  ++ list_ascii_of_string "/* e" ++ [Re.LF] ++ list_ascii_of_string "*/ f".

(** The typedefs of a type map have no cycle: in some ranking of the
    names, a typedef whose type is a name stands above that name. *)
Definition typedefs_ranked (rank : string -> nat) (tm : TypeMap) : Prop :=
  forall n d m,
    typedefs tm !! n = Some (TypeDecl d (IdentifierType [m])) ->
    (rank m < rank n)%nat.

(** The offset at which the loop of [do_parse_struct] leaves a struct in
    the state [st]: one byte further when a run of bitfields is open. *)
Definition final_offset (st : Layout) : Z :=
  if l_bit_offset st =? 0 then l_offset st else l_offset st + 1.

(** Alignments are powers of two. *)
Definition pow2 (a : Z) : Prop := exists k, 0 <= k /\ a = 2 ^ k.

(** The layouts cached in a type map, all with such an alignment: what the
    engine keeps true of the map it fills, starting from the empty one. *)
Definition typemap_ok (tm : TypeMap) : Prop :=
  (forall n S, named_structs tm !! n = Some S -> pow2 (align S))
  /\ (forall i S, anon_structs tm !! i = Some S -> pow2 (align S)).

(** The size of the member that a declaration in a struct or union
    declares, as the engine sizes it; [None] when the declaration declares
    no member (a zero-width bitfield, the declaration of a tag, an item
    that is not a declaration). *)
Definition member_size (fuel : nat) (struct_name : option string)
           (decl : Node) : M (option Z) :=
  match decl with
  | Decl decl_name type bitsize =>
      let field_name :=
        Py.str_opt struct_name +:+ "." +:+ Py.str_opt decl_name in
      match bitsize, decl_name, type with
      | Some bits, _, _ =>
          width <- lift (parse_constant_int bits) ;;
          member <- parse_struct_member fuel type field_name ;;
          ret (if width =? 0 then None else Some (fst (fst member)))
      | None, Some _, _ =>
          member <- parse_struct_member fuel type field_name ;;
          ret (Some (fst (fst member)))
      | None, None, inr (SU su) =>
          match decls su with
          | Some _ =>
              substr <- parse_struct fuel su ;;
              ret (match name su with
                   | Some _ => None
                   | None => Some (size substr)
                   end)
          | None => ret None
          end
      | None, None, _ => ret None
      end
  | _ => ret None
  end.

Fixpoint member_sizes (fuel : nat) (struct_name : option string)
         (ds : list Node) : M (list Z) :=
  match ds with
  | [] => ret []
  | d :: rest =>
      sz <- member_size fuel struct_name d ;;
      szs <- member_sizes fuel struct_name rest ;;
      ret (match sz with Some z => z :: szs | None => szs end)
  end.

(** The running maximum, from 0. *)
Definition max_size (sizes : list Z) : Z := fold_left Z.max sizes 0.

(** The loop of [do_parse_struct] on [struct], run over the declarations
    [ds] from the initial state: with a prefix of [struct.decls] this is
    the state in which the loop comes to the next declaration. *)
Definition layout_prefix (fuel : nat) (struct : StructUnion) (ds : list Node)
  : M Layout :=
  for_each (layout_decl (parse_struct fuel) (parse_struct_member fuel)
                        (is_union struct) (name struct))
           ds initial_layout.

(** The offset a member of alignment [salign] gets in the state [st]. *)
Definition member_offset (is_union : bool) (st : Layout) (salign : Z) : Z :=
  Z.land (l_offset (flush_bits is_union st) + salign - 1) (- salign).

(** The field [f] of a field table can come from the declaration [decl]:
    a named member that is not a bitfield gives its own name and dotted
    names under it, an anonymous struct or union gives its fields. *)
Definition field_from (decl : Node) (f : StructField) : Prop :=
  match decl with
  | Decl (Some m) _ None =>
      sf_name f = m \/ exists x, sf_name f = m +:+ "." +:+ x
  | Decl None (inr (SU su)) None => name su = None /\ decls su <> None
  | _ => False
  end.

(** The assignments [ret.var_types[name] = type] that the visitor makes
    on a type and on a node, in the order in which it makes them. *)
Fixpoint Type_bindings (node : Type_) : list (string * DeclType) :=
  match node with
  | PtrDecl type => Type_bindings type
  | ArrayDecl type _ => Type_bindings type
  | TypeDecl _ _ => []
  | FuncDecl args type =>
      match args with
      | Some params => flat_map Node_bindings params
      | None => []
      end ++ Type_bindings type
  end

with Node_bindings (node : Node) : list (string * DeclType) :=
  match node with
  | Decl name type _ =>
      match name with
      | Some name => [(name, type)]
      | None => []
      end ++
      match type with
      | inl (FuncDecl _ _) => []
      | inl type => Type_bindings type
      | inr _ => []
      end
  | FuncDef (Decl (Some name) type _) => [(name, type)]
  | FuncDef _ => []
  | Typedef _ type => Type_bindings type
  | Typename type => Type_bindings type
  | EllipsisParam | IDNode _ | Pragma _ => []
  end.

(** Dictionary assignments, one after the other. *)
Definition assign_all (bindings : list (string * DeclType))
           (m : gmap string DeclType) : gmap string DeclType :=
  fold_left (fun m b => <[fst b := snd b]> m) bindings m.

(** A top-level item that declares the name [n] with the type [type]: a
    declaration, or a function definition through its declaration. *)
Definition declares (item : Node) (n : string) (type : DeclType) : Prop :=
  (exists bitsize, item = Decl (Some n) type bitsize)
  \/ (exists bitsize, item = FuncDef (Decl (Some n) type bitsize)).

(** A top-level item that declares or defines the function [n]. *)
Definition declares_function (item : Node) (n : string) : Prop :=
  (exists args type bitsize,
      item = Decl (Some n) (inl (FuncDecl args type)) bitsize)
  \/ (exists type bitsize, item = FuncDef (Decl (Some n) type bitsize)).

(** The visit of the parameters of a [FuncDecl], one after the other. *)
Definition visit_params (fuel : nat) : list Node -> M unit :=
  fix visit_all (l : list Node) : M unit :=
    match l with
    | [] => ret tt
    | n :: rest => _ <- Visitor.visit fuel n ;; visit_all rest
    end.

(** A computation that makes the assignments [bindings] to [var_types],
    and leaves [functions] as it is. *)
Definition visits_as {A} (bindings : list (string * DeclType)) (c : M A)
  : Prop :=
  forall tm r tm',
    c tm = OK r tm' ->
    var_types tm' = assign_all bindings (var_types tm)
    /\ functions tm' = functions tm.

Module Redeclared.

Definition int : Type_ := TypeDecl (Some "a") (IdentifierType ["int"]).

(** [extern int a[]; int a[3];] *)
Definition ext : list Node :=
  [Decl (Some "a") (inl (ArrayDecl int None)) None;
   Decl (Some "a") (inl (ArrayDecl int (Some (Constant "int" "3")))) None].

(** [int f(int);] *)
Definition prototype : Node :=
  Decl (Some "f")
       (inl (FuncDecl
               (Some [Typename (TypeDecl None (IdentifierType ["int"]))])
               (TypeDecl (Some "f") (IdentifierType ["int"]))))
       None.

End Redeclared.

(** Induction over what the visitor walks through. *)
Section VisitInd.

Variables (P : Type_ -> Prop) (Q : Node -> Prop).

Hypothesis HPtr : forall t, P t -> P (PtrDecl t).
Hypothesis HArray : forall t d, P t -> P (ArrayDecl t d).
Hypothesis HTypeDecl : forall d i, P (TypeDecl d i).
Hypothesis HFunc :
  forall args t,
    Forall Q (match args with Some ps => ps | None => [] end) ->
    P t -> P (FuncDecl args t).
Hypothesis HDecl :
  forall n ty b,
    match ty with inl t => P t | inr _ => True end -> Q (Decl n ty b).
Hypothesis HTypedef : forall n t, P t -> Q (Typedef n t).
Hypothesis HFuncDef : forall d, Q (FuncDef d).
Hypothesis HTypename : forall t, P t -> Q (Typename t).
Hypothesis HEllipsis : Q EllipsisParam.
Hypothesis HID : forall n, Q (IDNode n).
Hypothesis HPragma : forall s, Q (Pragma s).

Fixpoint Type_visit_ind (t : Type_) : P t :=
  match t with
  | PtrDecl t' => HPtr t' (Type_visit_ind t')
  | ArrayDecl t' d => HArray t' d (Type_visit_ind t')
  | TypeDecl d i => HTypeDecl d i
  | FuncDecl args t' =>
      HFunc args t'
        (match args as a
               return Forall Q (match a with Some ps => ps | None => [] end)
         with
         | Some ps =>
             (fix go (l : list Node) : Forall Q l :=
                match l with
                | [] => @List.Forall_nil _ Q
                | n :: l' =>
                    @List.Forall_cons _ Q n l' (Node_visit_ind n) (go l')
                end) ps
         | None => @List.Forall_nil _ Q
         end)
        (Type_visit_ind t')
  end

with Node_visit_ind (n : Node) : Q n :=
  match n with
  | Decl nm ty b =>
      HDecl nm ty b
        (match ty as s return match s with inl t => P t | inr _ => True end
         with
         | inl t => Type_visit_ind t
         | inr _ => I
         end)
  | Typedef nm t => HTypedef nm t (Type_visit_ind t)
  | FuncDef d => HFuncDef d
  | Typename t => HTypename t (Type_visit_ind t)
  | EllipsisParam => HEllipsis
  | IDNode nm => HID nm
  | Pragma s => HPragma s
  end.

End VisitInd.

(** What the visitor is shown to do on a type and on a node. *)
Definition Type_visited (fuel : nat) (t : Type_) : Prop :=
  visits_as (Type_bindings t) (Visitor.visit_Type fuel t).
Definition Node_visited (fuel : nat) (n : Node) : Prop :=
  visits_as (Node_bindings n) (Visitor.visit fuel n).


(* ===================================================================== *)
(** * The rest of the module *)
(* ===================================================================== *)

(** [function_arg_size_align] only reads the type map. *)
Definition function_arg_size_align (fuel : nat) (type : Type_)
           (typemap : TypeMap) : option (result (Z * Z)) :=
  match resolve_typedefs fuel type typemap with
  | None => None
  | Some (PtrDecl _) | Some (ArrayDecl _ _) => Some (Ok (4, 4))
  | Some (FuncDecl _ _) => Some (Err AssertionError)
  | Some (TypeDecl _ (SU inner_type)) =>
      Some match name inner_type with
           | None => Err AssertionError
           | Some n =>
               match named_structs typemap !! n with
               | None => Err AssertionError
               | Some struct => Ok (size struct, align struct)
               end
           end
  | Some (TypeDecl _ inner_type) =>
      Some match primitive_size inner_type with
           | Ok psize => Ok (psize, psize)
           | Err e => Err e
           end
  end.

Definition var_size_align (fuel : nat) (type : Type_) : M (Z * Z) :=
  member <- parse_struct_member fuel (inl type) "" ;;
  let '(msize, malign, _) := member in
  ret (msize, malign).

Definition is_struct_type (fuel : nat) (type : Type_) (typemap : TypeMap)
  : option bool :=
  match resolve_typedefs fuel type typemap with
  | None => None
  | Some (TypeDecl _ (SU _)) => Some true
  | Some _ => Some false
  end.

Definition get_primitive_list (fuel : nat) (type : Type_) (typemap : TypeMap)
  : option (option (list string)) :=
  match resolve_typedefs fuel type typemap with
  | None => None
  | Some (TypeDecl _ (Enum _)) => Some (Some ["int"])
  | Some (TypeDecl _ (IdentifierType names)) => Some (Some names)
  | Some _ => Some None
  end.

(** [sep.join(l)] *)
Fixpoint join (sep : string) (l : list string) : string :=
  match l with
  | [] => ""
  | [s] => s
  | s :: rest => s +:+ sep +:+ join sep rest
  end.

(** The dictionary [typedefs] of [add_builtin_typedefs], in its order. *)
Definition builtin_typedefs : list (string * string) :=
  [("u8", "unsigned char"); ("s8", "char");
   ("u16", "unsigned short"); ("s16", "short");
   ("u32", "unsigned int"); ("s32", "int");
   ("u64", "unsigned long long"); ("s64", "long long");
   ("f32", "float"); ("f64", "double")].

Definition builtin_typedefs_line : string :=
  join " " (map (fun kv => "typedef " +:+ snd kv +:+ " " +:+ fst kv +:+ ";")
                builtin_typedefs).

(** [add_builtin_typedefs]; the source is the list of its characters. *)
Definition add_builtin_typedefs (source : list ascii) : list ascii :=
  list_ascii_of_string builtin_typedefs_line ++ Re.LF :: source.

(** [set_decl_name] on a [Decl] of name [name] and type [type]: the type
    with the [declname] of its innermost [TypeDecl] set. *)
Fixpoint set_decl_name (name : option string) (type : Type_) : Type_ :=
  match type with
  | PtrDecl t => PtrDecl (set_decl_name name t)
  | ArrayDecl t dim => ArrayDecl (set_decl_name name t) dim
  | FuncDecl args t => FuncDecl args (set_decl_name name t)
  | TypeDecl _ inner => TypeDecl name inner
  end.

(** ** Notions for the properties of the rest *)

(** A typedef name: what [resolve_typedefs] goes on from. *)
Definition is_typedef_name (type : Type_) (typemap : TypeMap) : Prop :=
  exists d n, type = TypeDecl d (IdentifierType [n])
              /\ is_Some (typedefs typemap !! n).

(** What a parameter node adds to the list of parameters. *)
Definition param_of (arg : Node) : list Param :=
  match arg with
  | Decl name type _ => [mkParam type name]
  | Typename type => if is_void type then [] else [mkParam (inl type) None]
  | _ => []
  end.

Definition is_ellipsis (arg : Node) : bool :=
  match arg with EllipsisParam => true | _ => false end.

Definition is_void_param (arg : Node) : bool :=
  match arg with Typename type => is_void type | _ => false end.

(** The parameter nodes of a prototype: declarations, type names and the
    ellipsis. *)
Definition is_prototype_param (arg : Node) : bool :=
  match arg with
  | Decl _ _ _ | Typename _ | EllipsisParam => true
  | _ => false
  end.

Module Sample.

Definition int : Type_ := TypeDecl None (IdentifierType ["int"]).
Definition named (n : string) : Type_ := TypeDecl None (IdentifierType [n]).

(** [typedef int T; typedef T U; typedef int A3[3]; typedef int F(int);] *)
Definition typedefs_TU : TypeMap :=
  set_typedefs
    (fun _ => <["T" := int]>
                (<["U" := named "T"]>
                   (<["A3" := ArrayDecl int (Some (Constant "int" "3"))]>
                      (<["F" := FuncDecl (Some [Typename int]) int]> ∅))))
    empty_typemap.

End Sample.

(** The characters of integer suffixes. *)
Definition is_suffix_char (c : ascii) : bool := Py.mem c (Py.chars "lLuU").

(** The expression has a shift somewhere. *)
Fixpoint has_shift (e : Expression) : bool :=
  match e with
  | BinaryOp op e1 e2 =>
      String.eqb op "<<" || String.eqb op ">>" || has_shift e1 || has_shift e2
  | _ => false
  end.

(** [str(n)] for a natural number [n]: its decimal numeral. *)
Definition decimal (n : nat) : string :=
  DecimalString.NilEmpty.string_of_uint (Nat.to_uint n).

(** The type map a computation ends with, when it ends. *)
Definition final_typemap {A} (r : Res A) : option TypeMap :=
  match r with
  | OK _ tm | Raise _ tm => Some tm
  | OutOfFuel => None
  end.

(** A computation that keeps a property of the type map, whether it
    returns or raises. *)
Definition keeps {A} (Q : TypeMap -> Prop) (c : M A) : Prop :=
  forall tm t, Q tm -> final_typemap (c tm) = Some t -> Q t.

(** [t] has everything of [tm] but, maybe, more cached layouts. *)
Definition extends_layouts (tm t : TypeMap) : Prop :=
  typedefs t = typedefs tm
  /\ var_types t = var_types tm
  /\ functions t = functions tm
  /\ (forall n, is_Some (named_structs tm !! n) ->
                is_Some (named_structs t !! n))
  /\ (forall i, is_Some (anon_structs tm !! i) ->
                is_Some (anon_structs t !! i)).

(** A computation that keeps a property of the type map when it
    returns. *)
Definition keeps_ok {A} (Q : TypeMap -> Prop) (c : M A) : Prop :=
  forall tm a t, Q tm -> c tm = OK a t -> Q t.

(** A character at which the pattern of [strip_comments] cannot start to
    match. *)
Definition is_plain_char (c : ascii) : bool :=
  negb (Ascii.eqb c Re.slash || Ascii.eqb c Re.squote || Ascii.eqb c Re.dquote).

Definition is_not_slash (c : ascii) : bool := negb (Ascii.eqb c Re.slash).
(* ===================================================================== *)
(** * Properties *)
(* ===================================================================== *)

(** ** The scenarios of the specification *)

Example S1 : Scenario.layout_of Scenario.struct_A = Some (12, 4).
Proof. vm_compute. reflexivity. Qed.
Example S2 : Scenario.layout_of Scenario.union_U = Some (7, 4).
Proof. vm_compute. reflexivity. Qed.
Example S3 : Scenario.layout_of Scenario.struct_B = Some (4, 4).
Proof. vm_compute. reflexivity. Qed.
Example S5 : Scenario.layout_of Scenario.struct_Outer = Some (12, 4).
Proof. vm_compute. reflexivity. Qed.
Example S6 : Scenario.layout_of Scenario.struct_Wrap = Some (16, 4).
Proof. vm_compute. reflexivity. Qed.

Example int_dec : parse_constant_int (Constant "int" "42") = Ok 42.
Proof. reflexivity. Qed.
Example int_hex : parse_constant_int (Constant "int" "0x1FuL") = Ok 31.
Proof. reflexivity. Qed.
Example int_zero : parse_constant_int (Constant "int" "00") = Ok 0.
Proof. reflexivity. Qed.

(** ** Unfolding equations *)

Lemma parse_struct_eq fuel struct typemap :
  parse_struct (S fuel) struct typemap =
  match get_struct struct typemap with
  | Some existing => OK existing typemap
  | None =>
      match decls struct with
      | None => Raise (DecompFailure (Used_before_defined (name struct))) typemap
      | Some _ =>
          match do_parse_struct fuel struct typemap with
          | OK ret tm' => OK ret (store_struct struct ret tm')
          | Raise e tm' => Raise e tm'
          | OutOfFuel => OutOfFuel
          end
      end
  end.
Proof. reflexivity. Qed.

Lemma do_parse_struct_eq fuel struct :
  do_parse_struct (S fuel) struct =
  match decls struct with
  | None | Some [] => raise AssertionError
  | Some ds =>
      st <- for_each
              (layout_decl (parse_struct fuel) (parse_struct_member fuel)
                           (is_union struct) (name struct))
              ds initial_layout ;;
      ret (finish_layout (is_union struct) st)
  end.
Proof. reflexivity. Qed.

Lemma parse_struct_member_eq fuel type field_name typemap :
  parse_struct_member (S fuel) (inl type) field_name typemap =
  match resolve_typedefs (S fuel) type typemap with
  | None => OutOfFuel
  | Some (PtrDecl _) => OK (4, 4, None) typemap
  | Some (ArrayDecl elt None) =>
      Raise (DecompFailure (Array_must_have_size field_name)) typemap
  | Some (ArrayDecl elt (Some dim)) =>
      (dim <- lift (parse_constant_int dim) ;;
       elem <- parse_struct_member fuel (inl elt) field_name ;;
       let '(esize, ealign, _) := elem in
       ret (esize * dim, ealign, None)) typemap
  | Some (FuncDecl _ _) => Raise AssertionError typemap
  | Some (TypeDecl _ (SU inner_type)) =>
      (substr <- parse_struct fuel inner_type ;;
       ret (size substr, align substr, Some substr)) typemap
  | Some (TypeDecl _ inner_type) =>
      (psize <- lift (primitive_size inner_type) ;;
       ret (psize, psize, None)) typemap
  end.
Proof. reflexivity. Qed.

Lemma parse_struct_member_bare fuel inner field_name typemap :
  parse_struct_member (S fuel) (inr inner) field_name typemap
  = Raise AttributeError typemap.
Proof. reflexivity. Qed.

#[global] Arguments parse_struct : simpl never.
#[global] Arguments parse_struct_member : simpl never.
#[global] Arguments do_parse_struct : simpl never.

(** Running a computation that is a [bind]. *)
Lemma bind_OK {A B} (c : M A) (k : A -> M B) tm a tm' :
  c tm = OK a tm' -> bind c k tm = k a tm'.
Proof. unfold bind. intros ->. reflexivity. Qed.

Lemma bind_Raise {A B} (c : M A) (k : A -> M B) tm e tm' :
  c tm = Raise e tm' -> bind c k tm = Raise e tm'.
Proof. unfold bind. intros ->. reflexivity. Qed.

Lemma bind_inv_OK {A B} (c : M A) (k : A -> M B) tm b tm2 :
  bind c k tm = OK b tm2 ->
  exists a tm1, c tm = OK a tm1 /\ k a tm1 = OK b tm2.
Proof.
  unfold bind. destruct (c tm) as [a tm1| |]; try discriminate. eauto.
Qed.

Lemma for_each_cons {A S} (body : S -> A -> M S) x rest st :
  for_each body (x :: rest) st = (st' <- body st x ;; for_each body rest st').
Proof. reflexivity. Qed.

(** A primitive type name that is not a typedef is sized at once. *)
Lemma parse_struct_member_prim fuel d names field_name tm sz :
  (forall n, names = [n] -> typedefs tm !! n = None) ->
  primitive_size (IdentifierType names) = Ok sz ->
  parse_struct_member (S fuel) (inl (TypeDecl d (IdentifierType names)))
                      field_name tm
  = OK (sz, sz, None) tm.
Proof.
  intros H Hsz. rewrite parse_struct_member_eq.
  assert (R : resolve_typedefs (S fuel) (TypeDecl d (IdentifierType names)) tm
              = Some (TypeDecl d (IdentifierType names))).
  { simpl. destruct names as [|n [|? ?]]; try reflexivity.
    rewrite (H n eq_refl). reflexivity. }
  rewrite R. unfold bind, lift. rewrite Hsz. reflexivity.
Qed.

(** ** Zero-width bitfields (C1) *)

(** The run of the loop on [B2]: [a] takes the first four bits of byte 0,
    the zero-width bitfield changes nothing, [b] takes the other four
    bits, and one byte is rounded up to the alignment 4. *)
Lemma B2_layout :
  forall (fuel : nat) (tm : TypeMap),
    typedefs tm !! "unsigned" = None ->
    do_parse_struct (S (S fuel)) Scenario.struct_B2 tm
    = OK (mkStruct [] 4 4) tm.
Proof.
  intros fuel tm H.
  assert (PM : forall d fn,
             parse_struct_member (S fuel)
               (inl (TypeDecl d (IdentifierType ["unsigned"]))) fn tm
             = OK (4, 4, None) tm).
  { intros d fn. apply parse_struct_member_prim; [|reflexivity].
    intros n [= <-]. exact H. }
  rewrite do_parse_struct_eq.
  cbn [Scenario.struct_B2 decls is_union name].
  erewrite bind_OK; cycle 1.
  { rewrite for_each_cons. erewrite bind_OK; cycle 1.
    { unfold layout_decl, Scenario.lit, Scenario.prim, layout_bitfield.
      erewrite bind_OK by reflexivity. erewrite bind_OK by apply PM.
      reflexivity. }
    rewrite for_each_cons. erewrite bind_OK; cycle 1.
    { unfold layout_decl, Scenario.lit, Scenario.prim, layout_bitfield.
      erewrite bind_OK by reflexivity. erewrite bind_OK by apply PM.
      reflexivity. }
    rewrite for_each_cons. erewrite bind_OK; cycle 1.
    { unfold layout_decl, Scenario.lit, Scenario.prim, layout_bitfield.
      erewrite bind_OK by reflexivity. erewrite bind_OK by apply PM.
      reflexivity. }
    reflexivity. }
  reflexivity.
Qed.

(** C1, as the code has it: for [struct B2 { unsigned a : 4; unsigned : 0;
    unsigned b : 4; };] the layout engine returns size 4 and align 4 and an
    empty field table; the zero-width bitfield only contributes its type's
    alignment, and [b] is packed after [a] in the same 4-byte unit. *)
Theorem B2_layout_size_4 :
  forall (fuel : nat) (tm : TypeMap),
    typedefs tm !! "unsigned" = None ->
    exists layout,
      do_parse_struct (S (S fuel)) Scenario.struct_B2 tm = OK layout tm
      /\ size layout = 4 /\ align layout = 4 /\ fields layout = [].
Proof.
  intros fuel tm H. exists (mkStruct [] 4 4).
  split; [apply B2_layout; exact H | repeat split].
Qed.

Lemma B2_layout_size_4_witness :
  typedefs empty_typemap !! "unsigned" = None /\
  exists layout,
    do_parse_struct 2 Scenario.struct_B2 empty_typemap = OK layout empty_typemap
    /\ size layout = 4 /\ align layout = 4 /\ fields layout = [].
Proof.
  split; [reflexivity | apply (B2_layout_size_4 0 empty_typemap); reflexivity].
Defined.

(** C1 as stated fails: the engine does not return size 8 for [B2]. *)
Lemma B2_layout_not_size_8 :
  ~ exists fuel S tm,
      do_parse_struct fuel Scenario.struct_B2 empty_typemap = OK S tm
      /\ size S = 8 /\ align S = 4.
Proof.
  intros (fuel & S & tm & H & Hs & _).
  destruct fuel as [|[|fuel]]; [discriminate H | discriminate H |].
  rewrite B2_layout in H by reflexivity.
  injection H as <- _. discriminate Hs.
Qed.

(** ** Integer literals (C2) *)

Example hex_literal : parse_constant_int (Constant "int" "0x10") = Ok 16.
Proof. reflexivity. Qed.
Example decimal_literal_suffix :
  parse_constant_int (Constant "int" "10UL") = Ok 10.
Proof. reflexivity. Qed.
Example python_octal_literal :
  parse_constant_int (Constant "int" "0o10") = Ok 8.
Proof. reflexivity. Qed.

(** In a text that is not ASCII the no-break space counts as white space,
    but the separators U+001C..U+001F stay as they are and are refused. *)
Example int0_no_break_space :
  Py.int0 [" "; "1"; "2"; ascii_of_nat 160]%char = Some 12.
Proof. reflexivity. Qed.
Example int0_low_separator :
  Py.int0 [ascii_of_nat 28; "1"; "2"; ascii_of_nat 160]%char = None.
Proof. reflexivity. Qed.

(** C2 at the C octal literal [010]: [int("010", 0)] raises [ValueError],
    so [parse_constant_int] raises [DecompFailure] instead of returning
    8. *)
Theorem octal_literal_refused :
  parse_constant_int (Constant "int" "010")
  = Err (DecompFailure (Failed_int_literal (Constant "int" "010"))).
Proof. reflexivity. Qed.

(** ** Parameter lists (C3) *)

(** C3: [f()] gives [params = None]; [f(void)] gives [params = []] and
    [is_variadic = false]; [f(t)] for a type [t] other than [void] gives
    the one-element list; [f(t, ...)] gives that list with
    [is_variadic = true]. *)
Theorem parse_function_param_lists :
  forall (ret t : Type_) (d : option string),
    is_void t = false ->
    parse_function (FuncDecl None ret)
    = Ok (mkFunction (return_type ret) None false)
    /\ parse_function (FuncDecl (Some [Typename (void_type d)]) ret)
       = Ok (mkFunction (return_type ret) (Some []) false)
    /\ parse_function (FuncDecl (Some [Typename t]) ret)
       = Ok (mkFunction (return_type ret) (Some [mkParam (inl t) None]) false)
    /\ parse_function (FuncDecl (Some [Typename t; EllipsisParam]) ret)
       = Ok (mkFunction (return_type ret) (Some [mkParam (inl t) None]) true).
Proof.
  intros ret t d Ht. unfold parse_function, return_type; simpl.
  rewrite Ht. simpl. repeat split; reflexivity.
Qed.

Lemma parse_function_param_lists_witness :
  let int := TypeDecl None (IdentifierType ["int"]) in
  is_void int = false
  /\ parse_function (FuncDecl None int) = Ok (mkFunction (Some int) None false)
  /\ parse_function (FuncDecl (Some [Typename (void_type None)]) int)
     = Ok (mkFunction (Some int) (Some []) false)
  /\ parse_function (FuncDecl (Some [Typename int]) int)
     = Ok (mkFunction (Some int) (Some [mkParam (inl int) None]) false)
  /\ parse_function (FuncDecl (Some [Typename int; EllipsisParam]) int)
     = Ok (mkFunction (Some int) (Some [mkParam (inl int) None]) true).
Proof.
  split; [reflexivity|].
  apply (parse_function_param_lists
           (TypeDecl None (IdentifierType ["int"]))
           (TypeDecl None (IdentifierType ["int"])) None).
  reflexivity.
Defined.

(** The scenarios F1, F2, F3 of the specification. *)
Example F1 :
  let int := TypeDecl None (IdentifierType ["int"]) in
  parse_function (FuncDecl (Some [Decl (Some "x") (inl int) None; EllipsisParam])
                           int)
  = Ok (mkFunction (Some int) (Some [mkParam (inl int) (Some "x")]) true).
Proof. reflexivity. Qed.
Example F2 :
  parse_function (FuncDecl (Some [Typename (void_type None)]) (void_type (Some "g")))
  = Ok (mkFunction None (Some []) false).
Proof. reflexivity. Qed.
Example F3 :
  let double := TypeDecl (Some "h") (IdentifierType ["double"]) in
  parse_function (FuncDecl None double) = Ok (mkFunction (Some double) None false).
Proof. reflexivity. Qed.

(** ** Pointer decay (C6) *)

Lemma resolve_typedefs_fuel fuel t tm r :
  resolve_typedefs fuel t tm = Some r -> exists fuel', fuel = S fuel'.
Proof. destruct fuel; [discriminate | eauto]. Qed.

(** More fuel does not change a result. *)
Lemma resolve_typedefs_mono fuel :
  forall fuel' t tm r,
    (fuel <= fuel')%nat ->
    resolve_typedefs fuel t tm = Some r ->
    resolve_typedefs fuel' t tm = Some r.
Proof.
  induction fuel as [|fuel IH]; intros fuel' t tm r Hle H; [discriminate|].
  destruct fuel' as [|fuel']; [lia|].
  simpl in *.
  destruct t as [| |d [[|n [|? ?]]| |]|]; try exact H.
  destruct (typedefs tm !! n); [|exact H].
  apply IH; [lia | exact H].
Qed.

(** Only a [TypeDecl] is looked up: other shapes resolve to themselves. *)
Lemma resolve_typedefs_not_TypeDecl fuel t tm :
  (forall d i, t <> TypeDecl d i) ->
  resolve_typedefs (S fuel) t tm = Some t.
Proof.
  intros H. destruct t; try reflexivity. exfalso. eapply H. reflexivity.
Qed.

(** With typedefs that have no cycle the loop of [resolve_typedefs] ends:
    the rank of the name bounds the number of its turns. *)
Lemma resolve_typedefs_ranked rank tm :
  typedefs_ranked rank tm ->
  forall k n d,
    (rank n <= k)%nat ->
    exists r,
      resolve_typedefs (S (S k)) (TypeDecl d (IdentifierType [n])) tm = Some r.
Proof.
  intros Hrank. induction k as [|k IH]; intros n d Hk.
  - cbn [resolve_typedefs].
    destruct (typedefs tm !! n) as [ty|] eqn:E; [|eauto].
    destruct ty as [| |d' [[|m [|? ?]]| |]|]; eauto.
    destruct (typedefs tm !! m) eqn:Em; [|eauto].
    apply Hrank in E. lia.
  - change (resolve_typedefs (S (S (S k))) (TypeDecl d (IdentifierType [n])) tm)
      with (match typedefs tm !! n with
            | Some ty => resolve_typedefs (S (S k)) ty tm
            | None => Some (TypeDecl d (IdentifierType [n]))
            end).
    destruct (typedefs tm !! n) as [ty|] eqn:E; [|eauto].
    destruct ty as [| |d' [[|m [|? ?]]| |]|]; eauto.
    apply IH. apply Hrank in E. lia.
Qed.

Lemma resolve_typedefs_total rank tm t :
  typedefs_ranked rank tm ->
  exists fuel0, forall fuel,
      (fuel0 <= fuel)%nat -> exists r, resolve_typedefs fuel t tm = Some r.
Proof.
  intros Hrank.
  assert (Hself : forall t', resolve_typedefs 1 t' tm = Some t' ->
            exists fuel0, forall fuel,
                (fuel0 <= fuel)%nat ->
                exists r, resolve_typedefs fuel t' tm = Some r).
  { intros t' H. exists 1%nat. intros fuel Hle. exists t'.
    eapply resolve_typedefs_mono; [exact Hle | exact H]. }
  destruct t as [| |d [[|n [|? ?]]| |]|]; try (apply Hself; reflexivity).
  destruct (resolve_typedefs_ranked rank tm Hrank (rank n) n d (le_n _))
    as [r Hr].
  exists (S (S (rank n))). intros fuel Hle. exists r.
  eapply resolve_typedefs_mono; [exact Hle | exact Hr].
Qed.

(** C6: when the name [int] is not a typedef (it is a keyword of C),
    whatever [pointer_decay] returns is a [SimpleType], and [pointer_decay]
    maps it to itself; and when the typedefs have no cycle, [pointer_decay]
    returns such a type for every type, once it has the fuel to follow the
    typedefs to their end. *)
Theorem pointer_decay_stable :
  forall (t : Type_) (tm : TypeMap),
    typedefs tm !! "int" = None ->
    (forall (fuel : nat) (r : result Type_),
        pointer_decay fuel t tm = Some r ->
        exists t' : Type_,
          r = Ok t'
          /\ is_SimpleType t' = true
          /\ pointer_decay fuel t' tm = Some (Ok t'))
    /\ (forall rank : string -> nat,
           typedefs_ranked rank tm ->
           exists fuel0 : nat,
           forall fuel : nat,
             (fuel0 <= fuel)%nat ->
             exists t' : Type_,
               pointer_decay fuel t tm = Some (Ok t')
               /\ is_SimpleType t' = true
               /\ pointer_decay fuel t' tm = Some (Ok t')).
Proof.
  intros t tm Hint.
  assert (Hstable : forall (fuel : nat) (r : result Type_),
             pointer_decay fuel t tm = Some r ->
             exists t' : Type_,
               r = Ok t'
               /\ is_SimpleType t' = true
               /\ pointer_decay fuel t' tm = Some (Ok t')).
  { intros fuel r H.
    unfold pointer_decay in H.
    destruct (resolve_typedefs fuel t tm) as [real|] eqn:E; [|discriminate].
    destruct (resolve_typedefs_fuel _ _ _ _ E) as [fuel' ->].
    injection H as <-.
    assert (Hptr : forall x, pointer_decay (S fuel') (PtrDecl x) tm
                             = Some (Ok (PtrDecl x))) by reflexivity.
    assert (Hsame : forall d i,
               t = TypeDecl d i ->
               match real with
               | ArrayDecl _ _ | FuncDecl _ _ | TypeDecl _ (Enum _) => False
               | _ => True
               end ->
               pointer_decay (S fuel') t tm = Some (Ok t)).
    { intros d i -> Hreal. unfold pointer_decay. rewrite E.
      destruct real as [| |? [| |]|]; try contradiction; reflexivity. }
    destruct real as [x|x dim|d [names|en|su]|args rt].
    - (* a pointer *)
      destruct t as [y| |d i|]; try (simpl in E; discriminate E).
      + exists (PtrDecl y). auto.
      + exists (TypeDecl d i). repeat split. eapply Hsame; [reflexivity | exact I].
    - (* an array *)
      exists (PtrDecl x). auto.
    - (* a type name *)
      destruct t as [y| |d' i|]; try (simpl in E; discriminate E).
      exists (TypeDecl d' i). repeat split. eapply Hsame; [reflexivity | exact I].
    - (* an enum *)
      exists (basic_type ["int"]). repeat split.
      unfold pointer_decay, basic_type. simpl. rewrite Hint. reflexivity.
    - (* a struct or union *)
      destruct t as [y| |d' i|]; try (simpl in E; discriminate E).
      exists (TypeDecl d' i). repeat split. eapply Hsame; [reflexivity | exact I].
    - (* a function *)
      exists (PtrDecl t). auto. }
  split; [exact Hstable|].
  intros rank Hrank.
  destruct (resolve_typedefs_total rank tm t Hrank) as [fuel0 Hfuel].
  exists fuel0. intros fuel Hle.
  destruct (Hfuel fuel Hle) as [real E].
  destruct (pointer_decay fuel t tm) as [r|] eqn:Ep.
  - destruct (Hstable fuel r Ep) as (t' & -> & Hs & Hd). eauto.
  - unfold pointer_decay in Ep. rewrite E in Ep. discriminate Ep.
Qed.

Lemma typedefs_TU_ranked :
  typedefs_ranked
    (fun n => if String.eqb n "U" then 2 else if String.eqb n "T" then 1 else 0)%nat
    Sample.typedefs_TU.
Proof.
  intros n d m H.
  unfold Sample.typedefs_TU in H. cbn [typedefs set_typedefs] in H.
  apply lookup_insert_Some in H as [[<- H]|[_ H]].
  { injection H as <- <-. vm_compute. lia. }
  apply lookup_insert_Some in H as [[<- H]|[_ H]].
  { injection H as <- <-. vm_compute. lia. }
  apply lookup_insert_Some in H as [[<- H]|[_ H]]; [discriminate H|].
  apply lookup_insert_Some in H as [[<- H]|[_ H]]; [discriminate H|].
  rewrite lookup_empty in H. discriminate H.
Defined.

Lemma pointer_decay_stable_witness :
  let rank := (fun n => if String.eqb n "U" then 2
                        else if String.eqb n "T" then 1 else 0)%nat in
  typedefs Sample.typedefs_TU !! "int" = None
  /\ typedefs_ranked rank Sample.typedefs_TU
  /\ pointer_decay 3 (Sample.named "U") Sample.typedefs_TU
     = Some (Ok (Sample.named "U"))
  /\ pointer_decay 2 (Sample.named "A3") Sample.typedefs_TU
     = Some (Ok (PtrDecl Sample.int))
  /\ (exists fuel0 : nat,
      forall fuel : nat,
        (fuel0 <= fuel)%nat ->
        exists t' : Type_,
          pointer_decay fuel (Sample.named "U") Sample.typedefs_TU
          = Some (Ok t')
          /\ is_SimpleType t' = true
          /\ pointer_decay fuel t' Sample.typedefs_TU = Some (Ok t')).
Proof.
  cbv zeta. split; [reflexivity|]. split; [exact typedefs_TU_ranked|].
  split; [reflexivity|]. split; [reflexivity|].
  exact (proj2 (pointer_decay_stable (Sample.named "U") Sample.typedefs_TU
                  eq_refl)
               _ typedefs_TU_ranked).
Defined.

(** ** Incomplete types (C8) *)

(** C8, as the code has it: on a node without [decls] and without a cached
    layout [parse_struct] raises [DecompFailure] and leaves the type map
    as it was; a cached layout is returned as it is; and whatever else
    [parse_struct] raises was raised by [do_parse_struct] on a node that
    has [decls]. *)
Theorem parse_struct_incomplete :
  forall (fuel : nat) (struct : StructUnion) (tm : TypeMap),
    (decls struct = None -> get_struct struct tm = None ->
     parse_struct (S fuel) struct tm
     = Raise (DecompFailure (Used_before_defined (name struct))) tm)
    /\ (forall existing, get_struct struct tm = Some existing ->
        parse_struct (S fuel) struct tm = OK existing tm)
    /\ (forall e tm',
        parse_struct (S fuel) struct tm = Raise e tm' ->
        get_struct struct tm = None
        /\ ((decls struct = None
             /\ e = DecompFailure (Used_before_defined (name struct))
             /\ tm' = tm)
            \/ (decls struct <> None
                /\ do_parse_struct fuel struct tm = Raise e tm'))).
Proof.
  intros fuel struct tm. rewrite parse_struct_eq. repeat split.
  - intros -> ->. reflexivity.
  - intros existing ->. reflexivity.
  - destruct (get_struct struct tm); [discriminate | reflexivity].
  - destruct (get_struct struct tm); [discriminate|].
    destruct (decls struct) as [ds|].
    + right. split; [discriminate|].
      destruct (do_parse_struct fuel struct tm); try discriminate.
      congruence.
    + left. injection H as <- <-. auto.
Qed.

Lemma parse_struct_incomplete_witness :
  let s := MkSU false 9 (Some "T") None in
  decls s = None /\ get_struct s empty_typemap = None
  /\ parse_struct 1 s empty_typemap
     = Raise (DecompFailure (Used_before_defined (Some "T"))) empty_typemap.
Proof.
  split; [reflexivity|]. split; [reflexivity|].
  apply (proj1 (parse_struct_incomplete 0 (MkSU false 9 (Some "T") None)
                                        empty_typemap)); reflexivity.
Defined.

(** C8 as stated fails: [struct F { int n; int data[]; };] has [decls] and
    [parse_struct] raises [DecompFailure] on it all the same. *)
Lemma parse_struct_raises_on_complete :
  decls Scenario.struct_F <> None
  /\ parse_struct 3 Scenario.struct_F empty_typemap
     = Raise (DecompFailure (Array_must_have_size "F.data")) empty_typemap.
Proof. split; [discriminate | vm_compute; reflexivity]. Qed.

(** ** Comment stripping (C7) *)

Module ReFacts.
Import Re.

Lemma count_LF_app s t : count_LF (s ++ t) = (count_LF s + count_LF t)%nat.
Proof. unfold count_LF. rewrite List.filter_app, length_app. reflexivity. Qed.

Lemma count_LF_cons c s :
  count_LF (c :: s) = ((if Ascii.eqb LF c then 1 else 0) + count_LF s)%nat.
Proof.
  unfold count_LF. cbn [List.filter].
  destruct (Ascii.eqb LF c); reflexivity.
Qed.

Lemma count_LF_repeat n : count_LF (repeat LF n) = n.
Proof.
  induction n as [|n IH]; [reflexivity|].
  cbn [repeat]. rewrite count_LF_cons, IH, Ascii.eqb_refl. reflexivity.
Qed.

(** The replacement has as many line feeds as the match. *)
Lemma replacer_count_LF m : count_LF (replacer m) = count_LF m.
Proof.
  unfold replacer. destruct m as [|c m]; [reflexivity|].
  destruct (Ascii.eqb c slash); [|reflexivity].
  rewrite count_LF_cons.
  change (Ascii.eqb LF " "%char) with false.
  apply count_LF_repeat.
Qed.

Lemma lazy_to_eol_app s :
  forall m rest, lazy_to_eol s = (m, rest) -> s = m ++ rest.
Proof.
  induction s as [|c s IH]; intros m rest H; simpl in H.
  - injection H as <- <-. reflexivity.
  - destruct (Ascii.eqb c LF).
    + injection H as <- <-. reflexivity.
    + destruct (lazy_to_eol s) as [m' rest'].
      injection H as <- <-. simpl. f_equal. apply IH. reflexivity.
Qed.

(** A [//] comment stops before the line feed: it contains none. *)
Lemma lazy_to_eol_no_LF s :
  forall m rest, lazy_to_eol s = (m, rest) -> count_LF m = 0%nat.
Proof.
  induction s as [|c s IH]; intros m rest H; simpl in H.
  - injection H as <- <-. reflexivity.
  - destruct (Ascii.eqb c LF) eqn:E.
    + injection H as <- <-. reflexivity.
    + destruct (lazy_to_eol s) as [m' rest'].
      injection H as <- <-. rewrite count_LF_cons.
      rewrite Ascii.eqb_sym, E. eapply IH. reflexivity.
Qed.

Lemma lazy_to_close_app :
  forall n s, (List.length s <= n)%nat ->
  forall m rest, lazy_to_close s = Some (m, rest) -> s = m ++ rest.
Proof.
  induction n as [|n IH]; intros s Hn m rest H.
  - destruct s; [discriminate H | simpl in Hn; lia].
  - destruct s as [|c [|d s]]; try discriminate H.
    simpl in H.
    destruct (Ascii.eqb c star && Ascii.eqb d slash).
    + injection H as <- <-. reflexivity.
    + destruct s as [|e s]; [discriminate H|].
      change (match lazy_to_close (d :: e :: s) with
              | Some (m, rest) => Some (c :: m, rest)
              | None => None
              end = Some (m, rest)) in H.
      destruct (lazy_to_close (d :: e :: s)) as [[m' rest']|] eqn:E;
        [|discriminate H].
      injection H as <- <-. simpl. f_equal.
      apply IH; [simpl in *; lia | exact E].
Qed.

Lemma quoted_body_app q :
  forall n s, (List.length s <= n)%nat ->
  forall m rest, quoted_body q s = Some (m, rest) -> s = m ++ rest.
Proof.
  induction n as [|n IH]; intros s Hn m rest H.
  - destruct s; [discriminate H | simpl in Hn; lia].
  - destruct s as [|c s]; [discriminate H|]. simpl in H.
    destruct (Ascii.eqb c backslash).
    + destruct s as [|d s]; [discriminate H|].
      destruct (quoted_body q s) as [[m' rest']|] eqn:E; [|discriminate H].
      injection H as <- <-. simpl. do 2 f_equal.
      apply IH; [simpl in *; lia | exact E].
    + destruct (Ascii.eqb c q).
      * injection H as <- <-. reflexivity.
      * destruct (quoted_body q s) as [[m' rest']|] eqn:E; [|discriminate H].
        injection H as <- <-. simpl. f_equal.
        apply IH; [simpl in *; lia | exact E].
Qed.

(** A match is a non-empty prefix of the text. *)
Lemma match_here_app s m rest :
  match_here s = Some (m, rest) -> s = m ++ rest /\ m <> [].
Proof.
  unfold match_here. intros H.
  destruct s as [|c s]; [discriminate H|].
  destruct (Ascii.eqb c slash).
  - destruct s as [|d s]; [discriminate H|].
    destruct (Ascii.eqb d slash).
    + destruct (lazy_to_eol s) as [m' rest'] eqn:E.
      injection H as <- <-. split; [|discriminate].
      simpl. do 2 f_equal. apply lazy_to_eol_app. exact E.
    + destruct (Ascii.eqb d star); [|discriminate H].
      destruct (lazy_to_close s) as [[m' rest']|] eqn:E; [|discriminate H].
      injection H as <- <-. split; [|discriminate].
      simpl. do 2 f_equal. eapply lazy_to_close_app; [reflexivity | exact E].
  - destruct (Ascii.eqb c squote || Ascii.eqb c dquote); [|discriminate H].
    destruct (quoted_body c s) as [[m' rest']|] eqn:E; [|discriminate H].
    injection H as <- <-. split; [|discriminate].
    simpl. f_equal. eapply quoted_body_app; [reflexivity | exact E].
Qed.

Lemma match_here_shorter s m rest :
  match_here s = Some (m, rest) -> (List.length rest < List.length s)%nat.
Proof.
  intros H. destruct (match_here_app _ _ _ H) as [-> Hm].
  rewrite length_app. destruct m; [congruence | simpl; lia].
Qed.

Lemma sub_eq fuel c text :
  sub (S fuel) (c :: text) =
  match match_here (c :: text) with
  | Some (m, rest) => replacer m ++ sub fuel rest
  | None => c :: sub fuel text
  end.
Proof. reflexivity. Qed.

(** Fuel beyond the length of the text changes nothing. *)
Lemma sub_fuel :
  forall fuel1 fuel2 text,
    (List.length text <= fuel1)%nat -> (List.length text <= fuel2)%nat ->
    sub fuel1 text = sub fuel2 text.
Proof.
  induction fuel1 as [|fuel1 IH]; intros fuel2 text H1 H2.
  - destruct text; [|simpl in H1; lia]. destruct fuel2; reflexivity.
  - destruct text as [|c text]; [destruct fuel2; reflexivity|].
    destruct fuel2 as [|fuel2]; [simpl in H2; lia|].
    rewrite !sub_eq.
    destruct (match_here (c :: text)) as [[m rest]|] eqn:E.
    + apply match_here_shorter in E. f_equal.
      apply IH; simpl in *; lia.
    + f_equal. apply IH; simpl in *; lia.
Qed.

Lemma strip_comments_match text m rest :
  match_here text = Some (m, rest) ->
  strip_comments text = replacer m ++ strip_comments rest.
Proof.
  intros H. unfold strip_comments.
  destruct text as [|c text]; [discriminate H|].
  cbn [List.length]. rewrite sub_eq, H. f_equal.
  apply match_here_shorter in H. apply sub_fuel; simpl in *; lia.
Qed.

Lemma strip_comments_char c text :
  match_here (c :: text) = None ->
  strip_comments (c :: text) = c :: strip_comments text.
Proof.
  intros H. unfold strip_comments. cbn [List.length].
  rewrite sub_eq, H. reflexivity.
Qed.

Lemma strip_comments_count_LF :
  forall n text, (List.length text <= n)%nat ->
                 count_LF (strip_comments text) = count_LF text.
Proof.
  induction n as [|n IH]; intros text Hn.
  - destruct text; [reflexivity | simpl in Hn; lia].
  - destruct text as [|c text]; [reflexivity|].
    destruct (match_here (c :: text)) as [[m rest]|] eqn:E.
    + rewrite (strip_comments_match _ _ _ E).
      pose proof (match_here_shorter _ _ _ E) as Hlt.
      destruct (match_here_app _ _ _ E) as [Happ _].
      rewrite Happ, !count_LF_app, replacer_count_LF.
      f_equal. apply IH. simpl in *; lia.
    + rewrite (strip_comments_char _ _ E), !count_LF_cons.
      f_equal. apply IH. simpl in *; lia.
Qed.

Lemma quoted_body_eq q c s :
  quoted_body q (c :: s) =
  if Ascii.eqb c backslash then
    match s with
    | d :: s'' =>
        match quoted_body q s'' with
        | Some (m, rest) => Some (c :: d :: m, rest)
        | None => None
        end
    | [] => None
    end
  else if Ascii.eqb c q then Some ([c], s)
  else match quoted_body q s with
       | Some (m, rest) => Some (c :: m, rest)
       | None => None
       end.
Proof. reflexivity. Qed.

(** The pattern's literal alternatives take a whole literal, whatever
    its contents look like. *)
Lemma quoted_body_quoted q b :
  q <> backslash -> quoted q b ->
  forall rest, quoted_body q (b ++ rest) = Some (b, rest).
Proof.
  intros Hq. induction 1 as [|c b Hb IH|c b Hc Hcq Hb IH]; intros rest.
  - cbn [app]. rewrite quoted_body_eq.
    apply Ascii.eqb_neq in Hq. rewrite Hq, Ascii.eqb_refl. reflexivity.
  - cbn [app]. rewrite quoted_body_eq, Ascii.eqb_refl, IH. reflexivity.
  - cbn [app]. rewrite quoted_body_eq.
    apply Ascii.eqb_neq in Hc, Hcq. rewrite Hc, Hcq, IH. reflexivity.
Qed.

Lemma literal_match lit rest :
  literal lit -> match_here (lit ++ rest) = Some (lit, rest).
Proof.
  intros (q & b & Hq & -> & Hb).
  assert (Hbs : q <> backslash) by (destruct Hq; subst q; discriminate).
  unfold match_here. cbn [app].
  rewrite (quoted_body_quoted q b Hbs Hb).
  destruct Hq; subst q; reflexivity.
Qed.

Lemma literal_replacer lit : literal lit -> replacer lit = lit.
Proof.
  intros (q & b & Hq & -> & _). destruct Hq; subst q; reflexivity.
Qed.

Lemma strip_comments_scans text out s :
  scans_to text out s -> strip_comments text = out ++ strip_comments s.
Proof.
  induction 1 as [text|text m rest out s Hm _ IH|c text out s Hm _ IH].
  - reflexivity.
  - rewrite (strip_comments_match _ _ _ Hm), IH, app_assoc. reflexivity.
  - rewrite (strip_comments_char _ _ Hm), IH. reflexivity.
Qed.

Lemma count_LF_0_cons c s :
  count_LF (c :: s) = 0%nat -> Ascii.eqb c LF = false /\ count_LF s = 0%nat.
Proof.
  rewrite count_LF_cons, Ascii.eqb_sym.
  destruct (Ascii.eqb c LF); [discriminate | auto].
Qed.

(** A [//] comment runs up to the line feed, or to the end of the text. *)
Lemma lazy_to_eol_line body rest :
  count_LF body = 0%nat ->
  lazy_to_eol (body ++ LF :: rest) = (body, LF :: rest).
Proof.
  induction body as [|c body IH]; intros H; cbn [app lazy_to_eol].
  - rewrite Ascii.eqb_refl. reflexivity.
  - apply count_LF_0_cons in H as [-> H]. rewrite (IH H). reflexivity.
Qed.

Lemma lazy_to_eol_end body :
  count_LF body = 0%nat -> lazy_to_eol body = (body, []).
Proof.
  induction body as [|c body IH]; intros H; cbn [lazy_to_eol].
  - reflexivity.
  - apply count_LF_0_cons in H as [-> H]. rewrite (IH H). reflexivity.
Qed.

Lemma lazy_to_close_eq c d s :
  lazy_to_close (c :: d :: s) =
  if Ascii.eqb c star && Ascii.eqb d slash then Some ([c; d], s)
  else match lazy_to_close (d :: s) with
       | Some (m, rest) => Some (c :: m, rest)
       | None => None
       end.
Proof. reflexivity. Qed.

(** A block comment runs up to the first [*/] after its opening. *)
Lemma lazy_to_close_first body rest :
  has_close (body ++ [star]) = false ->
  lazy_to_close (body ++ star :: slash :: rest)
  = Some (body ++ [star; slash], rest).
Proof.
  induction body as [|c body IH]; intros H.
  - reflexivity.
  - cbn [app] in *.
    destruct (body ++ star :: slash :: rest) as [|d s] eqn:E;
      [destruct body; discriminate E|].
    rewrite lazy_to_close_eq.
    assert (Hd : exists s', body ++ [star] = d :: s').
    { destruct body as [|d' body]; cbn [app] in *.
      - injection E as <- _. eauto.
      - injection E as <- _. eauto. }
    destruct Hd as (s' & Hd). cbn [has_close] in H. rewrite Hd in H.
    apply orb_false_iff in H as [H1 H2]. rewrite H1.
    rewrite <- Hd in H2. rewrite (IH H2). reflexivity.
Qed.

Lemma match_here_line_comment body rest :
  count_LF body = 0%nat ->
  match_here (slash :: slash :: body ++ LF :: rest)
  = Some (slash :: slash :: body, LF :: rest).
Proof.
  intros H. unfold match_here. rewrite !Ascii.eqb_refl.
  rewrite (lazy_to_eol_line _ _ H). reflexivity.
Qed.

Lemma match_here_last_line_comment body :
  count_LF body = 0%nat ->
  match_here (slash :: slash :: body) = Some (slash :: slash :: body, []).
Proof.
  intros H. unfold match_here. rewrite !Ascii.eqb_refl.
  rewrite (lazy_to_eol_end _ H). reflexivity.
Qed.

Lemma match_here_block_comment body rest :
  has_close (body ++ [star]) = false ->
  match_here (slash :: star :: body ++ star :: slash :: rest)
  = Some (slash :: star :: body ++ [star; slash], rest).
Proof.
  intros H. unfold match_here. rewrite !Ascii.eqb_refl.
  change (Ascii.eqb star slash) with false. cbv iota.
  rewrite (lazy_to_close_first _ _ H). reflexivity.
Qed.

Lemma replacer_line_comment body :
  count_LF body = 0%nat -> replacer (slash :: slash :: body) = [" "%char].
Proof.
  intros H. unfold replacer. rewrite Ascii.eqb_refl.
  rewrite !count_LF_cons, H. reflexivity.
Qed.

Lemma replacer_block_comment body :
  replacer (slash :: star :: body ++ [star; slash])
  = " "%char :: repeat LF (count_LF body).
Proof.
  unfold replacer. rewrite Ascii.eqb_refl.
  rewrite !count_LF_cons, count_LF_app. cbn. rewrite Nat.add_0_r.
  reflexivity.
Qed.

Lemma strip_comments_LF rest :
  strip_comments (LF :: rest) = LF :: strip_comments rest.
Proof. apply strip_comments_char. reflexivity. Qed.

End ReFacts.

(** C7: [strip_comments] keeps the number of line feeds of the text;
    every literal the search comes to is put out unchanged, whatever its
    contents, the search going on after it; a [//] comment the search
    comes to is replaced by a space up to its line feed, which stays; a
    block comment the search comes to is replaced by a space and as many
    line feeds as it contains. *)
Theorem strip_comments_lines_and_literals :
  forall text : list ascii,
    count_newlines (strip_comments text) = count_newlines text
    /\ (forall out lit rest,
           literal lit ->
           scans_to text out (lit ++ rest) ->
           strip_comments text = out ++ lit ++ strip_comments rest)
    /\ (forall out body rest,
           count_newlines body = 0%nat ->
           scans_to text out (Re.slash :: Re.slash :: body ++ Re.LF :: rest) ->
           strip_comments text
           = out ++ " "%char :: Re.LF :: strip_comments rest)
    /\ (forall out body rest,
           has_close (body ++ [Re.star]) = false ->
           scans_to text out
                    (Re.slash :: Re.star :: body
                     ++ Re.star :: Re.slash :: rest) ->
           strip_comments text
           = out ++ " "%char :: repeat Re.LF (count_newlines body)
                 ++ strip_comments rest).
Proof.
  intros text. split; [|split; [|split]].
  - eapply ReFacts.strip_comments_count_LF. reflexivity.
  - intros out lit rest Hlit Hscan.
    rewrite (ReFacts.strip_comments_scans _ _ _ Hscan).
    rewrite (ReFacts.strip_comments_match _ _ _
               (ReFacts.literal_match lit rest Hlit)).
    rewrite (ReFacts.literal_replacer _ Hlit). reflexivity.
  - intros out body rest Hbody Hscan.
    rewrite (ReFacts.strip_comments_scans _ _ _ Hscan).
    rewrite (ReFacts.strip_comments_match _ _ _
               (ReFacts.match_here_line_comment body rest Hbody)).
    rewrite (ReFacts.replacer_line_comment _ Hbody).
    rewrite ReFacts.strip_comments_LF. reflexivity.
  - intros out body rest Hbody Hscan.
    rewrite (ReFacts.strip_comments_scans _ _ _ Hscan).
    rewrite (ReFacts.strip_comments_match _ _ _
               (ReFacts.match_here_block_comment body rest Hbody)).
    rewrite ReFacts.replacer_block_comment. reflexivity.
Qed.

Lemma strip_comments_lines_and_literals_witness :
  let lit := [Re.dquote] ++ list_ascii_of_string "a//b/*c*/" ++ [Re.dquote] in
  let rest := list_ascii_of_string "; // d" ++ [Re.LF]
              ++ list_ascii_of_string "/* e" ++ [Re.LF]
              ++ list_ascii_of_string "*/ f" in
  count_newlines (strip_comments commented_text) = 2%nat
  /\ strip_comments commented_text
     = list_ascii_of_string "s = " ++ lit ++ strip_comments rest
  /\ strip_comments rest
     = list_ascii_of_string ";  " ++ [Re.LF; " "%char; Re.LF]
       ++ list_ascii_of_string " f".
Proof.
  cbv zeta. split; [|split].
  - rewrite (proj1 (strip_comments_lines_and_literals commented_text)).
    reflexivity.
  - apply (proj1 (proj2 (strip_comments_lines_and_literals commented_text))).
    + exists Re.dquote, (list_ascii_of_string "a//b/*c*/" ++ [Re.dquote]).
      split; [right; reflexivity|]. split; [reflexivity|].
      cbn. repeat (first [ apply quoted_end
                         | apply quoted_char; [discriminate | discriminate |] ]).
    + cbn. repeat (first [ apply scans_here
                         | apply scans_char; [reflexivity|] ]).
  - vm_compute. reflexivity.
Defined.

(** ** The field table *)

Section FieldsFacts.

Implicit Types (fs sub : list (Z * list StructField)) (f g x : StructField).

Lemma fields_get_append_eq o f fs :
  fields_get o (fields_append o f fs) = fields_get o fs ++ [f].
Proof.
  induction fs as [|[k l] fs IH]; cbn [fields_append fields_get].
  - rewrite Z.eqb_refl. reflexivity.
  - destruct (k =? o) eqn:E; cbn [fields_get]; rewrite E; [reflexivity | exact IH].
Qed.

Lemma fields_get_append_ne o o' f fs :
  o <> o' -> fields_get o' (fields_append o f fs) = fields_get o' fs.
Proof.
  intros Hne. induction fs as [|[k l] fs IH]; cbn [fields_append fields_get].
  - apply Z.eqb_neq in Hne. rewrite Hne. reflexivity.
  - destruct (k =? o) eqn:E; cbn [fields_get].
    + apply Z.eqb_eq in E. subst k.
      apply Z.eqb_neq in Hne. rewrite Hne. reflexivity.
    + destruct (k =? o'); [reflexivity | exact IH].
Qed.

(** An append keeps what the table holds, and adds the field at its
    offset and nothing else. *)
Lemma fields_append_In o o' f x fs :
  In x (fields_get o' (fields_append o f fs))
  <-> In x (fields_get o' fs) \/ (o' = o /\ x = f).
Proof.
  destruct (Z.eq_dec o o') as [<-|Hne].
  - rewrite fields_get_append_eq, in_app_iff. simpl. intuition congruence.
  - rewrite fields_get_append_ne by exact Hne. intuition congruence.
Qed.

Lemma fields_get_In_pair k x sub :
  In x (fields_get k sub) -> exists l, In (k, l) sub /\ In x l.
Proof.
  induction sub as [|[k' l] sub IH]; cbn [fields_get]; [contradiction|].
  destruct (k' =? k) eqn:E.
  - apply Z.eqb_eq in E. subst k'. intros H. exists l. split; [left|]; auto.
  - intros H. destruct (IH H) as (l' & H1 & H2). exists l'. split; [right|]; auto.
Qed.

Lemma flatten_inner_In rename o o' l x fs :
  In x (fields_get o' (fold_left
                         (fun fs g => fields_append o (rename g) fs) l fs))
  <-> In x (fields_get o' fs) \/ (o' = o /\ exists g, In g l /\ x = rename g).
Proof.
  revert fs. induction l as [|g l IH]; intros fs; cbn [fold_left].
  - split; [auto|]. intros [H|(_ & g & [] & _)]. exact H.
  - rewrite IH, fields_append_In. split.
    + intros [[H|[-> ->]]|(-> & g' & Hg' & ->)]; eauto 8 using in_eq, in_cons.
    + intros [H|(-> & g' & [<-|Hg'] & ->)]; eauto 8.
Qed.

(** What the table holds after a member's table has been copied in. *)
Lemma flatten_into_In rename offset sub o' x fs :
  In x (fields_get o' (flatten_into rename offset sub fs))
  <-> In x (fields_get o' fs)
      \/ exists k l g, In (k, l) sub /\ In g l /\ x = rename g
                       /\ o' = offset + k.
Proof.
  unfold flatten_into. revert fs.
  induction sub as [|[k l] sub IH]; intros fs; cbn [fold_left].
  - split; [auto|]. intros [H|(k & l & g & [] & _)]. exact H.
  - rewrite IH, flatten_inner_In. split.
    + intros [[H|(-> & g & Hg & ->)]|(k' & l' & g & Hin & Hg & -> & ->)].
      * auto.
      * right. exists k, l, g. auto using in_eq.
      * right. exists k', l', g. auto using in_cons.
    + intros [H|(k' & l' & g & [[= -> ->]|Hin] & Hg & -> & ->)].
      * auto.
      * left. right. eauto.
      * right. exists k', l', g. auto.
Qed.

Lemma flatten_into_copies rename offset sub k g fs :
  In g (fields_get k sub) ->
  In (rename g) (fields_get (offset + k) (flatten_into rename offset sub fs)).
Proof.
  intros H. apply flatten_into_In. right.
  destruct (fields_get_In_pair _ _ _ H) as (l & H1 & H2).
  exists k, l, g. auto.
Qed.

End FieldsFacts.

(** ** The loop of [do_parse_struct] *)

Lemma for_each_app {A S} (body : S -> A -> M S) l1 l2 st tm :
  for_each body (l1 ++ l2) st tm
  = (st' <- for_each body l1 st ;; for_each body l2 st') tm.
Proof.
  revert st tm. induction l1 as [|x l1 IH]; intros st tm.
  - reflexivity.
  - cbn [app]. rewrite !for_each_cons. unfold bind.
    destruct (body st x tm) as [st1 tm1| |]; [|reflexivity..].
    rewrite IH. reflexivity.
Qed.

Lemma for_each_nil {A S} (body : S -> A -> M S) st tm :
  for_each body [] st tm = OK st tm.
Proof. reflexivity. Qed.

(** An invariant of the loop body is an invariant of the loop. *)
Lemma for_each_invariant {A S} (body : S -> A -> M S)
      (I : S -> TypeMap -> Prop) l :
  (forall x st tm st' tm',
      In x l -> I st tm -> body st x tm = OK st' tm' -> I st' tm') ->
  forall st tm st' tm',
    I st tm -> for_each body l st tm = OK st' tm' -> I st' tm'.
Proof.
  induction l as [|x l IH]; intros Hbody st tm st' tm' HI H.
  - injection H as <- <-. exact HI.
  - rewrite for_each_cons in H.
    apply bind_inv_OK in H as (st1 & tm1 & H1 & H2).
    eapply IH; [| |exact H2].
    + intros. eapply Hbody; eauto using in_cons.
    + eapply Hbody; eauto using in_eq.
Qed.

Section LoopFacts.

Variable parse_struct_f : StructUnion -> M Struct.
Variable parse_struct_member_f :
  DeclType -> string -> M (Z * Z * option Struct).
Variable u : bool.
Variable struct_name : option string.

Lemma flush_bits_fields st : l_fields (flush_bits u st) = l_fields st.
Proof. unfold flush_bits. destruct (_ && _); reflexivity. Qed.

Lemma flush_bits_align st : l_align (flush_bits u st) = l_align st.
Proof. unfold flush_bits. destruct (_ && _); reflexivity. Qed.

Lemma flush_bits_union_size st :
  l_union_size (flush_bits u st) = l_union_size st.
Proof. unfold flush_bits. destruct (_ && _); reflexivity. Qed.

(** What a bitfield does to the layout. *)
Lemma layout_bitfield_inv st type field_name bits tm st' tm' :
  layout_bitfield parse_struct_member_f u st type field_name bits tm
  = OK st' tm' ->
  exists width ssize salign substr,
    parse_constant_int bits = Ok width
    /\ parse_struct_member_f type field_name tm
       = OK (ssize, salign, substr) tm'
    /\ l_fields st' = l_fields st
    /\ l_align st' = Z.max (l_align st) salign
    /\ l_union_size st'
       = (if (width =? 0) || negb u then l_union_size st
          else Z.max (l_union_size st) ssize).
Proof.
  unfold layout_bitfield. intros H.
  apply bind_inv_OK in H as (width & tm1 & Hw & H).
  destruct (parse_constant_int bits) as [w|e] eqn:Ew; [|discriminate Hw].
  injection Hw as <- <-.
  apply bind_inv_OK in H as ([[ssize salign] substr] & tm2 & Hm & H).
  exists w, ssize, salign, substr.
  destruct (w =? 0).
  { injection H as <- <-. auto. }
  destruct (negb (ssize =? salign) || bool_decide (is_Some substr));
    [discriminate H|].
  destruct (w >? ssize * 8); [discriminate H|].
  destruct u.
  { injection H as <- <-. auto. }
  destruct (ssize =? 0); [discriminate H|].
  destruct (negb _); injection H as <- <-; auto.
Qed.

(** What a named member does to the layout. *)
Lemma layout_named_inv st type field_name decl_name tm st' tm' :
  layout_named parse_struct_member_f u st type field_name decl_name tm
  = OK st' tm' ->
  exists ssize salign substr,
    parse_struct_member_f type field_name tm = OK (ssize, salign, substr) tm'
    /\ l_fields st'
       = (let offset := Z.land (l_offset st + salign - 1) (- salign) in
          let fields1 := fields_append offset (mkStructField type decl_name)
                                       (l_fields st) in
          match substr with
          | Some substr =>
              flatten_into (prefixed decl_name) offset (fields substr) fields1
          | None => fields1
          end)
    /\ l_align st' = Z.max (l_align st) salign
    /\ l_union_size st'
       = (if u then Z.max (l_union_size st) ssize else l_union_size st).
Proof.
  unfold layout_named. intros H.
  apply bind_inv_OK in H as ([[ssize salign] substr] & tm2 & Hm & H).
  exists ssize, salign, substr.
  destruct u; injection H as <- <-; auto.
Qed.

(** What an anonymous struct or union does to the layout. *)
Lemma layout_anonymous_inv st su tm st' tm' :
  layout_anonymous parse_struct_f u st su tm = OK st' tm' ->
  exists substr,
    parse_struct_f su tm = OK substr tm'
    /\ match name su with
       | Some _ => st' = st
       | None =>
           l_fields st'
           = flatten_into (fun field => field)
               (Z.land (l_offset st + align substr - 1) (- align substr))
               (fields substr) (l_fields st)
           /\ l_align st' = Z.max (l_align st) (align substr)
           /\ l_union_size st'
              = (if u then Z.max (l_union_size st) (size substr)
                 else l_union_size st)
       end.
Proof.
  unfold layout_anonymous. intros H.
  apply bind_inv_OK in H as (substr & tm2 & Hm & H).
  exists substr. destruct (name su).
  - injection H as <- <-. auto.
  - destruct u; injection H as <- <-; auto.
Qed.

(** The loop body only adds to the field table. *)
Lemma layout_decl_fields_mono st decl tm st' tm' o x :
  layout_decl parse_struct_f parse_struct_member_f u struct_name st decl tm
  = OK st' tm' ->
  In x (fields_get o (l_fields st)) -> In x (fields_get o (l_fields st')).
Proof.
  intros H Hin. unfold layout_decl in H.
  destruct decl as [dn ty [bits|]| | | | | |];
    try (injection H as <- <-; exact Hin).
  - apply layout_bitfield_inv in H as (? & ? & ? & ? & _ & _ & -> & _).
    exact Hin.
  - rewrite <- flush_bits_fields in Hin.
    destruct dn as [m|].
    + apply layout_named_inv in H as (ssize & salign & substr & _ & -> & _).
      cbv zeta. destruct substr.
      * apply flatten_into_In. left. apply fields_append_In. auto.
      * apply fields_append_In. auto.
    + destruct ty as [ty|[| |su]]; try (injection H as <- <-; exact Hin).
      destruct (decls su); [|injection H as <- <-; exact Hin].
      apply layout_anonymous_inv in H as (substr & _ & H).
      destruct (name su); [subst st'; exact Hin|].
      destruct H as (-> & _). apply flatten_into_In. auto.
Qed.

Lemma for_each_fields_mono l st tm st' tm' o x :
  for_each (layout_decl parse_struct_f parse_struct_member_f u struct_name)
           l st tm = OK st' tm' ->
  In x (fields_get o (l_fields st)) -> In x (fields_get o (l_fields st')).
Proof.
  intros H Hin.
  refine (for_each_invariant _
            (fun st _ => In x (fields_get o (l_fields st))) l _ _ _ _ _ Hin H).
  intros d st0 tm0 st1 tm1 _ H0 H1.
  eapply layout_decl_fields_mono; eauto.
Qed.

End LoopFacts.

Lemma do_parse_struct_inv fuel struct tm layout tm' :
  do_parse_struct (S fuel) struct tm = OK layout tm' ->
  exists ds st,
    decls struct = Some ds /\ ds <> []
    /\ layout_prefix fuel struct ds tm = OK st tm'
    /\ layout = finish_layout (is_union struct) st.
Proof.
  rewrite do_parse_struct_eq. intros H.
  destruct (decls struct) as [[|d ds]|]; try discriminate H.
  apply bind_inv_OK in H as (st & tm1 & H1 & H2).
  injection H2 as <- <-.
  exists (d :: ds), st. repeat split; [discriminate | exact H1].
Qed.

Lemma finish_layout_fields u st : fields (finish_layout u st) = l_fields st.
Proof. unfold finish_layout. cbn [fields]. apply flush_bits_fields. Qed.

Lemma finish_layout_align u st : align (finish_layout u st) = l_align st.
Proof. unfold finish_layout. cbn [align]. apply flush_bits_align. Qed.

(** ** Bitfields and the field table (C9) *)

(** C9: in a run of the layout engine that returns a [Struct], the loop
    leaves the field table as it is on every declaration that has a
    [bitsize], named or not; and every field of the returned table comes
    from a declaration without [bitsize]. *)
Theorem bitfields_add_no_field :
  forall (fuel : nat) (struct : StructUnion) (tm : TypeMap)
         (layout : Struct) (tm' : TypeMap) (ds : list Node),
    do_parse_struct (S fuel) struct tm = OK layout tm' ->
    decls struct = Some ds ->
    (forall pre decl_name type bits post,
        ds = pre ++ Decl decl_name type (Some bits) :: post ->
        exists st tm1 st' tm2,
          layout_prefix fuel struct pre tm = OK st tm1
          /\ layout_prefix fuel struct
               (pre ++ [Decl decl_name type (Some bits)]) tm = OK st' tm2
          /\ l_fields st' = l_fields st)
    /\ (forall o f,
           In f (fields_get o (fields layout)) ->
           exists decl, In decl ds /\ field_from decl f).
Proof.
  intros fuel struct tm layout tm' ds H Hds.
  apply do_parse_struct_inv in H as (ds' & stf & Hds' & _ & Hrun & ->).
  rewrite Hds in Hds'. injection Hds' as <-.
  split.
  - intros pre dn ty bits post ->.
    unfold layout_prefix in *.
    rewrite for_each_app in Hrun.
    apply bind_inv_OK in Hrun as (st & tm1 & Hpre & Hrest).
    rewrite for_each_cons in Hrest.
    apply bind_inv_OK in Hrest as (st' & tm2 & Hstep & _).
    exists st, tm1, st', tm2. split; [exact Hpre|]. split.
    + rewrite for_each_app. erewrite bind_OK by exact Hpre.
      rewrite for_each_cons. erewrite bind_OK by exact Hstep. reflexivity.
    + cbn [layout_decl] in Hstep.
      apply layout_bitfield_inv in Hstep as (? & ? & ? & ? & _ & _ & E & _).
      exact E.
  - intros o f. rewrite finish_layout_fields. revert o f.
    unfold layout_prefix in Hrun.
    refine (for_each_invariant _
              (fun st _ => forall o f, In f (fields_get o (l_fields st)) ->
                                       exists decl, In decl ds /\ field_from decl f)
              ds _ _ _ _ _ _ Hrun); [|intros ? ? []].
    intros d st tm0 st' tm1 Hd IH Hstep o f Hf.
    unfold layout_decl in Hstep.
    destruct d as [dn ty [bits|]| | | | | |];
      try (injection Hstep as <- <-; eauto).
    + apply layout_bitfield_inv in Hstep as (? & ? & ? & ? & _ & _ & E & _).
      rewrite E in Hf. eauto.
    + destruct dn as [m|].
      * apply layout_named_inv in Hstep as (ssize & salign & substr & _ & E & _).
        rewrite E in Hf. cbv zeta in Hf.
        assert (Hnew : forall o' g,
                   In g (fields_get o' (fields_append
                           (Z.land (l_offset (flush_bits (is_union struct) st)
                                    + salign - 1) (- salign))
                           (mkStructField ty m)
                           (l_fields (flush_bits (is_union struct) st)))) ->
                   exists decl, In decl ds /\ field_from decl g).
        { intros o' g Hg. apply fields_append_In in Hg as [Hg|[_ ->]].
          - rewrite flush_bits_fields in Hg. eauto.
          - exists (Decl (Some m) ty None). split; [exact Hd|]. left. reflexivity. }
        destruct substr as [T|]; [|eauto].
        apply flatten_into_In in Hf as [Hf|(k & l & g & _ & _ & -> & _)]; [eauto|].
        exists (Decl (Some m) ty None). split; [exact Hd|].
        right. exists (sf_name g). reflexivity.
      * destruct ty as [ty|[| |su]];
          try (injection Hstep as <- <-; rewrite flush_bits_fields in Hf; eauto).
        destruct (decls su) as [sds|] eqn:Esds;
          [|injection Hstep as <- <-; rewrite flush_bits_fields in Hf; eauto].
        apply layout_anonymous_inv in Hstep as (substr & _ & Hst).
        destruct (name su) eqn:En;
          [subst st'; rewrite flush_bits_fields in Hf; eauto|].
        destruct Hst as (E & _). rewrite E in Hf.
        apply flatten_into_In in Hf as [Hf|_].
        -- rewrite flush_bits_fields in Hf. eauto.
        -- exists (Decl None (inr (SU su)) None). split; [exact Hd|].
           cbn [field_from]. rewrite En, Esds. split; [reflexivity|discriminate].
Qed.

Lemma bitfields_add_no_field_witness :
  let layout :=
    mkStruct [(4, [mkStructField (Scenario.prim ["int"]) "a"])] 8 4 in
  do_parse_struct 2 Scenario.struct_M empty_typemap = OK layout empty_typemap
  /\ (forall pre decl_name type bits post,
         [Decl (Some "x") (Scenario.prim ["unsigned"]) (Scenario.lit "3");
          Decl (Some "a") (Scenario.prim ["int"]) None]
         = pre ++ Decl decl_name type (Some bits) :: post ->
         exists st tm1 st' tm2,
           layout_prefix 1 Scenario.struct_M pre empty_typemap = OK st tm1
           /\ layout_prefix 1 Scenario.struct_M
                (pre ++ [Decl decl_name type (Some bits)]) empty_typemap
              = OK st' tm2
           /\ l_fields st' = l_fields st)
  /\ (forall o f,
         In f (fields_get o (fields layout)) ->
         exists decl,
           In decl [Decl (Some "x") (Scenario.prim ["unsigned"]) (Scenario.lit "3");
                    Decl (Some "a") (Scenario.prim ["int"]) None]
           /\ field_from decl f).
Proof.
  cbv zeta. split; [vm_compute; reflexivity|].
  apply (bitfields_add_no_field 1 Scenario.struct_M empty_typemap
           (mkStruct [(4, [mkStructField (Scenario.prim ["int"]) "a"])] 8 4)
           empty_typemap).
  - vm_compute. reflexivity.
  - reflexivity.
Defined.

(** ** Flattening (C4) *)

(** C4: when the engine returns a [Struct] for a definition with a named
    member [m] whose type resolves to a struct or union, then, [T] being
    the layout [parse_struct] gives for that struct or union when the loop
    comes to [m] and [o] the offset [m] gets, the returned table holds
    [m] at [o] and, for every field [x] of [T] at offset [k], a field
    named [m.x] with the type of [x] at [o + k]. *)
Theorem flattening_preserves_offsets :
  forall (fuel : nat) (struct : StructUnion) (tm : TypeMap)
         (layout : Struct) (tm' : TypeMap)
         (pre post : list Node) (m : string) (t : Type_),
    do_parse_struct (S fuel) struct tm = OK layout tm' ->
    decls struct = Some (pre ++ Decl (Some m) (inl t) None :: post) ->
    exists st tm1,
      layout_prefix fuel struct pre tm = OK st tm1
      /\ forall d su,
          resolve_typedefs fuel t tm1 = Some (TypeDecl d (SU su)) ->
          exists fuel' T tm2,
            fuel = S fuel'
            /\ parse_struct fuel' su tm1 = OK T tm2
            /\ In (mkStructField (inl t) m)
                  (fields_get (member_offset (is_union struct) st (align T))
                              (fields layout))
            /\ forall k x,
                In x (fields_get k (fields T)) ->
                In (mkStructField (sf_type x) (m +:+ "." +:+ sf_name x))
                   (fields_get
                      (member_offset (is_union struct) st (align T) + k)
                      (fields layout)).
Proof.
  intros fuel struct tm layout tm' pre post m t H Hds.
  apply do_parse_struct_inv in H as (ds & stf & Hds' & _ & Hrun & ->).
  rewrite Hds in Hds'. injection Hds' as <-.
  unfold layout_prefix in *.
  rewrite for_each_app in Hrun.
  apply bind_inv_OK in Hrun as (st & tm1 & Hpre & Hrest).
  rewrite for_each_cons in Hrest.
  apply bind_inv_OK in Hrest as (st2 & tm2 & Hstep & Hpost).
  exists st, tm1. split; [exact Hpre|].
  intros d su Hres.
  cbn [layout_decl] in Hstep.
  apply layout_named_inv in Hstep
    as (ssize & salign & substr & Hmem & Hfields & _).
  destruct fuel as [|fuel']; [discriminate Hmem|].
  rewrite parse_struct_member_eq, Hres in Hmem.
  apply bind_inv_OK in Hmem as (T & tm3 & HT & Hret).
  injection Hret as <- <- <- <-.
  exists fuel', T, tm3. split; [reflexivity|]. split; [exact HT|].
  rewrite finish_layout_fields. cbv zeta in Hfields.
  fold (member_offset (is_union struct) st (align T)) in Hfields.
  split.
  - eapply for_each_fields_mono; [exact Hpost|].
    rewrite Hfields. apply flatten_into_In. left.
    apply fields_append_In. right. auto.
  - intros k x Hx.
    eapply for_each_fields_mono; [exact Hpost|].
    rewrite Hfields.
    apply (flatten_into_copies (prefixed m)). exact Hx.
Qed.

Lemma flattening_preserves_offsets_witness :
  let a := TypeDecl None (SU Scenario.struct_A) in
  exists layout tm',
    do_parse_struct 5 Scenario.struct_Wrap empty_typemap = OK layout tm'
    /\ exists st tm1,
        layout_prefix 4 Scenario.struct_Wrap [] empty_typemap = OK st tm1
        /\ forall d su,
            resolve_typedefs 4 a tm1 = Some (TypeDecl d (SU su)) ->
            exists fuel' T tm2,
              4%nat = S fuel'
              /\ parse_struct fuel' su tm1 = OK T tm2
              /\ In (mkStructField (inl a) "a")
                    (fields_get (member_offset false st (align T))
                                (fields layout))
              /\ forall k x,
                  In x (fields_get k (fields T)) ->
                  In (mkStructField (sf_type x) ("a" +:+ "." +:+ sf_name x))
                     (fields_get (member_offset false st (align T) + k)
                                 (fields layout)).
Proof.
  cbv zeta. do 2 eexists.
  split; [vm_compute; reflexivity|].
  eapply (flattening_preserves_offsets 4 Scenario.struct_Wrap empty_typemap
            _ _ [] [Decl (Some "t") (Scenario.prim ["char"]) None] "a"
            (TypeDecl None (SU Scenario.struct_A))).
  - vm_compute. reflexivity.
  - reflexivity.
Defined.

(** ** Sizes and alignments (C5) *)

(** Rounding down to a multiple of a power of two. *)
Lemma land_neg_pow2 x k : 0 <= k -> Z.land x (- 2 ^ k) = x / 2 ^ k * 2 ^ k.
Proof.
  intros Hk.
  replace (- 2 ^ k) with (Z.lnot (Z.ones k))
    by (rewrite Z.ones_equiv; unfold Z.lnot; lia).
  rewrite <- Z.ldiff_land, Z.ldiff_ones_r by exact Hk.
  rewrite Z.shiftl_mul_pow2, Z.shiftr_div_pow2 by exact Hk. reflexivity.
Qed.

Lemma land_neg_pow2_mod x a : pow2 a -> Z.land x (- a) mod a = 0.
Proof.
  intros (k & Hk & ->). rewrite land_neg_pow2 by exact Hk.
  apply Z_mod_mult.
Qed.

Lemma pow2_max a b : pow2 a -> pow2 b -> pow2 (Z.max a b).
Proof. intros Ha Hb. destruct (Z.max_spec a b) as [[_ ->]|[_ ->]]; assumption. Qed.

Lemma pow2_1 : pow2 1.
Proof. exists 0. split; [lia | reflexivity]. Qed.

Lemma pow2_4 : pow2 4.
Proof. exists 2. split; [lia | reflexivity]. Qed.

Lemma primitive_size_pow2 inner sz : primitive_size inner = Ok sz -> pow2 sz.
Proof.
  unfold primitive_size. intros H.
  assert (P8 : pow2 8) by (exists 3; split; [lia | reflexivity]).
  assert (P2 : pow2 2) by (exists 1; split; [lia | reflexivity]).
  destruct inner as [names|en|su]; [| |discriminate H].
  - repeat match type of H with
           | (if ?c then _ else _) = _ => destruct c
           end; injection H as <-; auto using pow2_1, pow2_4.
  - injection H as <-. exact pow2_4.
Qed.

Lemma typemap_ok_empty : typemap_ok empty_typemap.
Proof.
  split; intros ? ? H; cbn [empty_typemap named_structs anon_structs] in H;
    rewrite lookup_empty in H; discriminate H.
Qed.

Lemma typemap_ok_get_struct tm struct T :
  typemap_ok tm -> get_struct struct tm = Some T -> pow2 (align T).
Proof.
  intros [Hn Ha]. unfold get_struct. destruct (Py.truthy _); eauto.
Qed.

Lemma typemap_ok_store_struct tm struct T :
  typemap_ok tm -> pow2 (align T) -> typemap_ok (store_struct struct T tm).
Proof.
  intros [Hn Ha] HT. unfold store_struct.
  destruct (Py.truthy _); split; cbn; intros k T' H; eauto.
  - destruct (decide (Py.str_opt (name struct) = k)) as [<-|Hne].
    + rewrite lookup_insert_eq in H. injection H as <-. exact HT.
    + rewrite lookup_insert_ne in H by exact Hne. eauto.
  - destruct (decide (uid struct = k)) as [<-|Hne].
    + rewrite lookup_insert_eq in H. injection H as <-. exact HT.
    + rewrite lookup_insert_ne in H by exact Hne. eauto.
Qed.

Section LoopAlign.

Variable parse_struct_f : StructUnion -> M Struct.
Variable parse_struct_member_f :
  DeclType -> string -> M (Z * Z * option Struct).
Variable u : bool.
Variable struct_name : option string.

Hypothesis parse_struct_f_ok :
  forall su tm T tm',
    typemap_ok tm -> parse_struct_f su tm = OK T tm' ->
    typemap_ok tm' /\ pow2 (align T).
Hypothesis parse_struct_member_f_ok :
  forall ty fn tm sz al sub tm',
    typemap_ok tm -> parse_struct_member_f ty fn tm = OK (sz, al, sub) tm' ->
    typemap_ok tm' /\ pow2 al.

Lemma layout_decl_ok st decl tm st' tm' :
  typemap_ok tm /\ pow2 (l_align st) ->
  layout_decl parse_struct_f parse_struct_member_f u struct_name st decl tm
  = OK st' tm' ->
  typemap_ok tm' /\ pow2 (l_align st').
Proof.
  intros [Htm Hal] H. unfold layout_decl in H.
  destruct decl as [dn ty [bits|]| | | | | |];
    try (injection H as <- <-; auto).
  - apply layout_bitfield_inv in H
      as (w & ssize & salign & substr & _ & Hm & _ & -> & _).
    apply parse_struct_member_f_ok in Hm as [? ?]; auto using pow2_max.
  - rewrite <- (flush_bits_align u) in Hal.
    destruct dn as [m|].
    + apply layout_named_inv in H as (ssize & salign & substr & Hm & _ & -> & _).
      apply parse_struct_member_f_ok in Hm as [? ?]; auto using pow2_max.
    + destruct ty as [ty|[| |su]]; try (injection H as <- <-; auto).
      destruct (decls su); [|injection H as <- <-; auto].
      apply layout_anonymous_inv in H as (substr & Hm & H).
      apply parse_struct_f_ok in Hm as [? ?]; [|exact Htm].
      destruct (name su); [subst st'; auto|].
      destruct H as (_ & -> & _). auto using pow2_max.
Qed.

Lemma for_each_layout_ok l st tm st' tm' :
  typemap_ok tm /\ pow2 (l_align st) ->
  for_each (layout_decl parse_struct_f parse_struct_member_f u struct_name)
           l st tm = OK st' tm' ->
  typemap_ok tm' /\ pow2 (l_align st').
Proof.
  intros HI H.
  refine (for_each_invariant _
            (fun st tm => typemap_ok tm /\ pow2 (l_align st)) l _ _ _ _ _ HI H).
  intros d st0 tm0 st1 tm1 _ H0 H1. eapply layout_decl_ok; eauto.
Qed.

End LoopAlign.

(** The engine keeps the cached layouts well aligned, and returns only
    such layouts and alignments. *)
Lemma layout_engine_ok fuel :
  (forall su tm T tm',
      typemap_ok tm -> parse_struct fuel su tm = OK T tm' ->
      typemap_ok tm' /\ pow2 (align T))
  /\ (forall ty fn tm sz al sub tm',
         typemap_ok tm ->
         parse_struct_member fuel ty fn tm = OK (sz, al, sub) tm' ->
         typemap_ok tm' /\ pow2 al)
  /\ (forall su tm T tm',
         typemap_ok tm -> do_parse_struct fuel su tm = OK T tm' ->
         typemap_ok tm' /\ pow2 (align T)).
Proof.
  induction fuel as [|fuel (IHps & IHpsm & IHdo)].
  { repeat split; intros; discriminate. }
  split; [|split].
  - intros su tm T tm' Htm H. rewrite parse_struct_eq in H.
    destruct (get_struct su tm) as [existing|] eqn:Eg.
    + injection H as <- <-. eauto using typemap_ok_get_struct.
    + destruct (decls su); [|discriminate H].
      destruct (do_parse_struct fuel su tm) as [r tm1| |] eqn:Ed;
        try discriminate H.
      injection H as <- <-.
      apply IHdo in Ed as [? ?]; [|exact Htm].
      auto using typemap_ok_store_struct.
  - intros ty fn tm sz al sub tm' Htm H.
    destruct ty as [ty|inner]; [|discriminate H].
    rewrite parse_struct_member_eq in H.
    destruct (resolve_typedefs (S fuel) ty tm) as [[x|elt [dim|]|d inner|args rt]|];
      try discriminate H.
    + injection H as <- <- <- <-. auto using pow2_4.
    + apply bind_inv_OK in H as (n & tm1 & Hn & H).
      destruct (parse_constant_int dim); [|discriminate Hn].
      injection Hn as <- <-.
      apply bind_inv_OK in H as ([[esize ealign] esub] & tm2 & He & H).
      injection H as <- <- <- <-. eapply IHpsm; eauto.
    + destruct inner as [names|en|inner].
      * apply bind_inv_OK in H as (psize & tm1 & Hp & H).
        destruct (primitive_size (IdentifierType names)) eqn:Ep;
          [|discriminate Hp].
        injection Hp as <- <-. injection H as <- <- <- <-.
        eauto using primitive_size_pow2.
      * apply bind_inv_OK in H as (psize & tm1 & Hp & H).
        destruct (primitive_size (Enum en)) eqn:Ep; [|discriminate Hp].
        injection Hp as <- <-. injection H as <- <- <- <-.
        eauto using primitive_size_pow2.
      * apply bind_inv_OK in H as (substr & tm1 & Hp & H).
        injection H as <- <- <- <-. eapply IHps; eauto.
  - intros su tm T tm' Htm H.
    apply do_parse_struct_inv in H as (ds & st & _ & _ & Hrun & ->).
    rewrite finish_layout_align.
    eapply for_each_layout_ok; [exact IHps | exact IHpsm | | exact Hrun].
    split; [exact Htm | exact pow2_1].
Qed.

Section UnionSizes.

Variable fuel : nat.
Variable struct_name : option string.

(** In a union the loop body takes the maximum with the member's
    size. *)
Lemma layout_decl_member_size st decl tm st' tm' :
  layout_decl (parse_struct fuel) (parse_struct_member fuel) true
              struct_name st decl tm = OK st' tm' ->
  exists sz,
    member_size fuel struct_name decl tm = OK sz tm'
    /\ l_union_size st'
       = match sz with
         | Some z => Z.max (l_union_size st) z
         | None => l_union_size st
         end.
Proof.
  intros H. unfold layout_decl in H. unfold member_size.
  destruct decl as [dn ty [bits|]| | | | | |];
    try (injection H as <- <-; exists None; split; reflexivity).
  - apply layout_bitfield_inv in H
      as (w & ssize & salign & substr & Hw & Hm & _ & _ & Hu).
    exists (if w =? 0 then None else Some ssize). split.
    + unfold lift. rewrite Hw. unfold bind, ret. rewrite Hm. reflexivity.
    + rewrite Hu. destruct (w =? 0); reflexivity.
  - destruct dn as [m|].
    + apply layout_named_inv in H as (ssize & salign & substr & Hm & _ & _ & Hu).
      exists (Some ssize). split.
      * unfold bind, ret. rewrite Hm. reflexivity.
      * rewrite Hu, flush_bits_union_size. reflexivity.
    + destruct ty as [ty|[| |su]];
        try (injection H as <- <-; exists None; split;
             [reflexivity | apply flush_bits_union_size]).
      destruct (decls su);
        [|injection H as <- <-; exists None; split;
          [reflexivity | apply flush_bits_union_size]].
      apply layout_anonymous_inv in H as (substr & Hm & H).
      exists (match name su with Some _ => None | None => Some (size substr) end).
      split.
      * unfold bind, ret. rewrite Hm. reflexivity.
      * destruct (name su); [subst st'; apply flush_bits_union_size|].
        destruct H as (_ & _ & ->). rewrite flush_bits_union_size.
        reflexivity.
Qed.

Lemma for_each_member_sizes ds :
  forall st tm st' tm',
    for_each (layout_decl (parse_struct fuel) (parse_struct_member fuel) true
                          struct_name) ds st tm = OK st' tm' ->
    exists sizes,
      member_sizes fuel struct_name ds tm = OK sizes tm'
      /\ l_union_size st' = fold_left Z.max sizes (l_union_size st).
Proof.
  induction ds as [|d ds IH]; intros st tm st' tm' H.
  - injection H as <- <-. exists []. split; reflexivity.
  - rewrite for_each_cons in H.
    apply bind_inv_OK in H as (st1 & tm1 & H1 & H2).
    apply layout_decl_member_size in H1 as (sz & Hsz & Hu).
    apply IH in H2 as (sizes & Hsizes & Hu').
    exists (match sz with Some z => z :: sizes | None => sizes end). split.
    + cbn [member_sizes]. unfold bind, ret. rewrite Hsz, Hsizes. reflexivity.
    + rewrite Hu', Hu. destruct sz; reflexivity.
Qed.

End UnionSizes.

(** Rounding up to a power of two [a] with [&]: the result is the multiple
    of [a] in the [a] numbers from [x] on. *)
Lemma land_round_up x a :
  pow2 a ->
  x <= Z.land (x + a - 1) (- a) < x + a.
Proof.
  intros (k & Hk & ->). rewrite land_neg_pow2 by exact Hk.
  pose proof (Z.pow_pos_nonneg 2 k ltac:(lia) Hk) as Hpos.
  pose proof (Z.mul_div_le (x + 2 ^ k - 1) (2 ^ k) Hpos).
  pose proof (Z.mul_succ_div_gt (x + 2 ^ k - 1) (2 ^ k) Hpos).
  lia.
Qed.

Lemma flush_bits_offset st : l_offset (flush_bits false st) = final_offset st.
Proof.
  unfold flush_bits, final_offset. cbn [negb andb].
  destruct (l_bit_offset st =? 0); reflexivity.
Qed.

(** C5: of a [Struct] the layout engine returns, working on a type map
    whose cached layouts it has made itself: when the definition is a
    struct, the size is the offset at which the loop ends rounded up to
    the alignment, that is the multiple of the alignment that is at least
    this offset and less than one alignment above it; when it is a union,
    the size is the running maximum of the sizes of its members, not
    rounded up. *)
Theorem struct_size_multiple_union_size_max :
  forall (fuel : nat) (struct : StructUnion) (tm : TypeMap)
         (layout : Struct) (tm' : TypeMap),
    typemap_ok tm ->
    do_parse_struct (S fuel) struct tm = OK layout tm' ->
    (is_union struct = false ->
     exists ds st,
       decls struct = Some ds
       /\ layout_prefix fuel struct ds tm = OK st tm'
       /\ size layout mod align layout = 0
       /\ final_offset st <= size layout < final_offset st + align layout)
    /\ (is_union struct = true ->
        exists ds sizes,
          decls struct = Some ds
          /\ member_sizes fuel (name struct) ds tm = OK sizes tm'
          /\ size layout = max_size sizes).
Proof.
  intros fuel struct tm layout tm' Htm H.
  pose proof (proj2 (proj2 (layout_engine_ok (S fuel))) _ _ _ _ Htm H)
    as [_ Hal].
  apply do_parse_struct_inv in H as (ds & st & Hds & _ & Hrun & ->).
  split; intros Hu.
  - exists ds, st. split; [exact Hds|]. split; [exact Hrun|].
    rewrite finish_layout_align in Hal |- *.
    unfold finish_layout. rewrite Hu. cbn [size].
    rewrite flush_bits_align, flush_bits_offset. split.
    + apply land_neg_pow2_mod. exact Hal.
    + apply land_round_up. exact Hal.
  - exists ds. unfold layout_prefix in Hrun. rewrite Hu in Hrun.
    apply for_each_member_sizes in Hrun as (sizes & Hsizes & Hmax).
    exists sizes. repeat split; [exact Hds | exact Hsizes |].
    unfold finish_layout. rewrite Hu. cbn [size].
    unfold flush_bits. cbn [negb andb]. exact Hmax.
Qed.

(** [struct Wrap { struct A a; char t; };] ends at offset 13 and gets size
    16; [struct B { unsigned x : 3; unsigned y : 5; unsigned z : 20; };]
    ends in an open run of bitfields at offset 3, which counts as 4;
    [union U { int i; char c[7]; };] keeps size 7. *)
Lemma struct_size_multiple_union_size_max_witness :
  typemap_ok empty_typemap
  /\ (exists layout tm',
         do_parse_struct 6 Scenario.struct_Wrap empty_typemap = OK layout tm'
         /\ size layout = 16 /\ align layout = 4
         /\ exists ds st,
             decls Scenario.struct_Wrap = Some ds
             /\ layout_prefix 5 Scenario.struct_Wrap ds empty_typemap
                = OK st tm'
             /\ final_offset st = 13
             /\ size layout mod align layout = 0
             /\ final_offset st <= size layout < final_offset st + align layout)
  /\ (exists layout tm',
         do_parse_struct 3 Scenario.struct_B empty_typemap = OK layout tm'
         /\ size layout = 4 /\ align layout = 4
         /\ exists ds st,
             decls Scenario.struct_B = Some ds
             /\ layout_prefix 2 Scenario.struct_B ds empty_typemap = OK st tm'
             /\ l_offset st = 3 /\ final_offset st = 4
             /\ size layout mod align layout = 0
             /\ final_offset st <= size layout < final_offset st + align layout)
  /\ (exists layout tm',
         do_parse_struct 3 Scenario.union_U empty_typemap = OK layout tm'
         /\ size layout = 7 /\ align layout = 4
         /\ exists ds sizes,
             decls Scenario.union_U = Some ds
             /\ member_sizes 2 (name Scenario.union_U) ds empty_typemap
                = OK sizes tm'
             /\ size layout = max_size sizes).
Proof.
  split; [exact typemap_ok_empty|]. split; [|split].
  - assert (E : exists layout tm',
               do_parse_struct 6 Scenario.struct_Wrap empty_typemap
               = OK layout tm' /\ size layout = 16 /\ align layout = 4)
      by (do 2 eexists; split; [vm_compute; reflexivity|]; split; reflexivity).
    destruct E as (layout & tm' & E & Hs & Ha).
    exists layout, tm'. split; [exact E|]. split; [exact Hs|].
    split; [exact Ha|].
    destruct (proj1 (struct_size_multiple_union_size_max
                       5 Scenario.struct_Wrap empty_typemap layout tm'
                       typemap_ok_empty E) eq_refl)
      as (ds & st & Hds & Hrun & Hmod & Hround).
    exists ds, st. split; [exact Hds|]. split; [exact Hrun|].
    split; [|split; [exact Hmod | exact Hround]].
    injection Hds as <-.
    assert (Hst : Some (final_offset st) = Some 13).
    { transitivity
        (match layout_prefix 5 Scenario.struct_Wrap
                 (match decls Scenario.struct_Wrap with
                  | Some ds => ds | None => []
                  end) empty_typemap with
         | OK st _ => Some (final_offset st)
         | _ => None
         end).
      - cbn [decls Scenario.struct_Wrap]. rewrite Hrun. reflexivity.
      - vm_compute. reflexivity. }
    injection Hst as Hst. exact Hst.
  - assert (E : exists layout tm',
               do_parse_struct 3 Scenario.struct_B empty_typemap
               = OK layout tm' /\ size layout = 4 /\ align layout = 4)
      by (do 2 eexists; split; [vm_compute; reflexivity|]; split; reflexivity).
    destruct E as (layout & tm' & E & Hs & Ha).
    exists layout, tm'. split; [exact E|]. split; [exact Hs|].
    split; [exact Ha|].
    destruct (proj1 (struct_size_multiple_union_size_max
                       2 Scenario.struct_B empty_typemap layout tm'
                       typemap_ok_empty E) eq_refl)
      as (ds & st & Hds & Hrun & Hmod & Hround).
    exists ds, st. split; [exact Hds|]. split; [exact Hrun|].
    injection Hds as <-.
    assert (Hst : Some (l_offset st, final_offset st) = Some (3, 4)).
    { transitivity
        (match layout_prefix 2 Scenario.struct_B
                 (match decls Scenario.struct_B with
                  | Some ds => ds | None => []
                  end) empty_typemap with
         | OK st _ => Some (l_offset st, final_offset st)
         | _ => None
         end).
      - cbn [decls Scenario.struct_B]. rewrite Hrun. reflexivity.
      - vm_compute. reflexivity. }
    injection Hst as Ho Hf.
    split; [exact Ho|]. split; [exact Hf|]. split; [exact Hmod | exact Hround].
  - do 2 eexists.
    split; [vm_compute; reflexivity|].
    split; [reflexivity|]. split; [reflexivity|].
    eapply (proj2 (struct_size_multiple_union_size_max
                     2 Scenario.union_U empty_typemap _ _ typemap_ok_empty _)).
    reflexivity.
    Unshelve. vm_compute. reflexivity.
Defined.

(** ** The type-map builder (C10) *)


(** What the layout engine does to the type map is to store layouts: a
    property of the map that storing a layout keeps is kept throughout. *)
Section EngineFrame.

Variable Q : TypeMap -> Prop.
Hypothesis Q_store : forall su T tm, Q tm -> Q (store_struct su T tm).

Section Loop.
Variable parse_struct_f : StructUnion -> M Struct.
Variable parse_struct_member_f :
  DeclType -> string -> M (Z * Z * option Struct).
Variable u : bool.
Variable struct_name : option string.
Hypothesis parse_struct_f_frame :
  forall su tm T tm', Q tm -> parse_struct_f su tm = OK T tm' -> Q tm'.
Hypothesis parse_struct_member_f_frame :
  forall ty fn tm r tm',
    Q tm -> parse_struct_member_f ty fn tm = OK r tm' -> Q tm'.

Lemma layout_decl_frame st decl tm st' tm' :
  Q tm ->
  layout_decl parse_struct_f parse_struct_member_f u struct_name st decl tm
  = OK st' tm' ->
  Q tm'.
Proof.
  intros HQ H. unfold layout_decl in H.
  destruct decl as [dn ty [bits|]| | | | | |];
    try (injection H as <- <-; exact HQ).
  - apply layout_bitfield_inv in H as (? & ? & ? & ? & _ & Hm & _).
    eauto.
  - destruct dn as [m|].
    + apply layout_named_inv in H as (? & ? & ? & Hm & _). eauto.
    + destruct ty as [ty|[| |su]]; try (injection H as <- <-; exact HQ).
      destruct (decls su); [|injection H as <- <-; exact HQ].
      apply layout_anonymous_inv in H as (substr & Hm & _). eauto.
Qed.
End Loop.

Lemma engine_frame fuel :
  (forall su tm T tm', Q tm -> parse_struct fuel su tm = OK T tm' -> Q tm')
  /\ (forall ty fn tm r tm',
         Q tm -> parse_struct_member fuel ty fn tm = OK r tm' -> Q tm')
  /\ (forall su tm T tm',
         Q tm -> do_parse_struct fuel su tm = OK T tm' -> Q tm').
Proof.
  induction fuel as [|fuel (IHps & IHpsm & IHdo)].
  { repeat split; intros; discriminate. }
  split; [|split].
  - intros su tm T tm' HQ H. rewrite parse_struct_eq in H.
    destruct (get_struct su tm).
    + injection H as <- <-. exact HQ.
    + destruct (decls su); [|discriminate H].
      destruct (do_parse_struct fuel su tm) as [r tm1| |] eqn:Ed;
        try discriminate H.
      injection H as <- <-. eauto.
  - intros ty fn tm r tm' HQ H.
    destruct ty as [ty|inner]; [|discriminate H].
    rewrite parse_struct_member_eq in H.
    destruct (resolve_typedefs (S fuel) ty tm)
      as [[x|elt [dim|]|d inner|args rt]|]; try discriminate H.
    + injection H as <- <-. exact HQ.
    + apply bind_inv_OK in H as (n & tm1 & Hn & H).
      destruct (parse_constant_int dim); [|discriminate Hn].
      injection Hn as <- <-.
      apply bind_inv_OK in H as ([[esize ealign] esub] & tm2 & He & H).
      injection H as <- <-. eauto.
    + destruct inner as [names|en|inner].
      * apply bind_inv_OK in H as (psize & tm1 & Hp & H).
        destruct (primitive_size (IdentifierType names)); [|discriminate Hp].
        injection Hp as <- <-. injection H as <- <-. exact HQ.
      * apply bind_inv_OK in H as (psize & tm1 & Hp & H).
        destruct (primitive_size (Enum en)); [|discriminate Hp].
        injection Hp as <- <-. injection H as <- <-. exact HQ.
      * apply bind_inv_OK in H as (substr & tm1 & Hp & H).
        injection H as <- <-. eauto.
  - intros su tm T tm' HQ H.
    apply do_parse_struct_inv in H as (ds & st & _ & _ & Hrun & _).
    unfold layout_prefix in Hrun.
    refine (for_each_invariant _ (fun _ tm => Q tm) ds _ _ _ _ _ HQ Hrun).
    intros d st0 tm0 st1 tm1 _ H0 H1.
    eapply layout_decl_frame; [exact IHps | exact IHpsm | exact H0 | exact H1].
Qed.

End EngineFrame.

(** The layout engine leaves [var_types] and [functions] alone. *)
Lemma parse_struct_vars fuel su tm T tm' :
  parse_struct fuel su tm = OK T tm' ->
  var_types tm' = var_types tm /\ functions tm' = functions tm.
Proof.
  intros H.
  refine (proj1 (engine_frame
                   (fun t => var_types t = var_types tm
                             /\ functions t = functions tm) _ fuel)
                su tm T tm' _ H); [|auto].
  intros su' T' t Ht. unfold store_struct.
  destruct (Py.truthy _); exact Ht.
Qed.

Section AssignAll.

Implicit Types (m : gmap string DeclType) (l : list (string * DeclType)).

Lemma assign_all_app l1 l2 m :
  assign_all (l1 ++ l2) m = assign_all l2 (assign_all l1 m).
Proof. apply fold_left_app. Qed.

Lemma assign_all_cons b l m :
  assign_all (b :: l) m = assign_all l (<[fst b := snd b]> m).
Proof. reflexivity. Qed.

(** Names that are not assigned keep their entry. *)
Lemma assign_all_other l m n :
  ~ In n (map fst l) -> assign_all l m !! n = m !! n.
Proof.
  revert m. induction l as [|[k v] l IH]; intros m Hn; [reflexivity|].
  rewrite assign_all_cons, IH by (intros ?; apply Hn; right; assumption).
  cbn [fst snd]. apply lookup_insert_ne. intros ->. apply Hn. left. reflexivity.
Qed.

(** An entry never goes away. *)
Lemma assign_all_keeps l m n :
  is_Some (m !! n) -> is_Some (assign_all l m !! n).
Proof.
  revert m. induction l as [|[k v] l IH]; intros m Hn; [exact Hn|].
  rewrite assign_all_cons. apply IH. cbn [fst snd].
  destruct (decide (k = n)) as [->|Hne].
  - rewrite lookup_insert_eq. eauto.
  - rewrite lookup_insert_ne by exact Hne. exact Hn.
Qed.

(** The last assignment to a name decides its entry. *)
Lemma assign_all_last l1 n v l2 m :
  ~ In n (map fst l2) ->
  assign_all (l1 ++ (n, v) :: l2) m !! n = Some v.
Proof.
  intros Hn. rewrite assign_all_app, assign_all_cons.
  rewrite assign_all_other by exact Hn. apply lookup_insert_eq.
Qed.

End AssignAll.

Section VisitFacts.

Variable fuel : nat.

Lemma visits_ret {A} (a : A) : visits_as [] (ret a).
Proof. intros tm r tm' H. injection H as <- <-. auto. Qed.

Lemma visits_raise {A} e : visits_as [] (@raise A e).
Proof. intros tm r tm' H. discriminate H. Qed.

Lemma visits_bind {A B} l1 l2 (c : M A) (k : A -> M B) :
  visits_as l1 c -> (forall a, visits_as l2 (k a)) ->
  visits_as (l1 ++ l2) (bind c k).
Proof.
  intros Hc Hk tm r tm' H.
  apply bind_inv_OK in H as (a & tm1 & H1 & H2).
  apply Hc in H1 as [V1 F1]. apply Hk in H2 as [V2 F2].
  rewrite assign_all_app, V2, V1, F2, F1. auto.
Qed.

Lemma visits_assign n ty :
  visits_as [(n, ty)] (modify (set_var_types (insert n ty))).
Proof. intros tm r tm' H. injection H as <- <-. auto. Qed.

Lemma visits_Inner inner : visits_as [] (Visitor.visit_Inner fuel inner).
Proof.
  intros tm r tm' H. destruct inner as [names|[en|]|su]; cbn in H.
  - injection H as <- <-. auto.
  - injection H as <- <-. auto.
  - injection H as <- <-. auto.
  - unfold Visitor.visit_Struct in H.
    destruct (decls su); [|injection H as <- <-; auto].
    apply bind_inv_OK in H as (T & tm1 & H1 & H2).
    injection H2 as <- <-. apply parse_struct_vars in H1. exact H1.
Qed.

Lemma visit_Type_FuncDecl args t :
  Visitor.visit_Type fuel (FuncDecl args t)
  = (_ <- match args with
          | Some ps => visit_params fuel ps
          | None => ret tt
          end ;;
     Visitor.visit_Type fuel t).
Proof. reflexivity. Qed.

Lemma visit_Decl_eq name type bitsize :
  Visitor.visit fuel (Decl name type bitsize)
  = (_ <- match name with
          | Some name => modify (set_var_types (insert name type))
          | None => ret tt
          end ;;
     match type with
     | inl (FuncDecl _ _) => ret tt
     | inl type => Visitor.visit_Type fuel type
     | inr type => Visitor.visit_Inner fuel type
     end).
Proof. reflexivity. Qed.

Lemma visits_params ps :
  Forall (fun n => visits_as (Node_bindings n) (Visitor.visit fuel n)) ps ->
  visits_as (flat_map Node_bindings ps) (visit_params fuel ps).
Proof.
  induction 1 as [|n ps Hn _ IH].
  - apply visits_ret.
  - cbn [flat_map]. apply visits_bind; [exact Hn | intros _; exact IH].
Qed.

Local Abbreviation P := (Type_visited fuel).
Local Abbreviation Q := (Node_visited fuel).

Lemma visits_FuncDecl args t :
  Forall Q (match args with Some ps => ps | None => [] end) ->
  P t -> P (FuncDecl args t).
Proof.
  unfold Type_visited, Node_visited. intros Hps IH. rewrite visit_Type_FuncDecl.
  cbn [Type_bindings]. apply visits_bind; [|intros _; exact IH].
  destruct args as [ps|]; [apply visits_params; exact Hps | apply visits_ret].
Qed.

Lemma visits_Decl n ty b :
  match ty with inl t => P t | inr _ => True end -> Q (Decl n ty b).
Proof.
  unfold Type_visited, Node_visited. intros IH. rewrite visit_Decl_eq. cbn [Node_bindings].
  apply visits_bind.
  - destruct n; [apply visits_assign | apply visits_ret].
  - intros _. destruct ty as [[| | |]|i];
      first [apply visits_ret | exact IH | apply visits_Inner].
Qed.

Lemma visits_FuncDef d : Q (FuncDef d).
Proof.
  unfold Node_visited. destruct d as [[nm|] ty b| | | | | |]; cbn;
    first [apply visits_assign | apply visits_ret | apply visits_raise].
Qed.

(** The visitor makes the assignments of [Type_bindings] and
    [Node_bindings]. *)
Lemma visits_Type t : visits_as (Type_bindings t) (Visitor.visit_Type fuel t).
Proof.
  revert t. apply (Type_visit_ind P Q).
  - intros t IH. exact IH.
  - intros t d IH. exact IH.
  - intros d i. apply visits_Inner.
  - apply visits_FuncDecl.
  - apply visits_Decl.
  - intros n t IH. exact IH.
  - apply visits_FuncDef.
  - intros t IH. exact IH.
  - apply visits_ret.
  - intros n. apply visits_ret.
  - intros s. apply visits_ret.
Qed.

Lemma visits_Node n : visits_as (Node_bindings n) (Visitor.visit fuel n).
Proof.
  revert n. apply (Node_visit_ind P Q).
  - intros t IH. exact IH.
  - intros t d IH. exact IH.
  - intros d i. apply visits_Inner.
  - apply visits_FuncDecl.
  - apply visits_Decl.
  - intros n t IH. exact IH.
  - apply visits_FuncDef.
  - intros t IH. exact IH.
  - apply visits_ret.
  - intros n. apply visits_ret.
  - intros s. apply visits_ret.
Qed.

Lemma visits_ext ext :
  visits_as (flat_map Node_bindings ext)
            (for_each (fun _ item => Visitor.visit fuel item) ext tt).
Proof.
  induction ext as [|item ext IH].
  - apply visits_ret.
  - rewrite for_each_cons. cbn [flat_map].
    apply visits_bind; [apply visits_Node | intros []; exact IH].
Qed.

End VisitFacts.

(** The first loop of [build_typemap] records the declared functions and
    leaves [var_types] alone. *)
Lemma collect_item_spec item tm r tm' :
  collect_item item tm = OK r tm' ->
  var_types tm' = var_types tm
  /\ (forall n, is_Some (functions tm !! n) -> is_Some (functions tm' !! n))
  /\ (forall n, declares_function item n -> is_Some (functions tm' !! n)).
Proof.
  assert (Hins : forall nm fn t,
             (forall n, is_Some (functions t !! n) ->
                        is_Some (functions (set_functions (insert nm fn) t) !! n))
             /\ is_Some (functions (set_functions (insert nm fn) t) !! nm)).
  { intros nm fn t. cbn [set_functions functions]. split.
    - intros n Hn. destruct (decide (nm = n)) as [->|Hne].
      + rewrite lookup_insert_eq. eauto.
      + rewrite lookup_insert_ne by exact Hne. exact Hn.
    - rewrite lookup_insert_eq. eauto. }
  intros H. unfold collect_item in H.
  destruct item as [dn ty b|nm t|d| | | |].
  - destruct ty as [[| | |args rt]|i];
      try (injection H as <- <-; repeat split; auto;
           intros n [(? & ? & ? & [=])|(? & ? & [=])]).
    destruct dn as [nm|]; [|discriminate H].
    apply bind_inv_OK in H as (fn & tm1 & H1 & H2).
    unfold lift in H1. destruct (parse_function _); [|discriminate H1].
    injection H1 as <- <-. injection H2 as <- <-.
    destruct (Hins nm a tm) as [Hk Hn]. repeat split; auto.
    intros n [(? & ? & ? & [= <-])|(? & ? & [=])]. exact Hn.
  - injection H as <- <-. repeat split; auto.
    intros n [(? & ? & ? & [=])|(? & ? & [=])].
  - destruct d as [[nm|] ty b| | | | | |]; try discriminate H.
    destruct ty as [[| | |args rt]|i]; try discriminate H.
    apply bind_inv_OK in H as (fn & tm1 & H1 & H2).
    unfold lift in H1. destruct (parse_function _); [|discriminate H1].
    injection H1 as <- <-. injection H2 as <- <-.
    destruct (Hins nm a tm) as [Hk Hn]. repeat split; auto.
    intros n [(? & ? & ? & [=])|(? & ? & [= <-])]. exact Hn.
  - injection H as <- <-. repeat split; auto.
    intros n [(? & ? & ? & [=])|(? & ? & [=])].
  - injection H as <- <-. repeat split; auto.
    intros n [(? & ? & ? & [=])|(? & ? & [=])].
  - injection H as <- <-. repeat split; auto.
    intros n [(? & ? & ? & [=])|(? & ? & [=])].
  - injection H as <- <-. repeat split; auto.
    intros n [(? & ? & ? & [=])|(? & ? & [=])].
Qed.

Lemma collect_ext_spec ext :
  forall tm r tm',
    for_each (fun _ item => collect_item item) ext tt tm = OK r tm' ->
    var_types tm' = var_types tm
    /\ (forall n, is_Some (functions tm !! n) -> is_Some (functions tm' !! n))
    /\ (forall item n, In item ext -> declares_function item n ->
                       is_Some (functions tm' !! n)).
Proof.
  induction ext as [|item ext IH]; intros tm r tm' H.
  - injection H as <- <-. repeat split; auto. intros ? ? [].
  - rewrite for_each_cons in H.
    apply bind_inv_OK in H as ([] & tm1 & H1 & H2).
    apply collect_item_spec in H1 as (V1 & K1 & D1).
    apply IH in H2 as (V2 & K2 & D2).
    repeat split.
    + congruence.
    + auto.
    + intros it n [<-|Hin] Hd; eauto.
Qed.

(** C10, as the code has it: after [build_typemap], [var_types] is the
    result of the visitor's assignments in the order of the visit; so
    every named top-level declaration (a function prototype as well as a
    variable or a function definition) has an entry under its name, which
    holds its declared type when the name is not declared again after it;
    and a declared function name is in [functions] as well. *)
Theorem declarations_in_var_types :
  forall (fuel : nat) (ext : list Node) (tm tm' : TypeMap)
         (pre post : list Node) (item : Node) (n : string) (ty : DeclType),
    build_typemap fuel ext = OK tm tm' ->
    ext = pre ++ item :: post ->
    declares item n ty ->
    var_types tm = assign_all (flat_map Node_bindings ext) ∅
    /\ is_Some (var_types tm !! n)
    /\ (~ In n (map fst (tl (Node_bindings item)
                         ++ flat_map Node_bindings post)) ->
        var_types tm !! n = Some ty)
    /\ (declares_function item n -> is_Some (functions tm !! n)).
Proof.
  intros fuel ext tm tm' pre post item n ty H -> Hdecl.
  unfold build_typemap in H.
  apply bind_inv_OK in H as ([] & tm1 & H1 & H).
  apply bind_inv_OK in H as ([] & tm2 & H2 & H).
  injection H as <- <-.
  apply collect_ext_spec in H1 as (V1 & _ & D1).
  apply visits_ext in H2 as (V2 & F2).
  cbn [empty_typemap var_types] in V1. rewrite V1 in V2.
  assert (Hb : Node_bindings item = (n, ty) :: tl (Node_bindings item)).
  { destruct Hdecl as [[b ->]|[b ->]]; reflexivity. }
  assert (Hall : flat_map Node_bindings (pre ++ item :: post)
                 = flat_map Node_bindings pre
                   ++ (n, ty) :: (tl (Node_bindings item)
                                  ++ flat_map Node_bindings post)).
  { rewrite flat_map_app. cbn [flat_map]. rewrite Hb at 1. reflexivity. }
  split; [exact V2|]. rewrite V2, Hall. split; [|split].
  - rewrite assign_all_app, assign_all_cons. apply assign_all_keeps.
    cbn [fst snd]. rewrite lookup_insert_eq. eauto.
  - intros Hlast. apply assign_all_last. exact Hlast.
  - intros Hf. rewrite F2. eapply D1; [|exact Hf].
    apply in_elt.
Qed.

Lemma declarations_in_var_types_witness :
  let fty := FuncDecl (Some [Typename (TypeDecl None (IdentifierType ["int"]))])
                      (TypeDecl (Some "f") (IdentifierType ["int"])) in
  exists tm,
    build_typemap 1 [Redeclared.prototype] = OK tm tm
    /\ declares Redeclared.prototype "f" (inl fty)
    /\ var_types tm = assign_all (flat_map Node_bindings [Redeclared.prototype]) ∅
    /\ is_Some (var_types tm !! "f")
    /\ (~ In "f" (map fst (tl (Node_bindings Redeclared.prototype)
                           ++ flat_map Node_bindings [])) ->
        var_types tm !! "f" = Some (inl fty))
    /\ (declares_function Redeclared.prototype "f" ->
        is_Some (functions tm !! "f")).
Proof.
  cbv zeta. eexists.
  split; [vm_compute; reflexivity|].
  assert (D : declares Redeclared.prototype "f"
                (inl (FuncDecl
                        (Some [Typename (TypeDecl None (IdentifierType ["int"]))])
                        (TypeDecl (Some "f") (IdentifierType ["int"])))))
    by (left; exists None; reflexivity).
  split; [exact D|].
  eapply (declarations_in_var_types 1 [Redeclared.prototype] _ _ []
            [] Redeclared.prototype "f").
  - vm_compute. reflexivity.
  - reflexivity.
  - exact D.
Defined.

(** C10 as stated fails on [extern int a[]; int a[3];]: after
    [build_typemap] the entry of [a] holds the type of the second
    declaration, not the declared type of the first. *)
Lemma redeclared_name_has_last_type :
  exists tm,
    build_typemap 1 Redeclared.ext = OK tm tm
    /\ declares (Decl (Some "a") (inl (ArrayDecl Redeclared.int None)) None)
                "a" (inl (ArrayDecl Redeclared.int None))
    /\ In (Decl (Some "a") (inl (ArrayDecl Redeclared.int None)) None)
          Redeclared.ext
    /\ var_types tm !! "a" <> Some (inl (ArrayDecl Redeclared.int None)).
Proof.
  eexists. split; [vm_compute; reflexivity|].
  split; [left; exists None; reflexivity|].
  split; [left; reflexivity|].
  vm_compute. discriminate.
Qed.

(* ===================================================================== *)
(** * Properties of the rest of the module *)
(* ===================================================================== *)

(** ** Typedef resolution *)

(** [resolve_typedefs] stops at a type that is not a typedef name. *)
Lemma resolve_typedefs_stops fuel :
  forall t tm r,
    resolve_typedefs fuel t tm = Some r -> ~ is_typedef_name r tm.
Proof.
  induction fuel as [|fuel IH]; intros t tm r H; [discriminate H|].
  cbn [resolve_typedefs] in H.
  destruct t as [x|x dim|d [[|n [|n' names]]|en|su]|args rt];
    try (injection H as <-; intros (d' & n0 & [=] & _)).
  destruct (typedefs tm !! n) as [t'|] eqn:E.
  - eapply IH. exact H.
  - injection H as <-. intros (d' & n0 & [= -> ->] & Hs).
    rewrite E in Hs. destruct Hs as [? [=]].
Qed.

Lemma resolve_typedefs_fixed fuel t tm :
  ~ is_typedef_name t tm -> resolve_typedefs (S fuel) t tm = Some t.
Proof.
  intros H. cbn [resolve_typedefs].
  destruct t as [x|x dim|d [[|n [|n' names]]|en|su]|args rt]; try reflexivity.
  destruct (typedefs tm !! n) as [t'|] eqn:E; [|reflexivity].
  exfalso. apply H. exists d, n. rewrite E. eauto.
Qed.

(** X1: what [resolve_typedefs] returns is not a typedef name any more,
    and resolving it again gives it back. *)
Theorem resolve_typedefs_idempotent :
  forall (fuel : nat) (t : Type_) (tm : TypeMap) (r : Type_),
    resolve_typedefs fuel t tm = Some r ->
    ~ is_typedef_name r tm /\ resolve_typedefs fuel r tm = Some r.
Proof.
  intros fuel t tm r H.
  pose proof (resolve_typedefs_stops _ _ _ _ H) as Hr.
  split; [exact Hr|].
  destruct (resolve_typedefs_fuel _ _ _ _ H) as [fuel' ->].
  apply resolve_typedefs_fixed. exact Hr.
Qed.

Lemma resolve_typedefs_idempotent_witness :
  resolve_typedefs 3 (Sample.named "U") Sample.typedefs_TU = Some Sample.int
  /\ ~ is_typedef_name Sample.int Sample.typedefs_TU
  /\ resolve_typedefs 3 Sample.int Sample.typedefs_TU = Some Sample.int.
Proof.
  split; [vm_compute; reflexivity|].
  apply (resolve_typedefs_idempotent 3 (Sample.named "U") Sample.typedefs_TU).
  vm_compute. reflexivity.
Defined.

(** ** Decay and dereference *)

(** X2: [deref_type] undoes [pointer_decay]: for a type that resolves to
    an array, the decayed pointer and the array dereference to the same
    element type; for a type that resolves to a function, the decayed
    pointer dereferences to the type as it was written, typedef name
    included. *)
Theorem deref_type_of_pointer_decay :
  forall (fuel : nat) (t : Type_) (tm : TypeMap) (p : Type_),
    pointer_decay fuel t tm = Some (Ok p) ->
    (forall elt dim,
        resolve_typedefs fuel t tm = Some (ArrayDecl elt dim) ->
        deref_type fuel p tm = Some (Ok elt)
        /\ deref_type fuel t tm = Some (Ok elt))
    /\ (forall args rt,
           resolve_typedefs fuel t tm = Some (FuncDecl args rt) ->
           deref_type fuel p tm = Some (Ok t)).
Proof.
  intros fuel t tm p H. unfold pointer_decay in H.
  destruct (resolve_typedefs fuel t tm) as [real|] eqn:E; [|discriminate H].
  destruct (resolve_typedefs_fuel _ _ _ _ E) as [fuel' ->].
  split.
  - intros elt dim [= ->]. injection H as <-. split.
    + reflexivity.
    + unfold deref_type. rewrite E. reflexivity.
  - intros args rt [= ->]. injection H as <-. reflexivity.
Qed.

Lemma deref_type_of_pointer_decay_witness :
  pointer_decay 2 (Sample.named "F") Sample.typedefs_TU
  = Some (Ok (PtrDecl (Sample.named "F")))
  /\ resolve_typedefs 2 (Sample.named "F") Sample.typedefs_TU
     = Some (FuncDecl (Some [Typename Sample.int]) Sample.int)
  /\ deref_type 2 (PtrDecl (Sample.named "F")) Sample.typedefs_TU
     = Some (Ok (Sample.named "F")).
Proof.
  split; [vm_compute; reflexivity|]. split; [vm_compute; reflexivity|].
  eapply (proj2 (deref_type_of_pointer_decay 2 (Sample.named "F")
                   Sample.typedefs_TU (PtrDecl (Sample.named "F")) _)).
  vm_compute. reflexivity.
  Unshelve. vm_compute. reflexivity.
Defined.

(** ** Primitive sizes *)

(** X3: on an identifier type or an enum [primitive_size] does not fail,
    and the size is 1, 2, 4 or 8; [double] in the names makes it 8
    whatever else is there. *)
Theorem primitive_size_values :
  forall inner : Inner,
    (forall su, inner <> SU su) ->
    exists sz,
      primitive_size inner = Ok sz
      /\ (sz = 1 \/ sz = 2 \/ sz = 4 \/ sz = 8)
      /\ (forall names, inner = IdentifierType names ->
                        In "double" names -> sz = 8).
Proof.
  intros inner Hsu. destruct inner as [names|en|su].
  - unfold primitive_size.
    destruct (str_in "double" names) eqn:Ed.
    { exists 8. repeat split; auto. }
    assert (Hnd : ~ In "double" names).
    { intros Hin. unfold str_in in Ed.
      assert (existsb (String.eqb "double") names = true).
      { apply existsb_exists. exists "double". split; [exact Hin|].
        apply String.eqb_refl. }
      congruence. }
    repeat match goal with
           | |- context [if ?c then _ else _] => destruct c
           end; eexists; (split; [reflexivity|]); (split; [auto|]);
      intros names' [= <-] Hin; contradiction.
  - exists 4. repeat split; auto. intros names [=].
  - exfalso. eapply Hsu. reflexivity.
Qed.

Lemma primitive_size_values_witness :
  exists sz,
    primitive_size (IdentifierType ["long"; "double"]) = Ok sz
    /\ (sz = 1 \/ sz = 2 \/ sz = 4 \/ sz = 8)
    /\ (forall names, IdentifierType ["long"; "double"] = IdentifierType names ->
                      In "double" names -> sz = 8).
Proof.
  apply (primitive_size_values (IdentifierType ["long"; "double"])).
  intros su. discriminate.
Defined.

(** ** Sizes of function arguments and of variables *)

(** X4: [function_arg_size_align] and [var_size_align] differ on arrays
    only: an array argument is a pointer, of size and alignment 4; for any
    other type for which [function_arg_size_align] returns, a struct or
    union with an empty tag apart, [var_size_align] returns the same pair
    and leaves the type map as it is. *)
Theorem function_arg_size_align_agrees :
  forall (fuel : nat) (t : Type_) (tm : TypeMap) (sz al : Z),
    function_arg_size_align (S fuel) t tm = Some (Ok (sz, al)) ->
    (forall elt dim,
        resolve_typedefs (S fuel) t tm = Some (ArrayDecl elt dim) ->
        sz = 4 /\ al = 4)
    /\ ((forall elt dim,
            resolve_typedefs (S fuel) t tm <> Some (ArrayDecl elt dim)) ->
        (forall d su,
            resolve_typedefs (S fuel) t tm = Some (TypeDecl d (SU su)) ->
            name su <> Some "") ->
        var_size_align (S (S fuel)) t tm = OK (sz, al) tm).
Proof.
  intros fuel t tm sz al H. unfold function_arg_size_align in H.
  destruct (resolve_typedefs (S fuel) t tm) as [real|] eqn:E; [|discriminate H].
  pose proof (resolve_typedefs_mono _ (S (S fuel)) _ _ _
                (Nat.le_succ_diag_r _) E) as E'.
  split.
  - intros elt dim [= ->]. injection H as <- <-. auto.
  - intros Harr Htag. unfold var_size_align.
    destruct real as [x|x dim|d [names|en|su]|args rt].
    + injection H as <- <-.
      erewrite bind_OK
        by (rewrite parse_struct_member_eq, E'; reflexivity).
      reflexivity.
    + exfalso. eapply Harr. reflexivity.
    + destruct (primitive_size (IdentifierType names)) as [psize|] eqn:Ep;
        [|discriminate H].
      injection H as <- <-.
      erewrite bind_OK
        by (rewrite parse_struct_member_eq, E'; unfold bind, lift;
            rewrite Ep; reflexivity).
      reflexivity.
    + injection H as <- <-.
      erewrite bind_OK
        by (rewrite parse_struct_member_eq, E'; reflexivity).
      reflexivity.
    + destruct (name su) as [n|] eqn:En; [|discriminate H].
      destruct (named_structs tm !! n) as [struct|] eqn:Es; [|discriminate H].
      injection H as <- <-.
      assert (Ht : Py.truthy (Some n) = true).
      { cbn [Py.truthy]. destruct (String.eqb_spec n ""); [|reflexivity].
        subst n. exfalso. eapply Htag; [reflexivity | exact En]. }
      assert (Hps : parse_struct (S fuel) su tm = OK struct tm).
      { rewrite parse_struct_eq. unfold get_struct. rewrite En, Ht.
        cbn [Py.str_opt]. rewrite Es. reflexivity. }
      erewrite bind_OK
        by (rewrite parse_struct_member_eq, E'; erewrite bind_OK by exact Hps;
            reflexivity).
      reflexivity.
    + discriminate H.
Qed.

Lemma function_arg_size_align_agrees_witness :
  function_arg_size_align 3 (Sample.named "U") Sample.typedefs_TU
  = Some (Ok (4, 4))
  /\ var_size_align 4 (Sample.named "U") Sample.typedefs_TU
     = OK (4, 4) Sample.typedefs_TU.
Proof.
  split; [vm_compute; reflexivity|].
  apply (proj2 (function_arg_size_align_agrees 2 (Sample.named "U")
                  Sample.typedefs_TU 4 4 eq_refl)).
  - intros elt dim. vm_compute. discriminate.
  - intros d su. vm_compute. discriminate.
Defined.

(** ** Function signatures *)

Lemma parse_function_args_prototype args :
  forall params is_variadic has_void,
    forallb is_prototype_param args = true ->
    parse_function_args (params, is_variadic, has_void) args
    = Ok (params ++ flat_map param_of args,
          is_variadic || existsb is_ellipsis args,
          has_void || existsb is_void_param args).
Proof.
  induction args as [|arg args IH]; intros params v h Hall.
  - cbn. rewrite app_nil_r, !orb_false_r. reflexivity.
  - cbn [forallb] in Hall. apply andb_true_iff in Hall as [Harg Hall].
    cbn [parse_function_args flat_map existsb].
    destruct arg as [n ty b| | |ty| | |]; try discriminate Harg;
      cbn [parse_function_arg param_of is_ellipsis is_void_param].
    + rewrite (IH _ _ _ Hall), <- app_assoc. reflexivity.
    + destruct (is_void ty); rewrite (IH _ _ _ Hall).
      * rewrite orb_true_r. reflexivity.
      * rewrite <- app_assoc. reflexivity.
    + rewrite (IH _ _ _ Hall), orb_true_r. reflexivity.
Qed.

(** X5: on a prototype whose parameter list holds declarations, type names
    and the ellipsis, [parse_function] returns the declared parameters in
    order, a [void] type name giving none; [is_variadic] tells whether
    there is an ellipsis; and [params] is [None] exactly when the list
    gives no parameter, no [void] and no ellipsis. *)
Theorem parse_function_prototype :
  forall (args : list Node) (ret : Type_),
    forallb is_prototype_param args = true ->
    parse_function (FuncDecl (Some args) ret)
    = Ok (mkFunction
            (return_type ret)
            (match flat_map param_of args with
             | [] =>
                 if negb (existsb is_void_param args)
                    && negb (existsb is_ellipsis args)
                 then None else Some []
             | ps => Some ps
             end)
            (existsb is_ellipsis args)).
Proof.
  intros args ret Hall. unfold parse_function.
  rewrite (parse_function_args_prototype args [] false false Hall).
  cbn [app orb]. unfold return_type.
  destruct (flat_map param_of args); reflexivity.
Qed.

Lemma parse_function_prototype_witness :
  parse_function
    (FuncDecl (Some [Decl (Some "x") (inl Sample.int) None;
                     Typename (PtrDecl Sample.int); EllipsisParam])
              (void_type None))
  = Ok (mkFunction None
          (Some [mkParam (inl Sample.int) (Some "x");
                 mkParam (inl (PtrDecl Sample.int)) None])
          true).
Proof.
  apply (parse_function_prototype
           [Decl (Some "x") (inl Sample.int) None;
            Typename (PtrDecl Sample.int); EllipsisParam] (void_type None)).
  reflexivity.
Defined.

(** X6: an identifier among the parameters, as in a K&R header, makes
    [parse_function] raise [DecompFailure], whatever follows it. *)
Theorem parse_function_KnR :
  forall (pre post : list Node) (n : string) (ret : Type_),
    forallb is_prototype_param pre = true ->
    parse_function (FuncDecl (Some (pre ++ IDNode n :: post)) ret)
    = Err (DecompFailure KnR_not_supported).
Proof.
  intros pre post n ret Hall. unfold parse_function.
  assert (H : forall st,
             parse_function_args st (pre ++ IDNode n :: post)
             = Err (DecompFailure KnR_not_supported)).
  { clear ret. induction pre as [|arg pre IH]; intros [[ps v] h].
    - reflexivity.
    - cbn [forallb] in Hall. apply andb_true_iff in Hall as [Harg Hall].
      cbn [app parse_function_args].
      destruct arg as [? ty ?| | |ty| | |]; try discriminate Harg;
        cbn [parse_function_arg]; try apply (IH Hall).
      destruct (is_void ty); apply (IH Hall). }
  rewrite H. reflexivity.
Qed.

Lemma parse_function_KnR_witness :
  parse_function
    (FuncDecl (Some [Typename Sample.int; IDNode "b"; IDNode "c"]) Sample.int)
  = Err (DecompFailure KnR_not_supported).
Proof.
  apply (parse_function_KnR [Typename Sample.int] [IDNode "c"] "b" Sample.int).
  reflexivity.
Defined.

(** ** Integer constants *)

Lemma chars_app a b : Py.chars (a +:+ b) = Py.chars a ++ Py.chars b.
Proof.
  unfold Py.chars. induction a as [|c a IH]; [reflexivity|].
  change (String c a +:+ b) with (String c (a +:+ b)).
  cbn [list_ascii_of_string app]. f_equal. exact IH.
Qed.

Lemma lstrip_by_app p l1 l2 :
  forallb p l1 = true -> Py.lstrip_by p (l1 ++ l2) = Py.lstrip_by p l2.
Proof.
  induction l1 as [|c l1 IH]; intros H; [reflexivity|].
  cbn [forallb] in H. apply andb_true_iff in H as [Hc H].
  cbn [app Py.lstrip_by]. rewrite Hc. exact (IH H).
Qed.

Lemma forallb_rev {A} (p : A -> bool) l :
  forallb p l = true -> forallb p (rev l) = true.
Proof.
  rewrite !forallb_forall. intros H x Hx. apply H, in_rev, Hx.
Qed.

(** Trailing characters of the set are stripped, however many. *)
Lemma rstrip_app cs s suf :
  forallb (fun c => Py.mem c (Py.chars cs)) suf = true ->
  Py.rstrip cs (s ++ suf) = Py.rstrip cs s.
Proof.
  intros H. unfold Py.rstrip. rewrite rev_app_distr.
  rewrite lstrip_by_app by (apply forallb_rev; exact H). reflexivity.
Qed.

(** X7: integer suffixes do not count: a constant with the characters
    [l], [L], [u], [U] after its text, in any number and order, evaluates
    to what the constant without them evaluates to. *)
Theorem parse_constant_int_suffix :
  forall (ty ty' value suffix : string) (n : Z),
    forallb is_suffix_char (Py.chars suffix) = true ->
    parse_constant_int (Constant ty (value +:+ suffix)) = Ok n
    <-> parse_constant_int (Constant ty' value) = Ok n.
Proof.
  intros ty ty' value suffix n H. cbn [parse_constant_int].
  rewrite chars_app, (rstrip_app "lLuU" _ _ H).
  destruct (Py.int0 _); split; intros E; try discriminate E; exact E.
Qed.

Lemma parse_constant_int_suffix_witness :
  parse_constant_int (Constant "unsigned long int" ("0x20" +:+ "uLL")) = Ok 32
  <-> parse_constant_int (Constant "int" "0x20") = Ok 32.
Proof.
  apply (parse_constant_int_suffix "unsigned long int" "int" "0x20" "uLL" 32).
  reflexivity.
Defined.

(** X8: the only exception of [parse_constant_int] that is not a
    [DecompFailure] is the [ValueError] of a shift by a negative count;
    an expression without shifts evaluates or raises [DecompFailure]. *)
Theorem parse_constant_int_errors :
  forall (e : Expression) (ex : exn),
    parse_constant_int e = Err ex ->
    (exists msg, ex = DecompFailure msg)
    \/ (ex = ValueError /\ has_shift e = true).
Proof.
  induction e as [ty v|op e1 IH1 e2 IH2|op e|n]; intros ex H;
    cbn [parse_constant_int] in H.
  - destruct (Py.int0 _); [discriminate H|]. injection H as <-. eauto.
  - cbn [has_shift].
    destruct (parse_constant_int e1) as [lhs|ex1].
    2:{ injection H as <-. destruct (IH1 _ eq_refl) as [?|[? Hs]]; [auto|].
        right. split; [assumption|]. rewrite Hs, !orb_true_r. reflexivity. }
    destruct (parse_constant_int e2) as [rhs|ex2].
    2:{ injection H as <-. destruct (IH2 _ eq_refl) as [?|[? Hs]]; [auto|].
        right. split; [assumption|]. rewrite Hs, !orb_true_r. reflexivity. }
    destruct (String.eqb op "+"); [discriminate H|].
    destruct (String.eqb op "-"); [discriminate H|].
    destruct (String.eqb op "*"); [discriminate H|].
    destruct (String.eqb op "<<").
    { destruct (rhs <? 0); [|discriminate H]. injection H as <-.
      right. split; reflexivity. }
    destruct (String.eqb op ">>").
    { destruct (rhs <? 0); [|discriminate H]. injection H as <-.
      right. split; reflexivity. }
    injection H as <-. eauto.
  - injection H as <-. eauto.
  - injection H as <-. eauto.
Qed.

Lemma parse_constant_int_errors_witness :
  parse_constant_int
    (BinaryOp "<<" (Constant "int" "1")
              (BinaryOp "-" (Constant "int" "1") (Constant "int" "2")))
  = Err ValueError
  /\ ((exists msg, ValueError = DecompFailure msg)
      \/ (ValueError = ValueError
          /\ has_shift
               (BinaryOp "<<" (Constant "int" "1")
                         (BinaryOp "-" (Constant "int" "1")
                                   (Constant "int" "2"))) = true)).
Proof.
  split; [reflexivity|].
  apply (parse_constant_int_errors
           (BinaryOp "<<" (Constant "int" "1")
                     (BinaryOp "-" (Constant "int" "1") (Constant "int" "2")))
           ValueError).
  reflexivity.
Defined.

(** A text that ends outside the set is not stripped. *)
Lemma rstrip_plain cs s :
  forallb (fun c => negb (Py.mem c (Py.chars cs))) s = true ->
  Py.rstrip cs s = s.
Proof.
  intros H. unfold Py.rstrip.
  destruct (rev s) as [|c r] eqn:E.
  - cbn. rewrite <- (rev_involutive s), E. reflexivity.
  - assert (Hc : negb (Py.mem c (Py.chars cs)) = true).
    { rewrite forallb_forall in H. apply H, in_rev. rewrite E. left. reflexivity. }
    cbn [Py.lstrip_by]. apply negb_true_iff in Hc. rewrite Hc.
    rewrite <- E. apply rev_involutive.
Qed.

Section DecimalLiterals.

Local Abbreviation digits d :=
  (Py.chars (DecimalString.NilEmpty.string_of_uint d)).

Lemma scan_digits_digit base prev acc k c dval rest :
  Ascii.eqb c "_" = false ->
  Py.digit_value c = Some dval ->
  (dval <? base) = true ->
  Py.scan_digits base prev acc k (c :: rest)
  = Py.scan_digits base false (acc * base + dval) (S k) rest.
Proof.
  intros H1 H2 H3. cbn [Py.scan_digits]. rewrite H1, H2, H3. reflexivity.
Qed.

(** The digit scan reads a numeral as [Nat.of_uint] does. *)
Lemma scan_digits_decimal d :
  forall acc k,
    Py.scan_digits 10 false (Z.of_nat acc) k (digits d)
    = Some (Z.of_nat (Nat.of_uint_acc d acc), (k + Decimal.nb_digits d)%nat, []).
Proof.
  induction d as [|d IH|d IH|d IH|d IH|d IH|d IH|d IH|d IH|d IH|d IH];
    intros acc k;
    [cbn; rewrite Nat.add_0_r; reflexivity|..];
    cbn [DecimalString.NilEmpty.string_of_uint Py.chars list_ascii_of_string
         Nat.of_uint_acc Decimal.nb_digits];
    (erewrite scan_digits_digit;
     [|reflexivity | vm_compute; reflexivity | reflexivity]);
    match goal with
    | |- Py.scan_digits _ _ ?z _ _ = Some (Z.of_nat (Nat.of_uint_acc _ ?a), _, _) =>
        replace z with (Z.of_nat a) by (rewrite Nat.tail_mul_spec; lia)
    end;
    fold (Py.chars (DecimalString.NilEmpty.string_of_uint d));
    rewrite IH;
    replace (k + S (Decimal.nb_digits d))%nat with (S k + Decimal.nb_digits d)%nat by lia;
    reflexivity.
Qed.

Lemma digits_plain d :
  forallb (fun c => Py.is_ascii c && negb (is_suffix_char c)) (digits d) = true.
Proof.
  induction d; [reflexivity|..];
    cbn [DecimalString.NilEmpty.string_of_uint Py.chars list_ascii_of_string
         forallb];
    apply andb_true_iff; (split; [reflexivity | assumption]).
Qed.

Lemma nzhead_not_D0 d u : Decimal.nzhead d <> Decimal.D0 u.
Proof. induction d; cbn; try discriminate. exact IHd. Qed.

(** The numeral of a number is [0], or starts with another digit. *)
Lemma to_uint_head n :
  Nat.to_uint n = Decimal.D0 Decimal.Nil
  \/ (Nat.to_uint n <> Decimal.Nil /\ forall u, Nat.to_uint n <> Decimal.D0 u).
Proof.
  pose proof (DecimalNat.Unsigned.to_of (Nat.to_uint n)) as H.
  rewrite DecimalNat.Unsigned.of_to in H. unfold Decimal.unorm in H.
  destruct (Decimal.nzhead (Nat.to_uint n)) eqn:E;
    [left; exact H | exfalso; eapply nzhead_not_D0; exact E | right..];
    rewrite H; (split; [discriminate|]); intros ?; discriminate.
Qed.

Lemma long_from_string_plain c rest z k :
  Py.isspace c = false ->
  Ascii.eqb c "+" = false -> Ascii.eqb c "-" = false ->
  Ascii.eqb c "0" = false -> Ascii.eqb c "_" = false ->
  Py.scan_digits 10 false 0 0 (c :: rest) = Some (z, S k, []) ->
  Py.long_from_string (c :: rest) = Some z.
Proof.
  intros Hs Hp Hm H0 Hu Hscan. unfold Py.long_from_string.
  cbn [Py.lstrip_by]. rewrite Hs, Hp, Hm, H0, Hu, Hscan. reflexivity.
Qed.

Lemma int0_decimal n : Py.int0 (Py.chars (decimal n)) = Some (Z.of_nat n).
Proof.
  unfold decimal, Py.int0.
  assert (Ha : forallb Py.is_ascii (digits (Nat.to_uint n)) = true).
  { pose proof (digits_plain (Nat.to_uint n)) as H.
    rewrite forallb_forall in H |- *. intros c Hc.
    apply H, andb_true_iff in Hc. apply Hc. }
  rewrite Ha.
  pose proof (scan_digits_decimal (Nat.to_uint n) 0 0) as Hscan.
  change (Nat.of_uint_acc (Nat.to_uint n) 0) with (Nat.of_uint (Nat.to_uint n))
    in Hscan.
  rewrite DecimalNat.Unsigned.of_to in Hscan. cbn [Z.of_nat Nat.add] in Hscan.
  destruct (to_uint_head n) as [E|[Hnil Hz]].
  - assert (n = 0)%nat as ->.
    { rewrite <- (DecimalNat.Unsigned.of_to n), E. reflexivity. }
    reflexivity.
  - destruct (Nat.to_uint n) as [|d|d|d|d|d|d|d|d|d|d];
      [congruence | exfalso; eapply Hz; reflexivity|..];
      cbn [DecimalString.NilEmpty.string_of_uint Py.chars list_ascii_of_string
           Decimal.nb_digits] in *;
      eapply long_from_string_plain; try reflexivity; exact Hscan.
Qed.

End DecimalLiterals.

(** X9: a decimal integer constant evaluates to its number: for every
    natural number, [parse_constant_int] of its decimal numeral, with or
    without integer suffixes, returns the number. *)
Theorem parse_constant_int_decimal :
  forall (n : nat) (ty suffix : string),
    forallb is_suffix_char (Py.chars suffix) = true ->
    parse_constant_int (Constant ty (decimal n +:+ suffix)) = Ok (Z.of_nat n).
Proof.
  intros n ty suffix H. cbn [parse_constant_int].
  rewrite chars_app, (rstrip_app "lLuU" _ _ H).
  rewrite rstrip_plain.
  - rewrite int0_decimal. reflexivity.
  - pose proof (digits_plain (Nat.to_uint n)) as Hd.
    rewrite forallb_forall in Hd |- *. intros c Hc.
    apply Hd, andb_true_iff in Hc. apply Hc.
Qed.

Lemma parse_constant_int_decimal_witness :
  decimal 1024 +:+ "UL" = "1024UL"
  /\ parse_constant_int (Constant "unsigned long int" (decimal 1024 +:+ "UL"))
     = Ok 1024.
Proof.
  split; [reflexivity|].
  apply (parse_constant_int_decimal 1024 "unsigned long int" "UL").
  reflexivity.
Defined.

(** ** The cache of layouts *)

Lemma get_struct_store struct T tm :
  get_struct struct (store_struct struct T tm) = Some T.
Proof.
  unfold get_struct, store_struct.
  destruct (Py.truthy (name struct)); cbn; apply lookup_insert_eq.
Qed.

(** X10: [parse_struct] is memoized: once it has returned a layout for a
    node, the layout is cached under the node, and a second call returns
    the same layout and leaves the type map as it is, even for a node
    without [decls]. *)
Theorem parse_struct_memoized :
  forall (fuel fuel' : nat) (struct : StructUnion) (tm : TypeMap)
         (T : Struct) (tm' : TypeMap),
    parse_struct fuel struct tm = OK T tm' ->
    get_struct struct tm' = Some T
    /\ parse_struct (S fuel') struct tm' = OK T tm'.
Proof.
  intros fuel fuel' struct tm T tm' H.
  assert (Hg : get_struct struct tm' = Some T).
  { destruct fuel as [|fuel]; [discriminate H|].
    rewrite parse_struct_eq in H.
    destruct (get_struct struct tm) as [existing|] eqn:Eg.
    - injection H as <- <-. exact Eg.
    - destruct (decls struct); [|discriminate H].
      destruct (do_parse_struct fuel struct tm) as [r tm1| |];
        try discriminate H.
      injection H as <- <-. apply get_struct_store. }
  split; [exact Hg|]. rewrite parse_struct_eq, Hg. reflexivity.
Qed.

Lemma parse_struct_memoized_witness :
  exists T tm',
    parse_struct 3 Scenario.struct_A empty_typemap = OK T tm'
    /\ get_struct Scenario.struct_A tm' = Some T
    /\ parse_struct 1 Scenario.struct_A tm' = OK T tm'.
Proof.
  do 2 eexists. split; [vm_compute; reflexivity|].
  eapply (parse_struct_memoized 3 0 Scenario.struct_A empty_typemap).
  vm_compute. reflexivity.
Defined.

Section Keeps.

Variable Q : TypeMap -> Prop.

Lemma keeps_ret {A} (a : A) : keeps Q (ret a).
Proof. intros tm t HQ [= <-]. exact HQ. Qed.

Lemma keeps_raise {A} e : keeps Q (@raise A e).
Proof. intros tm t HQ [= <-]. exact HQ. Qed.

Lemma keeps_lift {A} (r : result A) : keeps Q (lift r).
Proof. destruct r; [apply keeps_ret | apply keeps_raise]. Qed.

Lemma keeps_bind {A B} (c : M A) (k : A -> M B) :
  keeps Q c -> (forall a, keeps Q (k a)) -> keeps Q (bind c k).
Proof.
  intros Hc Hk tm t HQ H. unfold bind in H.
  destruct (c tm) as [a tm1|e tm1|] eqn:E.
  - eapply Hk; [|exact H]. eapply Hc; [exact HQ|]. rewrite E. reflexivity.
  - eapply Hc; [exact HQ|]. rewrite E. exact H.
  - discriminate H.
Qed.

Lemma keeps_for_each {A S} (body : S -> A -> M S) l :
  (forall st x, keeps Q (body st x)) -> forall st, keeps Q (for_each body l st).
Proof.
  intros Hb. induction l as [|x l IH]; intros st.
  - apply keeps_ret.
  - cbn [for_each]. apply keeps_bind; [apply Hb | exact IH].
Qed.

End Keeps.

Section EngineKeeps.

Variable Q : TypeMap -> Prop.
Hypothesis Q_store : forall su T tm, Q tm -> Q (store_struct su T tm).

Ltac keeps_cases :=
  repeat match goal with
         | |- keeps _ (if ?c then _ else _) => destruct c
         | |- keeps _ (let '(_, _) := ?x in _) => destruct x
         | |- keeps _ (match ?x with Some _ => _ | None => _ end) => destruct x
         end;
  first [apply keeps_ret | apply keeps_raise].

Lemma keeps_layout_decl parse_struct_f parse_struct_member_f u struct_name :
  (forall su, keeps Q (parse_struct_f su)) ->
  (forall ty fn, keeps Q (parse_struct_member_f ty fn)) ->
  forall st decl,
    keeps Q (layout_decl parse_struct_f parse_struct_member_f u struct_name
                         st decl).
Proof.
  intros Hps Hpsm st decl. unfold layout_decl.
  destruct decl as [dn ty [bits|]| | | | | |]; try apply keeps_ret.
  - unfold layout_bitfield.
    apply keeps_bind; [apply keeps_lift|]. intros width.
    apply keeps_bind; [apply Hpsm|]. intros [[ssize salign] substr].
    keeps_cases.
  - destruct dn as [m|].
    + unfold layout_named.
      apply keeps_bind; [apply Hpsm|]. intros [[ssize salign] substr].
      keeps_cases.
    + destruct ty as [ty|[| |su]]; try apply keeps_ret.
      destruct (decls su); [|apply keeps_ret].
      unfold layout_anonymous.
      apply keeps_bind; [apply Hps|]. intros substr. keeps_cases.
Qed.

Lemma engine_keeps fuel :
  (forall su, keeps Q (parse_struct fuel su))
  /\ (forall ty fn, keeps Q (parse_struct_member fuel ty fn))
  /\ (forall su, keeps Q (do_parse_struct fuel su)).
Proof.
  induction fuel as [|fuel (IHps & IHpsm & IHdo)].
  { repeat split; intros; intros tm t _ H; discriminate H. }
  split; [|split].
  - intros su tm t HQ H. rewrite parse_struct_eq in H.
    destruct (get_struct su tm).
    + injection H as <-. exact HQ.
    + destruct (decls su); [|injection H as <-; exact HQ].
      destruct (do_parse_struct fuel su tm) as [r tm1|e tm1|] eqn:Ed;
        [| |discriminate H]; injection H as <-.
      * apply Q_store. eapply IHdo; [exact HQ|]. rewrite Ed. reflexivity.
      * eapply IHdo; [exact HQ|]. rewrite Ed. reflexivity.
  - intros [ty|inner] fn tm t HQ H; [|injection H as <-; exact HQ].
    rewrite parse_struct_member_eq in H.
    destruct (resolve_typedefs (S fuel) ty tm)
      as [[x|elt [dim|]|d inner|args rt]|]; try discriminate H;
      try (injection H as <-; exact HQ).
    + revert H. apply keeps_bind; [apply keeps_lift| |exact HQ].
      intros n. apply keeps_bind; [apply IHpsm|].
      intros [[esize ealign] esub]. apply keeps_ret.
    + destruct inner as [names|en|inner]; revert H;
        (apply keeps_bind; [| |exact HQ]);
        first [apply keeps_lift | apply IHps | intros ?; apply keeps_ret].
  - intros su. rewrite do_parse_struct_eq.
    destruct (decls su) as [[|d ds]|]; try apply keeps_raise.
    apply keeps_bind; [|intros st; apply keeps_ret].
    apply keeps_for_each. intros st x.
    apply keeps_layout_decl; assumption.
Qed.

End EngineKeeps.

Lemma extends_layouts_refl tm : extends_layouts tm tm.
Proof. repeat split; auto. Qed.

Lemma extends_layouts_store tm0 su T tm :
  extends_layouts tm0 tm -> extends_layouts tm0 (store_struct su T tm).
Proof.
  intros (Ht & Hv & Hf & Hn & Ha). unfold store_struct.
  destruct (Py.truthy (name su)); repeat split; cbn; auto.
  - intros n Hs. destruct (decide (Py.str_opt (name su) = n)) as [->|Hne].
    + rewrite lookup_insert_eq. eauto.
    + rewrite lookup_insert_ne by exact Hne. auto.
  - intros i Hs. destruct (decide (uid su = i)) as [->|Hne].
    + rewrite lookup_insert_eq. eauto.
    + rewrite lookup_insert_ne by exact Hne. auto.
Qed.

(** X11: whether it returns or raises, the layout engine leaves
    [typedefs], [var_types] and [functions] as they are, and drops no
    cached layout: all it does to the type map is to cache layouts. *)
Theorem parse_struct_only_caches :
  forall (fuel : nat) (struct : StructUnion) (tm t : TypeMap),
    final_typemap (parse_struct fuel struct tm) = Some t ->
    extends_layouts tm t.
Proof.
  intros fuel struct tm t H.
  refine (proj1 (engine_keeps (extends_layouts tm) _ fuel) struct tm t _ H).
  - intros su T tm1. apply extends_layouts_store.
  - apply extends_layouts_refl.
Qed.

Lemma parse_struct_only_caches_witness :
  final_typemap (parse_struct 3 Scenario.struct_F Sample.typedefs_TU)
  = Some Sample.typedefs_TU
  /\ extends_layouts Sample.typedefs_TU Sample.typedefs_TU.
Proof.
  split; [vm_compute; reflexivity|].
  apply (parse_struct_only_caches 3 Scenario.struct_F Sample.typedefs_TU).
  vm_compute. reflexivity.
Defined.

(** X12: started on a type map whose cached layouts have power-of-two
    alignments, [parse_struct] returns a layout with such an alignment,
    which is at least 1, and ends with such a type map again. *)
Theorem parse_struct_alignment :
  forall (fuel : nat) (struct : StructUnion) (tm : TypeMap)
         (T : Struct) (tm' : TypeMap),
    typemap_ok tm ->
    parse_struct fuel struct tm = OK T tm' ->
    typemap_ok tm' /\ pow2 (align T) /\ 1 <= align T.
Proof.
  intros fuel struct tm T tm' Htm H.
  destruct (proj1 (layout_engine_ok fuel) _ _ _ _ Htm H) as [Hok Hal].
  split; [exact Hok|]. split; [exact Hal|].
  destruct Hal as (k & Hk & ->).
  change 1 with (2 ^ 0). apply Z.pow_le_mono_r; lia.
Qed.

Lemma parse_struct_alignment_witness :
  exists T tm',
    parse_struct 6 Scenario.struct_Wrap empty_typemap = OK T tm'
    /\ typemap_ok tm' /\ pow2 (align T) /\ 1 <= align T.
Proof.
  do 2 eexists. split; [vm_compute; reflexivity|].
  eapply (parse_struct_alignment 6 Scenario.struct_Wrap empty_typemap).
  - exact typemap_ok_empty.
  - vm_compute. reflexivity.
Defined.

(** ** Properties kept by the builder *)

Section KeepsOk.

Variable Q : TypeMap -> Prop.

Lemma keeps_ok_ret {A} (a : A) : keeps_ok Q (ret a).
Proof. intros tm a' t HQ [= _ <-]. exact HQ. Qed.

Lemma keeps_ok_raise {A} e : keeps_ok Q (@raise A e).
Proof. intros tm a t _ H. discriminate H. Qed.

Lemma keeps_ok_bind {A B} (c : M A) (k : A -> M B) :
  keeps_ok Q c -> (forall a, keeps_ok Q (k a)) -> keeps_ok Q (bind c k).
Proof.
  intros Hc Hk tm b t HQ H.
  apply bind_inv_OK in H as (a & tm1 & H1 & H2).
  eapply Hk; [|exact H2]. eapply Hc; [exact HQ | exact H1].
Qed.

Lemma keeps_ok_for_each {A S} (body : S -> A -> M S) l :
  (forall st x, In x l -> keeps_ok Q (body st x)) ->
  forall st, keeps_ok Q (for_each body l st).
Proof.
  induction l as [|x l IH]; intros Hb st.
  - apply keeps_ok_ret.
  - cbn [for_each]. apply keeps_ok_bind.
    + apply Hb. left. reflexivity.
    + intros st'. apply IH. intros st0 y Hy. apply Hb. right. exact Hy.
Qed.

(** The visitor calls [parse_struct], records enums under [typedefs], and
    assigns to [var_types]. *)
Hypothesis Q_parse_struct :
  forall fuel su, keeps_ok Q (parse_struct fuel su).
Hypothesis Q_enum :
  forall n tm, Q tm -> Q (set_typedefs (insert n (basic_type ["int"])) tm).
Hypothesis Q_var :
  forall n ty tm, Q tm -> Q (set_var_types (insert n ty) tm).

Variable fuel : nat.

Lemma keeps_ok_visit_Inner inner : keeps_ok Q (Visitor.visit_Inner fuel inner).
Proof.
  destruct inner as [names|[en|]|su]; cbn.
  - apply keeps_ok_ret.
  - intros tm a t HQ [= _ <-]. apply Q_enum. exact HQ.
  - apply keeps_ok_ret.
  - unfold Visitor.visit_Struct. destruct (decls su); [|apply keeps_ok_ret].
    apply keeps_ok_bind; [apply Q_parse_struct | intros; apply keeps_ok_ret].
Qed.

Lemma keeps_ok_assign n ty :
  keeps_ok Q (modify (set_var_types (insert n ty))).
Proof. intros tm a t HQ [= _ <-]. apply Q_var. exact HQ. Qed.

Lemma keeps_ok_visit_both :
  (forall t, keeps_ok Q (Visitor.visit_Type fuel t))
  /\ (forall n, keeps_ok Q (Visitor.visit fuel n)).
Proof.
  assert (HFunc : forall args t,
             Forall (fun n => keeps_ok Q (Visitor.visit fuel n))
                    (match args with Some ps => ps | None => [] end) ->
             keeps_ok Q (Visitor.visit_Type fuel t) ->
             keeps_ok Q (Visitor.visit_Type fuel (FuncDecl args t))).
  { intros args t Hps IH. rewrite visit_Type_FuncDecl.
    apply keeps_ok_bind; [|intros _; exact IH].
    destruct args as [ps|]; [|apply keeps_ok_ret].
    induction Hps as [|n ps Hn _ IHps]; [apply keeps_ok_ret|].
    apply keeps_ok_bind; [exact Hn | intros _; exact IHps]. }
  assert (HDecl : forall n ty b,
             match ty with
             | inl t => keeps_ok Q (Visitor.visit_Type fuel t)
             | inr _ => True
             end ->
             keeps_ok Q (Visitor.visit fuel (Decl n ty b))).
  { intros n ty b IH. rewrite visit_Decl_eq. apply keeps_ok_bind.
    - destruct n; [apply keeps_ok_assign | apply keeps_ok_ret].
    - intros _. destruct ty as [[| | |]|i];
        first [apply keeps_ok_ret | exact IH | apply keeps_ok_visit_Inner]. }
  assert (HFuncDef : forall d, keeps_ok Q (Visitor.visit fuel (FuncDef d))).
  { intros [[nm|] ty b| | | | | |]; cbn;
      first [apply keeps_ok_assign | apply keeps_ok_ret | apply keeps_ok_raise]. }
  split.
  - apply (Type_visit_ind (fun t => keeps_ok Q (Visitor.visit_Type fuel t))
                          (fun n => keeps_ok Q (Visitor.visit fuel n))).
    + intros t IH. exact IH.
    + intros t d IH. exact IH.
    + intros d i. apply keeps_ok_visit_Inner.
    + exact HFunc.
    + exact HDecl.
    + intros n t IH. exact IH.
    + exact HFuncDef.
    + intros t IH. exact IH.
    + apply keeps_ok_ret.
    + intros n. apply keeps_ok_ret.
    + intros s. apply keeps_ok_ret.
  - apply (Node_visit_ind (fun t => keeps_ok Q (Visitor.visit_Type fuel t))
                          (fun n => keeps_ok Q (Visitor.visit fuel n))).
    + intros t IH. exact IH.
    + intros t d IH. exact IH.
    + intros d i. apply keeps_ok_visit_Inner.
    + exact HFunc.
    + exact HDecl.
    + intros n t IH. exact IH.
    + exact HFuncDef.
    + intros t IH. exact IH.
    + apply keeps_ok_ret.
    + intros n. apply keeps_ok_ret.
    + intros s. apply keeps_ok_ret.
Qed.

Lemma keeps_ok_visit_ext ext :
  keeps_ok Q (for_each (fun _ item => Visitor.visit fuel item) ext tt).
Proof.
  apply keeps_ok_for_each. intros _ item _. apply keeps_ok_visit_both.
Qed.

End KeepsOk.

Lemma typemap_ok_parse_struct fuel su : keeps_ok typemap_ok (parse_struct fuel su).
Proof.
  intros tm T t Htm H. apply (proj1 (layout_engine_ok fuel) _ _ _ _ Htm H).
Qed.

Lemma keeps_ok_lift Q {A} (r : result A) : keeps_ok Q (lift r).
Proof. destruct r; [apply keeps_ok_ret | apply keeps_ok_raise]. Qed.

Lemma keeps_ok_modify (Q : TypeMap -> Prop) f :
  (forall tm, Q tm -> Q (f tm)) -> keeps_ok Q (modify f).
Proof. intros Hf tm a t HQ [= _ <-]. apply Hf. exact HQ. Qed.

(** The first loop of [build_typemap] keeps what assignments to
    [typedefs] and [functions] keep. *)
Lemma keeps_ok_collect_item (Q : TypeMap -> Prop) item :
  (forall n ty tm, item = Typedef n ty -> Q tm ->
                   Q (set_typedefs (insert n ty) tm)) ->
  (forall n ty fn tm,
      declares_function item n -> declares item n (inl ty) ->
      parse_function ty = Ok fn ->
      Q tm -> Q (set_functions (insert n fn) tm)) ->
  keeps_ok Q (collect_item item).
Proof.
  intros Ht Hf. unfold collect_item.
  destruct item as [dn ty b|nm t|d| | | |]; try apply keeps_ok_ret.
  - destruct ty as [[| | |args rt]|i]; try apply keeps_ok_ret.
    destruct dn as [nm|]; [|apply keeps_ok_raise].
    intros tm a t HQ H.
    apply bind_inv_OK in H as (fn & tm1 & H1 & H2).
    unfold lift in H1.
    destruct (parse_function (FuncDecl args rt)) eqn:Ep; [|discriminate H1].
    injection H1 as <- <-. injection H2 as _ <-.
    eapply Hf; [left; eauto | left; eauto | exact Ep | exact HQ].
  - apply keeps_ok_modify. intros tm. apply Ht. reflexivity.
  - destruct d as [[nm|] ty b| | | | | |]; try apply keeps_ok_raise.
    destruct ty as [[| | |args rt]|i]; try apply keeps_ok_raise.
    intros tm a t HQ H.
    apply bind_inv_OK in H as (fn & tm1 & H1 & H2).
    unfold lift in H1.
    destruct (parse_function (FuncDecl args rt)) eqn:Ep; [|discriminate H1].
    injection H1 as <- <-. injection H2 as _ <-.
    eapply Hf; [right; eauto | right; eauto | exact Ep | exact HQ].
Qed.

(** X13: in the type map that [build_typemap] returns, every cached
    layout has a power-of-two alignment. *)
Theorem build_typemap_layouts_ok :
  forall (fuel : nat) (ext : list Node) (tm tm' : TypeMap),
    build_typemap fuel ext = OK tm tm' -> typemap_ok tm.
Proof.
  intros fuel ext tm tm' H. unfold build_typemap in H.
  apply bind_inv_OK in H as ([] & tm1 & H1 & H).
  apply bind_inv_OK in H as ([] & tm2 & H2 & H).
  injection H as <- <-.
  assert (Hok1 : typemap_ok tm1).
  { assert (Hs : named_structs tm1 = ∅ /\ anon_structs tm1 = ∅).
    { refine (keeps_ok_for_each
                (fun t => named_structs t = ∅ /\ anon_structs t = ∅)
                _ ext _ tt _ _ _ _ H1).
      - intros _ item _. apply keeps_ok_collect_item; intros; assumption.
      - split; reflexivity. }
    destruct Hs as [Hn Ha]. split; intros k T Hk.
    - rewrite Hn, lookup_empty in Hk. discriminate Hk.
    - rewrite Ha, lookup_empty in Hk. discriminate Hk. }
  refine (keeps_ok_visit_ext typemap_ok _ _ _ fuel ext _ _ _ Hok1 H2).
  - apply typemap_ok_parse_struct.
  - intros n tm0 Hq. exact Hq.
  - intros n ty tm0 Hq. exact Hq.
Qed.

Lemma build_typemap_layouts_ok_witness :
  exists tm,
    build_typemap 4
      [Decl None (inr (SU Scenario.struct_A)) None;
       Decl (Some "u") (inl (TypeDecl (Some "u") (SU Scenario.union_U))) None]
    = OK tm tm
    /\ is_Some (named_structs tm !! "A") /\ is_Some (named_structs tm !! "U")
    /\ typemap_ok tm.
Proof.
  eexists. split; [vm_compute; reflexivity|].
  split; [vm_compute; eauto|]. split; [vm_compute; eauto|].
  eapply (build_typemap_layouts_ok 4
            [Decl None (inr (SU Scenario.struct_A)) None;
             Decl (Some "u") (inl (TypeDecl (Some "u") (SU Scenario.union_U)))
                  None]).
  vm_compute. reflexivity.
Defined.

(** ** Where members are placed *)

Lemma land_pred_neg_pow2 a : pow2 a -> Z.land (0 + a - 1) (- a) = 0.
Proof.
  intros (k & Hk & ->). rewrite land_neg_pow2 by exact Hk.
  rewrite Z.div_small; [reflexivity|].
  pose proof (Z.pow_pos_nonneg 2 k ltac:(lia) Hk). lia.
Qed.

Section LoopPlacement.

Variable parse_struct_f : StructUnion -> M Struct.
Variable parse_struct_member_f :
  DeclType -> string -> M (Z * Z * option Struct).
Variable struct_name : option string.

Hypothesis parse_struct_f_ok :
  forall su tm T tm',
    typemap_ok tm -> parse_struct_f su tm = OK T tm' ->
    typemap_ok tm' /\ pow2 (align T).
Hypothesis parse_struct_member_f_ok :
  forall ty fn tm sz al sub tm',
    typemap_ok tm -> parse_struct_member_f ty fn tm = OK (sz, al, sub) tm' ->
    typemap_ok tm' /\ pow2 al.

(** In a union the offset stays 0. *)
Lemma layout_decl_union_offset st decl tm st' tm' :
  typemap_ok tm -> l_offset st = 0 ->
  layout_decl parse_struct_f parse_struct_member_f true struct_name st decl tm
  = OK st' tm' ->
  l_offset st' = 0.
Proof.
  intros Htm Hoff H. unfold layout_decl in H.
  destruct decl as [dn ty [bits|]| | | | | |];
    try (injection H as <- <-; exact Hoff).
  - unfold layout_bitfield in H.
    apply bind_inv_OK in H as (width & tm1 & _ & H).
    apply bind_inv_OK in H as ([[ssize salign] substr] & tm2 & _ & H).
    repeat match type of H with
           | (if ?c then _ else _) _ = _ => destruct c
           end; try discriminate H; injection H as <- <-; exact Hoff.
  - change (flush_bits true st) with st in H.
    destruct dn as [m|].
    + unfold layout_named in H.
      apply bind_inv_OK in H as ([[ssize salign] substr] & tm2 & Hm & H).
      injection H as <- <-. cbn [l_offset]. rewrite Hoff.
      apply land_pred_neg_pow2.
      eapply parse_struct_member_f_ok; [exact Htm | exact Hm].
    + destruct ty as [ty|[| |su]]; try (injection H as <- <-; exact Hoff).
      destruct (decls su); [|injection H as <- <-; exact Hoff].
      unfold layout_anonymous in H.
      apply bind_inv_OK in H as (substr & tm2 & Hm & H).
      destruct (name su); injection H as <- <-; [exact Hoff|].
      cbn [l_offset]. rewrite Hoff. apply land_pred_neg_pow2.
      eapply parse_struct_f_ok; [exact Htm | exact Hm].
Qed.

(** The alignment of the layout never goes down. *)
Lemma layout_decl_align_mono u st decl tm st' tm' :
  layout_decl parse_struct_f parse_struct_member_f u struct_name st decl tm
  = OK st' tm' ->
  l_align st <= l_align st'.
Proof.
  intros H. unfold layout_decl in H.
  destruct decl as [dn ty [bits|]| | | | | |];
    try (injection H as <- <-; lia).
  - apply layout_bitfield_inv in H as (? & ? & ? & ? & _ & _ & _ & -> & _). lia.
  - rewrite <- (flush_bits_align u st).
    destruct dn as [m|].
    + apply layout_named_inv in H as (? & ? & ? & _ & _ & -> & _). lia.
    + destruct ty as [ty|[| |su]]; try (injection H as <- <-; lia).
      destruct (decls su); [|injection H as <- <-; lia].
      apply layout_anonymous_inv in H as (substr & _ & H).
      destruct (name su); [subst st'; lia|].
      destruct H as (_ & -> & _). lia.
Qed.

Lemma for_each_align_mono u l st tm st' tm' :
  for_each (layout_decl parse_struct_f parse_struct_member_f u struct_name)
           l st tm = OK st' tm' ->
  l_align st <= l_align st'.
Proof.
  intros H.
  refine (for_each_invariant _ (fun s _ => l_align st <= l_align s) l
            _ _ _ _ _ _ H); [|lia].
  intros d st0 tm0 st1 tm1 _ H0 H1.
  apply layout_decl_align_mono in H1. lia.
Qed.

Lemma for_each_union_offset l st tm st' tm' :
  typemap_ok tm -> pow2 (l_align st) -> l_offset st = 0 ->
  for_each (layout_decl parse_struct_f parse_struct_member_f true struct_name)
           l st tm = OK st' tm' ->
  typemap_ok tm' /\ l_offset st' = 0.
Proof.
  intros Htm Hal Hoff H.
  cut ((typemap_ok tm' /\ pow2 (l_align st')) /\ l_offset st' = 0);
    [intros [[? _] ?]; auto|].
  refine (for_each_invariant _
            (fun s t => (typemap_ok t /\ pow2 (l_align s)) /\ l_offset s = 0)
            l _ _ _ _ _ _ H); [|auto].
  intros d st0 tm0 st1 tm1 _ [H0 Hoff0] H1. split.
  - eapply layout_decl_ok; eauto.
  - eapply layout_decl_union_offset; [apply H0 | exact Hoff0 | exact H1].
Qed.

End LoopPlacement.

(** X14: in a union laid out on a type map whose cached layouts have
    power-of-two alignments, every named member that is not a bitfield is
    in the field table at offset 0. *)
Theorem union_members_at_offset_0 :
  forall (fuel : nat) (struct : StructUnion) (tm : TypeMap)
         (layout : Struct) (tm' : TypeMap)
         (pre post : list Node) (m : string) (ty : DeclType),
    typemap_ok tm ->
    is_union struct = true ->
    do_parse_struct (S fuel) struct tm = OK layout tm' ->
    decls struct = Some (pre ++ Decl (Some m) ty None :: post) ->
    In (mkStructField ty m) (fields_get 0 (fields layout)).
Proof.
  intros fuel struct tm layout tm' pre post m ty Htm Hu H Hds.
  apply do_parse_struct_inv in H as (ds & stf & Hds' & _ & Hrun & ->).
  rewrite Hds in Hds'. injection Hds' as <-.
  unfold layout_prefix in Hrun. rewrite Hu in Hrun.
  rewrite for_each_app in Hrun.
  apply bind_inv_OK in Hrun as (st & tm1 & Hpre & Hrest).
  rewrite for_each_cons in Hrest.
  apply bind_inv_OK in Hrest as (st2 & tm2 & Hstep & Hpost).
  destruct (layout_engine_ok fuel) as (IHps & IHpsm & _).
  apply (for_each_union_offset _ _ _ IHps IHpsm) in Hpre
    as [Htm1 Hoff]; [|exact Htm|exact pow2_1|reflexivity].
  cbn [layout_decl] in Hstep. change (flush_bits true st) with st in Hstep.
  apply layout_named_inv in Hstep as (ssize & salign & substr & Hm & Hf & _).
  rewrite finish_layout_fields.
  eapply for_each_fields_mono; [exact Hpost|].
  rewrite Hf. cbv zeta. rewrite Hoff.
  rewrite land_pred_neg_pow2
    by (eapply IHpsm; [exact Htm1 | exact Hm]).
  destruct substr.
  - apply flatten_into_In. left. apply fields_append_In. auto.
  - apply fields_append_In. auto.
Qed.

Lemma union_members_at_offset_0_witness :
  exists layout tm',
    do_parse_struct 3 Scenario.union_U empty_typemap = OK layout tm'
    /\ In (mkStructField
             (inl (ArrayDecl (TypeDecl None (IdentifierType ["char"]))
                             (Scenario.lit "7"))) "c")
          (fields_get 0 (fields layout)).
Proof.
  do 2 eexists. split; [vm_compute; reflexivity|].
  eapply (union_members_at_offset_0 2 Scenario.union_U empty_typemap _ _
            [Decl (Some "i") (Scenario.prim ["int"]) None] [] "c").
  - exact typemap_ok_empty.
  - reflexivity.
  - vm_compute. reflexivity.
  - reflexivity.
Defined.

(** X15: every named member that is not a bitfield is put at a multiple
    of its alignment, and the alignment of the struct or union is at
    least that of the member. *)
Theorem members_are_aligned :
  forall (fuel : nat) (struct : StructUnion) (tm : TypeMap)
         (layout : Struct) (tm' : TypeMap)
         (pre post : list Node) (m : string) (ty : DeclType),
    typemap_ok tm ->
    do_parse_struct (S fuel) struct tm = OK layout tm' ->
    decls struct = Some (pre ++ Decl (Some m) ty None :: post) ->
    exists st tm1 ssize salign substr tm2,
      layout_prefix fuel struct pre tm = OK st tm1
      /\ parse_struct_member fuel ty
           (Py.str_opt (name struct) +:+ "." +:+ m) tm1
         = OK (ssize, salign, substr) tm2
      /\ In (mkStructField ty m)
            (fields_get (member_offset (is_union struct) st salign)
                        (fields layout))
      /\ member_offset (is_union struct) st salign mod salign = 0
      /\ salign <= align layout.
Proof.
  intros fuel struct tm layout tm' pre post m ty Htm H Hds.
  apply do_parse_struct_inv in H as (ds & stf & Hds' & _ & Hrun & ->).
  rewrite Hds in Hds'. injection Hds' as <-.
  unfold layout_prefix in *.
  rewrite for_each_app in Hrun.
  apply bind_inv_OK in Hrun as (st & tm1 & Hpre & Hrest).
  rewrite for_each_cons in Hrest.
  apply bind_inv_OK in Hrest as (st2 & tm2 & Hstep & Hpost).
  destruct (layout_engine_ok fuel) as (IHps & IHpsm & _).
  pose proof (for_each_layout_ok _ _ _ _ IHps IHpsm _ _ _ _ _
                (conj Htm (pow2_1 : pow2 (l_align initial_layout))) Hpre)
    as [Htm1 _].
  cbn [layout_decl] in Hstep.
  apply layout_named_inv in Hstep
    as (ssize & salign & substr & Hm & Hf & Hal & _).
  exists st, tm1, ssize, salign, substr, tm2.
  split; [exact Hpre|]. split; [exact Hm|].
  destruct (IHpsm _ _ _ _ _ _ _ Htm1 Hm) as [_ Hp2].
  split; [|split].
  - rewrite finish_layout_fields.
    eapply for_each_fields_mono; [exact Hpost|].
    rewrite Hf. cbv zeta. unfold member_offset. destruct substr.
    + apply flatten_into_In. left. apply fields_append_In. auto.
    + apply fields_append_In. auto.
  - unfold member_offset. apply land_neg_pow2_mod. exact Hp2.
  - rewrite finish_layout_align.
    apply for_each_align_mono in Hpost.
    rewrite Hal in Hpost. lia.
Qed.

Lemma members_are_aligned_witness :
  exists layout tm' st tm1 ssize salign substr tm2,
    do_parse_struct 2 Scenario.struct_A empty_typemap = OK layout tm'
    /\ layout_prefix 1 Scenario.struct_A
         [Decl (Some "a") (Scenario.prim ["int"]) None;
          Decl (Some "b") (Scenario.prim ["char"]) None] empty_typemap
       = OK st tm1
    /\ parse_struct_member 1 (Scenario.prim ["int"]) ("A" +:+ "." +:+ "c") tm1
       = OK (ssize, salign, substr) tm2
    /\ In (mkStructField (Scenario.prim ["int"]) "c")
          (fields_get (member_offset false st salign) (fields layout))
    /\ member_offset false st salign mod salign = 0
    /\ salign <= align layout.
Proof.
  do 2 eexists.
  cut (do_parse_struct 2 Scenario.struct_A empty_typemap
       = OK (mkStruct
               [(0, [mkStructField (Scenario.prim ["int"]) "a"]);
                (4, [mkStructField (Scenario.prim ["char"]) "b"]);
                (8, [mkStructField (Scenario.prim ["int"]) "c"])] 12 4)
            empty_typemap); [|vm_compute; reflexivity].
  intros E.
  destruct (members_are_aligned 1 Scenario.struct_A empty_typemap _ _
              [Decl (Some "a") (Scenario.prim ["int"]) None;
               Decl (Some "b") (Scenario.prim ["char"]) None] [] "c"
              (Scenario.prim ["int"]) typemap_ok_empty E eq_refl)
    as (st & tm1 & ssize & salign & substr & tm2 & H).
  exists st, tm1, ssize, salign, substr, tm2.
  split; [exact E | exact H].
Defined.

(** ** More on comment stripping *)

Module ReMore.
Import Re.

Lemma match_here_head c s m rest :
  match_here (c :: s) = Some (m, rest) -> exists m', m = c :: m'.
Proof.
  intros H. destruct (ReFacts.match_here_app _ _ _ H) as [E Hm].
  destruct m as [|c' m']; [congruence|]. injection E as <- _. eauto.
Qed.

Lemma count_LF_le s : (count_LF s <= List.length s)%nat.
Proof.
  induction s as [|c s IH]; [reflexivity|].
  rewrite ReFacts.count_LF_cons. cbn [List.length].
  destruct (Ascii.eqb LF c); lia.
Qed.

Lemma replacer_length m :
  (List.length (replacer m) <= List.length m)%nat.
Proof.
  unfold replacer. destruct m as [|c m]; [reflexivity|].
  destruct (Ascii.eqb c slash) eqn:E; [|reflexivity].
  apply Ascii.eqb_eq in E. subst c.
  cbn [List.length]. rewrite repeat_length, ReFacts.count_LF_cons.
  change (if Ascii.eqb LF slash then 1 else 0)%nat with 0%nat.
  pose proof (count_LF_le m). lia.
Qed.

Lemma strip_comments_length_le :
  forall n text, (List.length text <= n)%nat ->
                 (List.length (strip_comments text) <= List.length text)%nat.
Proof.
  induction n as [|n IH]; intros text Hn.
  - destruct text; [reflexivity | simpl in Hn; lia].
  - destruct text as [|c text]; [reflexivity|].
    destruct (match_here (c :: text)) as [[m rest]|] eqn:E.
    + rewrite (ReFacts.strip_comments_match _ _ _ E).
      pose proof (ReFacts.match_here_shorter _ _ _ E) as Hlt.
      destruct (ReFacts.match_here_app _ _ _ E) as [Happ _].
      rewrite Happ, !length_app.
      pose proof (replacer_length m).
      pose proof (IH rest ltac:(simpl in *; lia)). lia.
    + rewrite (ReFacts.strip_comments_char _ _ E). cbn [List.length].
      pose proof (IH text ltac:(simpl in *; lia)). lia.
Qed.

Lemma strip_comments_no_slash :
  forall n text,
    (List.length text <= n)%nat ->
    forallb is_not_slash text = true ->
    strip_comments text = text.
Proof.
  induction n as [|n IH]; intros text Hn Hall.
  - destruct text; [reflexivity | simpl in Hn; lia].
  - destruct text as [|c text]; [reflexivity|].
    cbn [forallb] in Hall. apply andb_true_iff in Hall as [Hc Hall].
    destruct (match_here (c :: text)) as [[m rest]|] eqn:E.
    + rewrite (ReFacts.strip_comments_match _ _ _ E).
      pose proof (ReFacts.match_here_shorter _ _ _ E) as Hlt.
      destruct (ReFacts.match_here_app _ _ _ E) as [Happ _].
      destruct (match_here_head _ _ _ _ E) as [m' ->].
      assert (Hr : replacer (c :: m') = c :: m').
      { unfold replacer. unfold is_not_slash in Hc.
        apply negb_true_iff in Hc. rewrite Hc. reflexivity. }
      rewrite Hr, IH; [symmetry; exact Happ | simpl in *; lia |].
      assert (Hall' : forallb is_not_slash (c :: text) = true)
        by (cbn [forallb]; rewrite Hc; exact Hall).
      rewrite Happ, forallb_app in Hall'.
      apply andb_true_iff in Hall'. apply Hall'.
    + rewrite (ReFacts.strip_comments_char _ _ E). f_equal.
      apply IH; [simpl in *; lia | exact Hall].
Qed.

Lemma match_here_plain c s : is_plain_char c = true -> match_here (c :: s) = None.
Proof.
  unfold is_plain_char, match_here. intros H.
  apply negb_true_iff in H. apply orb_false_iff in H as [H Hd].
  apply orb_false_iff in H as [Hs Hq]. rewrite Hs, Hq, Hd. reflexivity.
Qed.

(** Plain characters at the start are copied, and the search goes on. *)
Lemma strip_comments_plain_prefix pre text :
  forallb is_plain_char pre = true ->
  strip_comments (pre ++ text) = pre ++ strip_comments text.
Proof.
  induction pre as [|c pre IH]; intros H; [reflexivity|].
  cbn [forallb] in H. apply andb_true_iff in H as [Hc H].
  cbn [app]. rewrite ReFacts.strip_comments_char by (apply match_here_plain, Hc).
  rewrite (IH H). reflexivity.
Qed.

End ReMore.

(** X16: [strip_comments] never makes a text longer, and it returns a text
    without a slash as it is. *)
Theorem strip_comments_shrinks :
  forall text : list ascii,
    (List.length (strip_comments text) <= List.length text)%nat
    /\ (forallb is_not_slash text = true -> strip_comments text = text).
Proof.
  intros text. split.
  - eapply ReMore.strip_comments_length_le. reflexivity.
  - eapply ReMore.strip_comments_no_slash. reflexivity.
Qed.

Lemma strip_comments_shrinks_witness :
  let text := list_ascii_of_string "char c = 'x'; int a[3];" in
  forallb is_not_slash text = true
  /\ (List.length (strip_comments text) <= List.length text)%nat
  /\ strip_comments text = text.
Proof.
  cbv zeta. split; [reflexivity|].
  pose proof (strip_comments_shrinks
                (list_ascii_of_string "char c = 'x'; int a[3];")) as [H1 H2].
  split; [exact H1 | apply H2; reflexivity].
Defined.

(** X17: the line of typedefs that [add_builtin_typedefs] puts before the
    source goes through [strip_comments] as it is, so the two commute, and
    the text [build_typemap] parses has one line feed more than the
    source: the line numbers of the parser are off by one. *)
Theorem strip_comments_add_builtin_typedefs :
  forall source : list ascii,
    strip_comments (add_builtin_typedefs source)
    = add_builtin_typedefs (strip_comments source)
    /\ count_newlines (strip_comments (add_builtin_typedefs source))
       = S (count_newlines source).
Proof.
  intros source.
  assert (E : strip_comments (add_builtin_typedefs source)
              = add_builtin_typedefs (strip_comments source)).
  { unfold add_builtin_typedefs.
    rewrite ReMore.strip_comments_plain_prefix by (vm_compute; reflexivity).
    rewrite ReFacts.strip_comments_LF. reflexivity. }
  split; [exact E|]. rewrite E. unfold add_builtin_typedefs, count_newlines.
  rewrite ReFacts.count_LF_app, ReFacts.count_LF_cons, Ascii.eqb_refl.
  replace (Re.count_LF (list_ascii_of_string builtin_typedefs_line)) with 0%nat
    by (vm_compute; reflexivity).
  cbn [Nat.add]. f_equal.
  eapply ReFacts.strip_comments_count_LF. reflexivity.
Qed.

Example builtin_typedefs_line_text :
  builtin_typedefs_line
  = "typedef unsigned char u8; typedef char s8; typedef unsigned short u16; "
    +:+ "typedef short s16; typedef unsigned int u32; typedef int s32; "
    +:+ "typedef unsigned long long u64; typedef long long s64; "
    +:+ "typedef float f32; typedef double f64;".
Proof. vm_compute. reflexivity. Qed.

(** ** What the builder records *)

Lemma typedefs_parse_struct (Q : gmap string Type_ -> Prop) fuel su :
  keeps_ok (fun t => Q (typedefs t)) (parse_struct fuel su).
Proof.
  intros tm T t HQ H.
  refine (proj1 (engine_frame (fun t => Q (typedefs t)) _ fuel) su tm T t HQ H).
  intros su' T' t' Ht. unfold store_struct.
  destruct (Py.truthy _); exact Ht.
Qed.

Lemma collect_ext_typedefs ext :
  forall tm r tm',
    for_each (fun _ item => collect_item item) ext tt tm = OK r tm' ->
    (forall n, is_Some (typedefs tm !! n) -> is_Some (typedefs tm' !! n))
    /\ (forall n ty, In (Typedef n ty) ext -> is_Some (typedefs tm' !! n)).
Proof.
  induction ext as [|item ext IH]; intros tm r tm' H.
  - injection H as _ <-. split; [auto|]. intros ? ? [].
  - rewrite for_each_cons in H.
    apply bind_inv_OK in H as ([] & tm1 & H1 & H2).
    apply IH in H2 as (K2 & D2).
    assert (K1 : forall n, is_Some (typedefs tm !! n) ->
                           is_Some (typedefs tm1 !! n)).
    { intros n Hn.
      refine (keeps_ok_collect_item
                (fun t => is_Some (typedefs t !! n)) item _ _ tm tt tm1 Hn H1).
      - intros k ty t _ Ht. cbn. destruct (decide (k = n)) as [->|Hne].
        + rewrite lookup_insert_eq. eauto.
        + rewrite lookup_insert_ne by exact Hne. exact Ht.
      - intros k ty fn t _ _ _ Ht. exact Ht. }
    split; [auto|].
    intros n ty [->|Hin]; [|eauto].
    apply K2. injection H1 as <-. cbn. rewrite lookup_insert_eq. eauto.
Qed.

(** Where the entries of [typedefs] come from: the first loop of
    [build_typemap] enters the top-level typedefs, [visit_Enum] enters
    [int] under the tag of an enum. *)
Lemma build_typemap_typedefs_from fuel ext tm tm' :
  build_typemap fuel ext = OK tm tm' ->
  forall n ty,
    typedefs tm !! n = Some ty ->
    ty = basic_type ["int"] \/ In (Typedef n ty) ext.
Proof.
  intros H. unfold build_typemap in H.
  apply bind_inv_OK in H as ([] & tm1 & H1 & H).
  apply bind_inv_OK in H as ([] & tm2 & H2 & H).
  injection H as <- <-.
  set (Q := fun m : gmap string Type_ =>
              forall n ty, m !! n = Some ty ->
                           ty = basic_type ["int"] \/ In (Typedef n ty) ext).
  assert (Q1 : Q (typedefs tm1)).
  { refine (keeps_ok_for_each (fun t => Q (typedefs t)) _ ext _ tt
              empty_typemap tt tm1 _ H1).
    - intros _ item Hitem. apply keeps_ok_collect_item.
      + intros k ty t -> Ht n ty' Hl. cbn in Hl.
        destruct (decide (k = n)) as [->|Hne].
        * rewrite lookup_insert_eq in Hl. injection Hl as <-. auto.
        * rewrite lookup_insert_ne in Hl by exact Hne. auto.
      + intros k ty fn t _ _ _ Ht. exact Ht.
    - intros n ty Hl. cbn in Hl. rewrite lookup_empty in Hl. discriminate Hl. }
  refine (keeps_ok_visit_ext (fun t => Q (typedefs t))
            _ _ _ fuel ext _ _ _ Q1 H2).
  + intros f su. apply (typedefs_parse_struct Q).
  + intros k t Ht n ty Hl. cbn in Hl.
    destruct (decide (k = n)) as [->|Hne].
    * rewrite lookup_insert_eq in Hl. injection Hl as <-. auto.
    * rewrite lookup_insert_ne in Hl by exact Hne. auto.
  + intros k ty' t Ht. exact Ht.
Qed.

(** X18: after [build_typemap] every top-level typedef has an entry in
    [typedefs]; and an entry of [typedefs] holds the type of a top-level
    typedef of that name, or [int], which is what a named enum is
    recorded as. *)
Theorem build_typemap_typedefs :
  forall (fuel : nat) (ext : list Node) (tm tm' : TypeMap),
    build_typemap fuel ext = OK tm tm' ->
    (forall n ty, In (Typedef n ty) ext -> is_Some (typedefs tm !! n))
    /\ (forall n ty,
           typedefs tm !! n = Some ty ->
           ty = basic_type ["int"] \/ In (Typedef n ty) ext).
Proof.
  intros fuel ext tm tm' H. unfold build_typemap in H.
  apply bind_inv_OK in H as ([] & tm1 & H1 & H).
  apply bind_inv_OK in H as ([] & tm2 & H2 & H).
  injection H as <- <-. split.
  - intros n ty Hin.
    apply collect_ext_typedefs in H1 as [_ D1].
    refine (keeps_ok_visit_ext (fun t => is_Some (typedefs t !! n))
              _ _ _ fuel ext _ _ _ (D1 _ _ Hin) H2).
    + intros f su. apply (typedefs_parse_struct (fun m => is_Some (m !! n))).
    + intros k t Ht. cbn. destruct (decide (k = n)) as [->|Hne].
      * rewrite lookup_insert_eq. eauto.
      * rewrite lookup_insert_ne by exact Hne. exact Ht.
    + intros k ty' t Ht. exact Ht.
  - apply (build_typemap_typedefs_from fuel ext tm2 tm2).
    unfold build_typemap. erewrite bind_OK by exact H1.
    erewrite bind_OK by exact H2. reflexivity.
Qed.

Lemma build_typemap_typedefs_witness :
  let e := TypeDecl (Some "E") (Enum (Some "E")) in
  exists tm,
    build_typemap 1 [Typedef "E" e] = OK tm tm
    /\ typedefs tm !! "E" = Some (basic_type ["int"])
    /\ (forall n ty, In (Typedef n ty) [Typedef "E" e] ->
                     is_Some (typedefs tm !! n))
    /\ (forall n ty,
           typedefs tm !! n = Some ty ->
           ty = basic_type ["int"] \/ In (Typedef n ty) [Typedef "E" e]).
Proof.
  cbv zeta. eexists. split; [vm_compute; reflexivity|].
  split; [vm_compute; reflexivity|].
  eapply (build_typemap_typedefs 1).
  vm_compute. reflexivity.
Defined.

(** X19: after [build_typemap] every entry of [functions] is what
    [parse_function] returns for the type of a top-level declaration or
    definition of a function of that name. *)
Theorem build_typemap_functions :
  forall (fuel : nat) (ext : list Node) (tm tm' : TypeMap)
         (n : string) (fn : Function),
    build_typemap fuel ext = OK tm tm' ->
    functions tm !! n = Some fn ->
    exists item ty,
      In item ext /\ declares_function item n /\ declares item n (inl ty)
      /\ parse_function ty = Ok fn.
Proof.
  intros fuel ext tm tm' n fn H Hfn. unfold build_typemap in H.
  apply bind_inv_OK in H as ([] & tm1 & H1 & H).
  apply bind_inv_OK in H as ([] & tm2 & H2 & H).
  injection H as <- <-.
  apply visits_ext in H2 as [_ F2]. rewrite F2 in Hfn.
  set (Q := fun t : TypeMap =>
                forall n fn, functions t !! n = Some fn ->
                  exists item ty,
                    In item ext /\ declares_function item n
                    /\ declares item n (inl ty) /\ parse_function ty = Ok fn).
  assert (Q1 : Q tm1).
  { refine (keeps_ok_for_each Q _ ext _ tt empty_typemap tt tm1 _ H1).
    - intros _ item Hitem. apply keeps_ok_collect_item.
      + intros k ty t _ Ht. exact Ht.
      + intros k ty f t Hdf Hd Hp Ht k' f' Hl. cbn in Hl.
        destruct (decide (k = k')) as [->|Hne].
        * rewrite lookup_insert_eq in Hl. injection Hl as <-.
          exists item, ty. auto.
        * rewrite lookup_insert_ne in Hl by exact Hne. auto.
    - intros k f Hl. cbn in Hl. rewrite lookup_empty in Hl. discriminate Hl. }
  exact (Q1 n fn Hfn).
Qed.

Lemma build_typemap_functions_witness :
  exists tm fn,
    build_typemap 1 [Redeclared.prototype] = OK tm tm
    /\ functions tm !! "f" = Some fn
    /\ exists item ty,
        In item [Redeclared.prototype] /\ declares_function item "f"
        /\ declares item "f" (inl ty) /\ parse_function ty = Ok fn.
Proof.
  do 2 eexists. split; [vm_compute; reflexivity|].
  split; [vm_compute; reflexivity|].
  eapply (build_typemap_functions 1 [Redeclared.prototype]).
  - vm_compute. reflexivity.
  - vm_compute. reflexivity.
Defined.

(** ** Decay and the kind of a type *)

(** X20: when the name [int] is not a typedef, the type [pointer_decay]
    returns is of the same kind as its argument for [get_primitive_list]
    and [is_struct_type]: an array or a function is no primitive and no
    struct, and neither is the pointer it decays to; an enum counts as
    [int], which is what it decays to. *)
Theorem pointer_decay_keeps_kind :
  forall (fuel : nat) (t t' : Type_) (tm : TypeMap),
    typedefs tm !! "int" = None ->
    pointer_decay fuel t tm = Some (Ok t') ->
    get_primitive_list fuel t' tm = get_primitive_list fuel t tm
    /\ is_struct_type fuel t' tm = is_struct_type fuel t tm.
Proof.
  intros fuel t t' tm Hint H.
  unfold pointer_decay in H. unfold get_primitive_list, is_struct_type.
  destruct (resolve_typedefs fuel t tm) as [real|] eqn:E; [|discriminate H].
  destruct (resolve_typedefs_fuel _ _ _ _ E) as [fuel' ->].
  injection H as H.
  assert (Hsame : t' = t ->
                  resolve_typedefs (S fuel') t' tm = Some real)
    by (intros ->; exact E).
  destruct real as [x|x dim|d [names|en|su]|args rt].
  - destruct t; try discriminate H; injection H as <-;
      rewrite Hsame by reflexivity; auto.
  - injection H as <-. auto.
  - destruct t; try discriminate H; injection H as <-;
      rewrite Hsame by reflexivity; auto.
  - injection H as <-. unfold basic_type.
    cbn [resolve_typedefs]. rewrite Hint. auto.
  - destruct t; try discriminate H; injection H as <-;
      rewrite Hsame by reflexivity; auto.
  - injection H as <-. auto.
Qed.

Lemma pointer_decay_keeps_kind_witness :
  let e := TypeDecl None (Enum (Some "E")) in
  pointer_decay 1 e empty_typemap = Some (Ok (basic_type ["int"]))
  /\ get_primitive_list 1 e empty_typemap = Some (Some ["int"])
  /\ get_primitive_list 1 (basic_type ["int"]) empty_typemap
     = get_primitive_list 1 e empty_typemap
  /\ is_struct_type 1 (basic_type ["int"]) empty_typemap
     = is_struct_type 1 e empty_typemap.
Proof.
  cbv zeta. split; [reflexivity|]. split; [reflexivity|].
  apply (pointer_decay_keeps_kind 1 (TypeDecl None (Enum (Some "E")))).
  - reflexivity.
  - reflexivity.
Defined.

(** ** The name of a declarator *)

Lemma resolve_typedefs_set_decl_name fuel name t tm :
  resolve_typedefs fuel (set_decl_name name t) tm = resolve_typedefs fuel t tm
  \/ (resolve_typedefs fuel t tm = Some t
      /\ resolve_typedefs fuel (set_decl_name name t) tm
         = Some (set_decl_name name t)).
Proof.
  destruct fuel as [|fuel]; [left; reflexivity|].
  destruct t as [x|x dim|d [names|en|su]|args rt];
    try (right; split; reflexivity).
  cbn [set_decl_name resolve_typedefs].
  destruct names as [|n [|? ?]]; try (right; split; reflexivity).
  destruct (typedefs tm !! n); [left; reflexivity | right; split; reflexivity].
Qed.

(** X21: [set_decl_name] touches the name only: the name set last is the
    one that stays, and [is_void], [get_primitive_list], [is_struct_type]
    and [function_arg_size_align] give the same on the renamed type. *)
Theorem set_decl_name_only_renames :
  forall (fuel : nat) (name name' : option string) (t : Type_) (tm : TypeMap),
    set_decl_name name (set_decl_name name' t) = set_decl_name name t
    /\ is_void (set_decl_name name t) = is_void t
    /\ get_primitive_list fuel (set_decl_name name t) tm
       = get_primitive_list fuel t tm
    /\ is_struct_type fuel (set_decl_name name t) tm = is_struct_type fuel t tm
    /\ function_arg_size_align fuel (set_decl_name name t) tm
       = function_arg_size_align fuel t tm.
Proof.
  intros fuel name name' t tm. split; [|split].
  - induction t as [x IH|x IH dim|d i|args rt IH];
      cbn [set_decl_name]; congruence.
  - destruct t; reflexivity.
  - unfold get_primitive_list, is_struct_type, function_arg_size_align.
    destruct (resolve_typedefs_set_decl_name fuel name t tm) as [->|[-> ->]];
      [auto|].
    destruct t as [x|x dim|d [names|en|su]|args rt]; auto.
Qed.

(** ** The keyword [int] *)

(** X22: [int] is no typedef name in the type map [build_typemap] returns,
    when no top-level typedef is named [int] and the typedefs of the map
    have no cycle: the entry that [visit_Enum] makes is [int] itself, so
    under the name [int] it would be a cycle. *)
Theorem build_typemap_int_not_typedef :
  forall (fuel : nat) (ext : list Node) (tm tm' : TypeMap)
         (rank : string -> nat),
    build_typemap fuel ext = OK tm tm' ->
    typedefs_ranked rank tm ->
    (forall ty, ~ In (Typedef "int" ty) ext) ->
    typedefs tm !! "int" = None.
Proof.
  intros fuel ext tm tm' rank H Hrank Hext.
  destruct (typedefs tm !! "int") as [ty|] eqn:E; [|reflexivity].
  destruct (build_typemap_typedefs_from _ _ _ _ H _ _ E) as [->|Hin].
  - apply Hrank in E. lia.
  - destruct (Hext _ Hin).
Qed.

Lemma build_typemap_int_not_typedef_witness :
  let int := TypeDecl None (IdentifierType ["int"]) in
  let ext := [Typedef "T" int;
              Typedef "E" (TypeDecl (Some "E") (Enum (Some "E")))] in
  exists tm,
    build_typemap 1 ext = OK tm tm
    /\ typedefs tm !! "T" = Some int
    /\ typedefs tm !! "E" = Some int
    /\ typedefs tm !! "int" = None.
Proof.
  cbv zeta. eexists. split; [vm_compute; reflexivity|].
  split; [vm_compute; reflexivity|]. split; [vm_compute; reflexivity|].
  eapply (build_typemap_int_not_typedef 1
            [Typedef "T" (TypeDecl None (IdentifierType ["int"]));
             Typedef "E" (TypeDecl (Some "E") (Enum (Some "E")))]
            _ _ (fun n => if String.eqb n "int" then 0 else 1)%nat).
  - vm_compute. reflexivity.
  - intros n d m H.
    destruct (build_typemap_typedefs_from 1
                [Typedef "T" (TypeDecl None (IdentifierType ["int"]));
                 Typedef "E" (TypeDecl (Some "E") (Enum (Some "E")))]
                _ _ ltac:(vm_compute; reflexivity) _ _ H)
      as [E|[E|[E|[]]]].
    + injection E as -> ->.
      destruct (String.eqb n "int") eqn:En; [|vm_compute; lia].
      apply String.eqb_eq in En. subst n. vm_compute in H. discriminate H.
    + injection E as <- <- <-. vm_compute. lia.
    + discriminate E.
  - intros ty [E|[E|[]]]; discriminate E.
Defined.
